(** * Hackathon Scout: streaming event pipeline

    A shallow embedding of the server-side stream transformer
    (agent/hackathon-scout/index.ts), of the literature fetcher
    (agent/hackathon-scout/utils.ts) and of the client reducer
    (web/App.tsx), with the properties of the design document that can be
    stated about them.

    JavaScript strings are sequences of UTF-16 code units; they are
    modelled as lists of code units, a code unit being a natural number. *)

From Stdlib Require Import Ascii String.
From Stdlib Require Import List NArith ZArith Bool Lia.
From Stdlib Require DecimalFacts DecimalN.
Import ListNotations.

Local Open Scope list_scope.
Local Open Scope N_scope.

(** * The program *)

(** ** Strings *)

Definition jsstring := list N.

(** An ASCII literal of the source, as code units. *)
Definition str (s : string) : jsstring :=
  map N_of_ascii (list_ascii_of_string s).

Fixpoint eqb_str (a b : jsstring) : bool :=
  match a, b with
  | [], [] => true
  | x :: a', y :: b' => (x =? y) && eqb_str a' b'
  | _, _ => false
  end.

Infix "=s" := eqb_str (at level 70, no associativity).

(** [s.startsWith(p)], returning what follows the prefix. *)
Fixpoint strip_prefix (p s : jsstring) : option jsstring :=
  match p with
  | [] => Some s
  | a :: p' =>
      match s with
      | [] => None
      | b :: s' => if a =? b then strip_prefix p' s' else None
      end
  end.

(** The longest prefix whose code units satisfy [f], and the rest. *)
Fixpoint span (f : N -> bool) (s : jsstring) : jsstring * jsstring :=
  match s with
  | [] => ([], [])
  | c :: s' =>
      if f c then let (a, b) := span f s' in (c :: a, b) else ([], s)
  end.

Fixpoint dropWhile (f : N -> bool) (s : jsstring) : jsstring :=
  match s with
  | [] => []
  | c :: s' => if f c then dropWhile f s' else s
  end.

(** [parts.join(sep)] *)
Fixpoint join (sep : jsstring) (parts : list jsstring) : jsstring :=
  match parts with
  | [] => []
  | [p] => p
  | p :: ps => p ++ sep ++ join sep ps
  end.

(** Decimal digits of a natural number, as a template literal prints it. *)
Fixpoint digits_of_uint (u : Decimal.uint) : jsstring :=
  match u with
  | Decimal.Nil => []
  | Decimal.D0 u' => 48 :: digits_of_uint u'
  | Decimal.D1 u' => 49 :: digits_of_uint u'
  | Decimal.D2 u' => 50 :: digits_of_uint u'
  | Decimal.D3 u' => 51 :: digits_of_uint u'
  | Decimal.D4 u' => 52 :: digits_of_uint u'
  | Decimal.D5 u' => 53 :: digits_of_uint u'
  | Decimal.D6 u' => 54 :: digits_of_uint u'
  | Decimal.D7 u' => 55 :: digits_of_uint u'
  | Decimal.D8 u' => 56 :: digits_of_uint u'
  | Decimal.D9 u' => 57 :: digits_of_uint u'
  end.

Definition nat_to_string (n : nat) : jsstring := digits_of_uint (Nat.to_uint n).
Definition N_to_string (n : N) : jsstring := digits_of_uint (N.to_uint n).

Definition Z_to_string (z : Z) : jsstring :=
  match z with
  | Z0 => [48]
  | Zpos p => N_to_string (Npos p)
  | Zneg p => 45 :: N_to_string (Npos p)
  end.

(** The class [\s] of a regular expression without the [u] flag, which is
    also what [String.prototype.trim] strips: WhiteSpace and
    LineTerminator code units. *)
Definition is_ws (c : N) : bool :=
  (c =? 9) || (c =? 10) || (c =? 11) || (c =? 12) || (c =? 13) || (c =? 32)
  || (c =? 0xA0) || (c =? 0x1680) || ((0x2000 <=? c) && (c <=? 0x200A))
  || (c =? 0x2028) || (c =? 0x2029) || (c =? 0x202F) || (c =? 0x205F)
  || (c =? 0x3000) || (c =? 0xFEFF).

(** [s.trim()] *)
Definition trim (s : jsstring) : jsstring :=
  rev (dropWhile is_ws (rev (dropWhile is_ws s))).

(** ** Regular expressions of the source

    A pattern is given by its anchored matcher: the length of the match
    that starts at the head of the subject, if there is one.  None of the
    patterns of the source matches the empty string. *)

Definition matcher := jsstring -> option nat.

(** [subject.match(/re/g) || []]: the matches found by scanning from left
    to right, the scan resuming at the end of each match.  [skip] counts
    the code units of the current match that are still to be passed. *)
Fixpoint match_all (re : matcher) (skip : nat) (s : jsstring) : list jsstring :=
  match s with
  | [] => []
  | _ :: s' =>
      match skip with
      | S k => match_all re k s'
      | O =>
          match re s with
          | Some (S len) => firstn (S len) s :: match_all re len s'
          | _ => match_all re 0 s'
          end
      end
  end.

(** [subject.replace(/re/g, rep)] *)
Fixpoint replace_all (re : matcher) (rep : jsstring) (skip : nat) (s : jsstring)
  : jsstring :=
  match s with
  | [] => []
  | c :: s' =>
      match skip with
      | S k => replace_all re rep k s'
      | O =>
          match re s with
          | Some (S len) => rep ++ replace_all re rep len s'
          | _ => c :: replace_all re rep 0 s'
          end
      end
  end.

Definition LT : N := 60.      (* '<' *)
Definition SLASH : N := 47.   (* '/' *)
Definition ENTRY_TAG : jsstring := Eval cbv in str "<entry>".
Definition TITLE_OPEN : jsstring := Eval cbv in str "<title>".
Definition TITLE_CLOSE : jsstring := Eval cbv in str "</title>".
Definition TITLE_REST : jsstring := Eval cbv in str "title>".

Definition not_lt (c : N) : bool := negb (c =? LT).

(** [/<entry>/] *)
Definition re_entry : matcher := fun s =>
  match strip_prefix ENTRY_TAG s with
  | Some _ => Some (length ENTRY_TAG)
  | None => None
  end.

(** [/<title>([^<]+)<\/title>/]: the greedy class takes every code unit up
    to the next '<', where the closing tag has to start. *)
Definition re_title : matcher := fun s =>
  match strip_prefix TITLE_OPEN s with
  | None => None
  | Some r =>
      let (body, r') := span not_lt r in
      match body with
      | [] => None
      | _ :: _ =>
          match strip_prefix TITLE_CLOSE r' with
          | Some _ =>
              Some (length TITLE_OPEN + length body + length TITLE_CLOSE)%nat
          | None => None
          end
      end
  end.

(** [/<\/?title>/] *)
Definition re_title_tag : matcher := fun s =>
  match s with
  | c :: r =>
      if c =? LT then
        match r with
        | d :: r' =>
            if d =? SLASH then
              match strip_prefix TITLE_REST r' with
              | Some _ => Some (length TITLE_CLOSE)
              | None => None
              end
            else
              match strip_prefix TITLE_REST r with
              | Some _ => Some (length TITLE_OPEN)
              | None => None
              end
        | [] => None
        end
      else None
  | [] => None
  end.

(** [/\s+/] *)
Definition re_ws_run : matcher := fun s =>
  match fst (span is_ws s) with
  | [] => None
  | run => Some (length run)
  end.

(** ** JavaScript values

    The values a chunk field or an event payload can hold: [undefined],
    [null], booleans, integer-valued numbers, strings, arrays and plain
    objects (own enumerable properties in enumeration order).  Numbers
    with a fractional part, non-finite numbers, functions, symbols,
    BigInts and class instances are outside the model. *)

#[warnings="-register-all"] Inductive JsValue : Type :=
  | JUndefined
  | JNull
  | JBool (b : bool)
  | JNum (z : Z)
  | JStr (s : jsstring)
  | JArr (elems : list JsValue)
  | JObj (props : list (jsstring * JsValue)).

Definition is_undefined (v : JsValue) : bool :=
  match v with JUndefined => true | _ => false end.

(** The string that [String(v)] returns, when it returns; [String_throws]
    tells when it throws.  The integers are those a number holds exactly
    and writes with all their digits. *)
Fixpoint js_String (v : JsValue) : jsstring :=
  match v with
  | JUndefined => str "undefined"
  | JNull => str "null"
  | JBool true => str "true"
  | JBool false => str "false"
  | JNum z => Z_to_string z
  | JStr s => s
  | JArr elems =>
      join [44]
        (map (fun e => match e with
                       | JUndefined | JNull => []
                       | _ => js_String e
                       end) elems)
  | JObj _ => str "[object Object]"
  end.

(** [v ?? d] *)
Definition nullish (v d : JsValue) : JsValue :=
  match v with
  | JUndefined | JNull => d
  | _ => v
  end.

(** [!!v] *)
Definition truthy (v : JsValue) : bool :=
  match v with
  | JUndefined | JNull | JBool false | JNum 0 | JStr [] => false
  | _ => true
  end.

(** [obj[k] = v] on the list of properties. *)
Fixpoint obj_set (props : list (jsstring * JsValue)) (k : jsstring) (v : JsValue)
  : list (jsstring * JsValue) :=
  match props with
  | [] => [(k, v)]
  | (k', v') :: ps =>
      if k' =s k then (k', v) :: ps else (k', v') :: obj_set ps k v
  end.

(** [obj[k]] *)
Fixpoint obj_get (props : list (jsstring * JsValue)) (k : jsstring) : JsValue :=
  match props with
  | [] => JUndefined
  | (k', v) :: ps => if k' =s k then v else obj_get ps k
  end.

(** [obj.k] for a property name of the source. *)
Definition field (props : list (jsstring * JsValue)) (k : string) : JsValue :=
  obj_get props (str k).

(** ** JSON

    [JSON.stringify] and [JSON.parse] on the values of the model.  A
    number is printed and read as a decimal integer; a number literal with
    a fraction or an exponent is outside the model and is not read. *)

Definition is_digit (c : N) : bool := (48 <=? c) && (c <=? 57).

Definition hex_digit (d : N) : N := if d <? 10 then 48 + d else 87 + d.

Definition hex_value (c : N) : option N :=
  if is_digit c then Some (c - 48)
  else if (97 <=? c) && (c <=? 102) then Some (c - 87)
  else if (65 <=? c) && (c <=? 70) then Some (c - 55)
  else None.

Definition hex4 (c : N) : jsstring :=
  [hex_digit (c / 4096 mod 16); hex_digit (c / 256 mod 16);
   hex_digit (c / 16 mod 16); hex_digit (c mod 16)].

(** Surrogate code units. *)
Definition is_high (c : N) : bool := (0xD800 <=? c) && (c <=? 0xDBFF).
Definition is_low (c : N) : bool := (0xDC00 <=? c) && (c <=? 0xDFFF).

(** The escape of one code unit that is not part of a surrogate pair. *)
Definition escape_unit (c : N) : jsstring :=
  if c =? 8 then [92; 98]
  else if c =? 9 then [92; 116]
  else if c =? 10 then [92; 110]
  else if c =? 12 then [92; 102]
  else if c =? 13 then [92; 114]
  else if c =? 34 then [92; 34]
  else if c =? 92 then [92; 92]
  else if (c <? 32) || is_high c || is_low c then 92 :: 117 :: hex4 c
  else [c].

(** The code units of a string between the quotes.  A high surrogate
    followed by a low one is a pair and both are kept; [paired] tells that
    the previous code unit was the high half of a pair. *)
Fixpoint quote_units (paired : bool) (s : jsstring) : jsstring :=
  match s with
  | [] => []
  | c :: s' =>
      if is_high c && match s' with d :: _ => is_low d | [] => false end
      then c :: quote_units true s'
      else if is_low c && paired then c :: quote_units false s'
      else escape_unit c ++ quote_units false s'
  end.

Definition QuoteJSONString (s : jsstring) : jsstring :=
  34 :: quote_units false s ++ [34].

(** [JSON.stringify(v)]; [None] is the result [undefined]. *)
Fixpoint stringify (v : JsValue) : option jsstring :=
  match v with
  | JUndefined => None
  | JNull => Some (str "null")
  | JBool true => Some (str "true")
  | JBool false => Some (str "false")
  | JNum z => Some (Z_to_string z)
  | JStr s => Some (QuoteJSONString s)
  | JArr elems =>
      Some (91 :: join [44]
                    (map (fun e => match stringify e with
                                   | Some s => s
                                   | None => str "null"
                                   end) elems)
               ++ [93])
  | JObj props =>
      Some (123 :: join [44]
                     (flat_map (fun kv => match stringify (snd kv) with
                                          | Some s =>
                                              [QuoteJSONString (fst kv) ++ 58 :: s]
                                          | None => []
                                          end) props)
                ++ [125])
  end.

(** *** Reading *)

Definition json_ws (c : N) : bool :=
  (c =? 32) || (c =? 9) || (c =? 10) || (c =? 13).

Definition skip_ws (s : jsstring) : jsstring := dropWhile json_ws s.

Definition prepend (c : N) (r : option (jsstring * jsstring))
  : option (jsstring * jsstring) :=
  match r with
  | Some (t, rest) => Some (c :: t, rest)
  | None => None
  end.

Definition hex4_value (a b c d : N) : option N :=
  match hex_value a, hex_value b, hex_value c, hex_value d with
  | Some x, Some y, Some z, Some w => Some (x * 4096 + y * 256 + z * 16 + w)
  | _, _, _, _ => None
  end.

(** The string that ends at the next unescaped quote, and what follows. *)
Fixpoint parse_string_body (s : jsstring) : option (jsstring * jsstring) :=
  match s with
  | [] => None
  | c :: s1 =>
      if c =? 34 then Some ([], s1)
      else if c =? 92 then
        match s1 with
        | [] => None
        | e :: s2 =>
            if e =? 34 then prepend 34 (parse_string_body s2)
            else if e =? 92 then prepend 92 (parse_string_body s2)
            else if e =? 47 then prepend 47 (parse_string_body s2)
            else if e =? 98 then prepend 8 (parse_string_body s2)
            else if e =? 102 then prepend 12 (parse_string_body s2)
            else if e =? 110 then prepend 10 (parse_string_body s2)
            else if e =? 114 then prepend 13 (parse_string_body s2)
            else if e =? 116 then prepend 9 (parse_string_body s2)
            else if e =? 117 then
              match s2 with
              | a :: b :: c' :: d :: s3 =>
                  match hex4_value a b c' d with
                  | Some x => prepend x (parse_string_body s3)
                  | None => None
                  end
              | _ => None
              end
            else None
        end
      else if c <? 32 then None
      else prepend c (parse_string_body s1)
  end.

Definition cons_digit (c : N) (u : Decimal.uint) : Decimal.uint :=
  match N.to_nat (c - 48) with
  | 0%nat => Decimal.D0 u
  | 1%nat => Decimal.D1 u
  | 2%nat => Decimal.D2 u
  | 3%nat => Decimal.D3 u
  | 4%nat => Decimal.D4 u
  | 5%nat => Decimal.D5 u
  | 6%nat => Decimal.D6 u
  | 7%nat => Decimal.D7 u
  | 8%nat => Decimal.D8 u
  | _ => Decimal.D9 u
  end.

(** The longest run of digits. *)
Fixpoint parse_uint (s : jsstring) : Decimal.uint * jsstring :=
  match s with
  | [] => (Decimal.Nil, [])
  | c :: s' =>
      if is_digit c then let (u, r) := parse_uint s' in (cons_digit c u, r)
      else (Decimal.Nil, s)
  end.

(** [0], or digits that do not start with [0]. *)
Definition well_formed_int (u : Decimal.uint) : bool :=
  match u with
  | Decimal.Nil => false
  | Decimal.D0 Decimal.Nil => true
  | Decimal.D0 _ => false
  | _ => true
  end.

(** What follows opens neither a fraction nor an exponent, and is no digit. *)
Definition delimited (rest : jsstring) : bool :=
  match rest with
  | [] => true
  | c :: _ => negb (is_digit c || (c =? 46) || (c =? 101) || (c =? 69))
  end.

Definition parse_number (s : jsstring) : option (Z * jsstring) :=
  let (negative, digits) :=
    match s with
    | c :: r => if c =? 45 then (true, r) else (false, s)
    | [] => (false, s)
    end in
  let (u, rest) := parse_uint digits in
  if well_formed_int u && delimited rest then
    Some (if negative then (- Z.of_N (N.of_uint u))%Z else Z.of_N (N.of_uint u),
          rest)
  else None.

(** A member [ "key" : value ] of an object. *)
Definition parse_member (value : jsstring -> option (JsValue * jsstring))
    (s : jsstring) : option ((jsstring * JsValue) * jsstring) :=
  match skip_ws s with
  | c :: r =>
      if c =? 34 then
        match parse_string_body r with
        | Some (k, r1) =>
            match skip_ws r1 with
            | d :: r2 =>
                if d =? 58 then
                  match value r2 with
                  | Some (v, r3) => Some ((k, v), r3)
                  | None => None
                  end
                else None
            | [] => None
            end
        | None => None
        end
      else None
  | [] => None
  end.

Definition keyword (word : jsstring) (v : JsValue) (s : jsstring)
  : option (JsValue * jsstring) :=
  match strip_prefix word s with
  | Some r => Some (v, r)
  | None => None
  end.

(** A value at the head of the text, and the rest of the text. *)
Fixpoint parse_value (fuel : nat) (s : jsstring) {struct fuel}
  : option (JsValue * jsstring) :=
  match fuel with
  | O => None
  | S f =>
      match skip_ws s with
      | [] => None
      | c :: r =>
          if c =? 110 then keyword (str "ull") JNull r
          else if c =? 116 then keyword (str "rue") (JBool true) r
          else if c =? 102 then keyword (str "alse") (JBool false) r
          else if c =? 34 then
            match parse_string_body r with
            | Some (t, r') => Some (JStr t, r')
            | None => None
            end
          else if c =? 91 then
            match skip_ws r with
            | [] => None
            | d :: r' =>
                if d =? 93 then Some (JArr [], r')
                else
                  match parse_value f r with
                  | Some (v, r1) => parse_elems f [v] r1
                  | None => None
                  end
            end
          else if c =? 123 then
            match skip_ws r with
            | [] => None
            | d :: r' =>
                if d =? 125 then Some (JObj [], r')
                else
                  match parse_member (parse_value f) r with
                  | Some ((k, v), r1) => parse_members f [(k, v)] r1
                  | None => None
                  end
            end
          else
            match parse_number (c :: r) with
            | Some (z, r') => Some (JNum z, r')
            | None => None
            end
      end
  end

with parse_elems (fuel : nat) (acc : list JsValue) (s : jsstring) {struct fuel}
  : option (JsValue * jsstring) :=
  match fuel with
  | O => None
  | S f =>
      match skip_ws s with
      | [] => None
      | c :: r =>
          if c =? 93 then Some (JArr acc, r)
          else if c =? 44 then
            match parse_value f r with
            | Some (v, r1) => parse_elems f (acc ++ [v]) r1
            | None => None
            end
          else None
      end
  end

with parse_members (fuel : nat) (acc : list (jsstring * JsValue)) (s : jsstring)
    {struct fuel} : option (JsValue * jsstring) :=
  match fuel with
  | O => None
  | S f =>
      match skip_ws s with
      | [] => None
      | c :: r =>
          if c =? 125 then Some (JObj acc, r)
          else if c =? 44 then
            match parse_member (parse_value f) r with
            | Some ((k, v), r1) => parse_members f (obj_set acc k v) r1
            | None => None
            end
          else None
      end
  end.

(** [JSON.parse(text)]; [None] when it throws a SyntaxError. *)
Definition JSON_parse (text : jsstring) : option JsValue :=
  match parse_value (S (length text)) text with
  | Some (v, rest) =>
      match skip_ws rest with
      | [] => Some v
      | _ :: _ => None
      end
  | None => None
  end.

(** ** Stream events and their wire format (agent/hackathon-scout/index.ts) *)

(** [toolCallId] is optional and a string when present; an absent
    [input] or [output] is the value [JUndefined]. *)
Inductive StreamEvent : Type :=
  | tool_call (tool message : jsstring) (toolCallId : option jsstring)
      (input : JsValue)
  | tool_result (tool message : jsstring) (toolCallId : option jsstring)
      (input output : JsValue)
  | llm_start (model message : jsstring)
  | token (content : jsstring)
  | complete (message : jsstring)
  | error (message : jsstring).

Definition optional_string (o : option jsstring) : JsValue :=
  match o with Some s => JStr s | None => JUndefined end.

(** The properties of the object literal given to [formatEvent]. *)
Definition event_props (e : StreamEvent) : list (jsstring * JsValue) :=
  match e with
  | tool_call tool message toolCallId input =>
      [(str "type", JStr (str "tool_call")); (str "tool", JStr tool);
       (str "toolCallId", optional_string toolCallId); (str "input", input);
       (str "message", JStr message)]
  | tool_result tool message toolCallId input output =>
      [(str "type", JStr (str "tool_result")); (str "tool", JStr tool);
       (str "toolCallId", optional_string toolCallId); (str "input", input);
       (str "output", output); (str "message", JStr message)]
  | llm_start model message =>
      [(str "type", JStr (str "llm_start")); (str "model", JStr model);
       (str "message", JStr message)]
  | token content =>
      [(str "type", JStr (str "token")); (str "content", JStr content)]
  | complete message =>
      [(str "type", JStr (str "complete")); (str "message", JStr message)]
  | error message =>
      [(str "type", JStr (str "error")); (str "message", JStr message)]
  end.

Definition event_object (e : StreamEvent) : JsValue := JObj (event_props e).

(** [JSON.stringify(event) + '\n'].  [formatEvent] sends the UTF-8 bytes of
    this line; the model keeps the line. *)
Definition encodeEvent (event : StreamEvent) : jsstring :=
  match stringify (event_object event) with
  | Some s => s ++ [10]
  | None => str "undefined" ++ [10]
  end.

Definition as_string (v : JsValue) : option jsstring :=
  match v with JStr s => Some s | _ => None end.

Definition as_optional_string (v : JsValue) : option (option jsstring) :=
  match v with
  | JUndefined => Some None
  | JStr s => Some (Some s)
  | _ => None
  end.

(** A parsed record read at the type [StreamEvent]. *)
Definition event_of_value (v : JsValue) : option StreamEvent :=
  match v with
  | JObj props =>
      match field props "type" with
      | JStr t =>
          if t =s str "tool_call" then
            match as_string (field props "tool"), as_string (field props "message"),
                  as_optional_string (field props "toolCallId") with
            | Some tool, Some message, Some toolCallId =>
                Some (tool_call tool message toolCallId (field props "input"))
            | _, _, _ => None
            end
          else if t =s str "tool_result" then
            match as_string (field props "tool"), as_string (field props "message"),
                  as_optional_string (field props "toolCallId") with
            | Some tool, Some message, Some toolCallId =>
                Some (tool_result tool message toolCallId (field props "input")
                        (field props "output"))
            | _, _, _ => None
            end
          else if t =s str "llm_start" then
            match as_string (field props "model"), as_string (field props "message") with
            | Some model, Some message => Some (llm_start model message)
            | _, _ => None
            end
          else if t =s str "token" then
            option_map token (as_string (field props "content"))
          else if t =s str "complete" then
            option_map complete (as_string (field props "message"))
          else if t =s str "error" then
            option_map error (as_string (field props "message"))
          else None
      | _ => None
      end
  | _ => None
  end.

(** The client's reading of a line: [JSON.parse], then the type. *)
Definition decodeEvent (line : jsstring) : option StreamEvent :=
  match JSON_parse line with
  | Some v => event_of_value v
  | None => None
  end.

(** ** The summary of a literature search result *)

Definition BULLET_SEP : jsstring := [32; 0x2022; 32].   (* ' • ' *)
Definition ARXIV_SEARCH : jsstring := Eval cbv in str "arxiv_search".

Definition paperCount (output : jsstring) : nat :=
  length (match_all re_entry 0 output).

Definition titleMatches (output : jsstring) : list jsstring :=
  match_all re_title 0 output.

(** [titleMatches.slice(1, 4).map(t => t.replace(/<\/?title>/g, '')
      .trim().replace(/\s+/g, ' '))] *)
Definition clean_title (t : jsstring) : jsstring :=
  replace_all re_ws_run [32] 0 (trim (replace_all re_title_tag [] 0 t)).

Definition paperTitles (output : jsstring) : list jsstring :=
  map clean_title (firstn 3 (skipn 1 (titleMatches output))).

Definition result_message (toolName : jsstring) (output : JsValue) : jsstring :=
  match output with
  | JStr out =>
      if toolName =s ARXIV_SEARCH then
        match paperTitles out with
        | [] => str "Found " ++ nat_to_string (paperCount out) ++ str " papers"
        | titles =>
            str "Found " ++ nat_to_string (paperCount out)
              ++ str " papers. Top: " ++ join BULLET_SEP titles
        end
      else toolName ++ str " complete"
  | _ => toolName ++ str " complete"
  end.

(** ** The stream transformer *)

Definition MODEL_NAME : jsstring := Eval cbv in str "gpt-5".

(** A chunk of [result.fullStream]: its discriminant and the fields the
    transformer reads, [JUndefined] standing for a field that is absent. *)
Module Chunk.
Record t : Type := mk {
  type : jsstring;
  toolName : JsValue;
  toolCallId : JsValue;
  input : JsValue;
  output : JsValue;
  text : JsValue;
  error : JsValue
}.
End Chunk.

Definition string_or_undefined (v : JsValue) : option jsstring :=
  match v with
  | JStr s => Some s
  | _ => None
  end.

Definition is_start (ty : jsstring) : bool :=
  (ty =s str "start") || (ty =s str "start-step") || (ty =s str "text-start").

Definition is_failure (ty : jsstring) : bool :=
  (ty =s str "tool-error") || (ty =s str "error").

(** One call of [transform(chunk, controller)] that returns: the new
    value of [llmStarted] and the events given to [controller.enqueue],
    in order.  [transform_call] below tells when a call throws. *)
Definition transform (llmStarted : bool) (chunk : Chunk.t)
  : bool * list StreamEvent :=
  let ty := Chunk.type chunk in
  if is_start ty then
    if llmStarted then (llmStarted, [])
    else (true, [llm_start MODEL_NAME
                   (str "Analyzing with " ++ MODEL_NAME ++ str "...")])
  else if ty =s str "tool-call" then
    let toolName := js_String (nullish (Chunk.toolName chunk) (JStr (str "tool"))) in
    (llmStarted,
     [tool_call toolName (str "Calling " ++ toolName ++ str "...")
        (string_or_undefined (Chunk.toolCallId chunk)) (Chunk.input chunk)])
  else if ty =s str "tool-result" then
    let toolName := js_String (nullish (Chunk.toolName chunk) (JStr (str "tool"))) in
    (llmStarted,
     [tool_result toolName (result_message toolName (Chunk.output chunk))
        (string_or_undefined (Chunk.toolCallId chunk))
        (Chunk.input chunk) (Chunk.output chunk)])
  else if ty =s str "text-delta" then
    (llmStarted,
     [token (match Chunk.text chunk with JStr s => s | _ => [] end)])
  else if ty =s str "finish" then
    (llmStarted, [complete (str "Analysis complete")])
  else if is_failure ty then
    (llmStarted,
     [error (if ty =s str "tool-error"
             then str "Tool error: " ++ js_String (Chunk.error chunk)
             else str "Error: " ++ js_String (Chunk.error chunk))])
  else (llmStarted, []).

(** [result.fullStream.pipeThrough(transform)]: the chunks are transformed
    in arrival order and the enqueued events are concatenated. *)
Fixpoint pipeThrough (llmStarted : bool) (chunks : list Chunk.t)
  : bool * list StreamEvent :=
  match chunks with
  | [] => (llmStarted, [])
  | c :: cs =>
      let (st, out) := transform llmStarted c in
      let (st', outs) := pipeThrough st cs in
      (st', out ++ outs)
  end.

(** The handler of one request: [let llmStarted = false]. *)
Definition handler_stream (chunks : list Chunk.t) : list StreamEvent :=
  snd (pipeThrough false chunks).

(** ** The calls of the transformer, with their effects

    [transform] and [pipeThrough] give the events of the calls that
    return.  A call has two effects that they leave out: [String] throws
    on some values, and the [llmStarted] that a call reads and assigns
    is a binding of the call of the handler that made the transformer.
    The fields of a chunk are values of the model, which
    [JSON.stringify] always writes; a BigInt or a cyclic payload, on
    which it throws, is outside. *)

(** How a call ends: it returns, or it throws. *)
Inductive completion (A : Type) : Type :=
  | Returns (a : A)
  | Throws.
Arguments Returns {A} a.
Arguments Throws {A}.

(** [String(v)] throws a TypeError when [v] has no primitive value: a
    plain object with an own property [toString] (no value of the model
    is callable, and the inherited [valueOf] returns the object), or an
    array with such an element, which [join] converts in turn. *)
Fixpoint String_throws (v : JsValue) : bool :=
  match v with
  | JObj props => existsb (fun kv => fst kv =s str "toString") props
  | JArr elems => existsb String_throws elems
  | _ => false
  end.

(** [String(v)]; [js_String] is its result when it returns. *)
Definition String_call (v : JsValue) : completion jsstring :=
  if String_throws v then Throws else Returns (js_String v).

(** The bindings [llmStarted] of the calls of the handler made so far:
    every call declares its own, [let llmStarted = false]. *)
Definition Store := list bool.

Definition lookup (env : nat) (s : Store) : bool := nth env s false.

Fixpoint assign (env : nat) (b : bool) (s : Store) : Store :=
  match s, env with
  | [], _ => []
  | _ :: s', O => b :: s'
  | x :: s', S env' => x :: assign env' b s'
  end.

(** A computation that reads and assigns bindings and returns or throws;
    what it has assigned before it throws stays assigned. *)
Definition effect (A : Type) : Type := Store -> completion A * Store.

Definition done {A : Type} (a : A) : effect A := fun s => (Returns a, s).

Definition bind {A B : Type} (m : effect A) (k : A -> effect B) : effect B :=
  fun s =>
    match m s with
    | (Returns a, s') => k a s'
    | (Throws, s') => (Throws, s')
    end.

Notation "x <- m ;; k" := (bind m (fun x => k))
  (at level 61, m at next level, right associativity).

Definition read (env : nat) : effect bool := fun s => (Returns (lookup env s), s).

Definition write (env : nat) (b : bool) : effect unit :=
  fun s => (Returns tt, assign env b s).

Definition call {A : Type} (c : completion A) : effect A := fun s => (c, s).

(** One call of [transform(chunk, controller)] of the transformer whose
    [llmStarted] is the binding [env]: the events given to
    [controller.enqueue], unless the call throws. *)
Definition transform_call (env : nat) (chunk : Chunk.t)
  : effect (list StreamEvent) :=
  let ty := Chunk.type chunk in
  if is_start ty then
    llmStarted <- read env ;;
    if llmStarted then done []
    else
      _ <- write env true ;;
      done [llm_start MODEL_NAME
              (str "Analyzing with " ++ MODEL_NAME ++ str "...")]
  else if ty =s str "tool-call" then
    toolName <- call (String_call
                        (nullish (Chunk.toolName chunk) (JStr (str "tool")))) ;;
    done [tool_call toolName (str "Calling " ++ toolName ++ str "...")
            (string_or_undefined (Chunk.toolCallId chunk)) (Chunk.input chunk)]
  else if ty =s str "tool-result" then
    toolName <- call (String_call
                        (nullish (Chunk.toolName chunk) (JStr (str "tool")))) ;;
    done [tool_result toolName (result_message toolName (Chunk.output chunk))
            (string_or_undefined (Chunk.toolCallId chunk))
            (Chunk.input chunk) (Chunk.output chunk)]
  else if ty =s str "text-delta" then
    done [token (match Chunk.text chunk with JStr s => s | _ => [] end)]
  else if ty =s str "finish" then
    done [complete (str "Analysis complete")]
  else if is_failure ty then
    text <- call (String_call (Chunk.error chunk)) ;;
    done [error (if ty =s str "tool-error"
                 then str "Tool error: " ++ text
                 else str "Error: " ++ text)]
  else done [].

(** ** Several requests at a time

    The runtime calls the handler once for a request; the call declares
    its [llmStarted] and returns the stream of the model piped through a
    new transformer.  The chunks of the requests reach their
    transformers in any interleaving.  A call of [transform] that throws
    errors the stream of its request, which sends nothing from then
    on. *)
Inductive arrival : Type :=
  | Invoke (r : nat)
  | Upstream (r : nat) (chunk : Chunk.t).

(** The transformer of a request: the binding of its [llmStarted], until
    it is errored. *)
Inductive transformer : Type :=
  | Open (env : nat)
  | Errored.

Record Server : Type := mkServer {
  store : Store;
  streams : nat -> option transformer
}.

Definition idle : Server := mkServer [] (fun _ => None).

Definition set_stream (streams : nat -> option transformer) (r : nat)
    (t : transformer) : nat -> option transformer :=
  fun r' => if Nat.eqb r' r then Some t else streams r'.

(** The call of the handler for request [r]. *)
Definition handler_call (r : nat) (sv : Server) : Server :=
  mkServer (store sv ++ [false])
    (set_stream (streams sv) r (Open (length (store sv)))).

(** The events sent, each with the request it is sent to. *)
Fixpoint serve (sv : Server) (schedule : list arrival)
  : list (nat * StreamEvent) :=
  match schedule with
  | [] => []
  | Invoke r :: rest => serve (handler_call r sv) rest
  | Upstream r chunk :: rest =>
      match streams sv r with
      | Some (Open env) =>
          match transform_call env chunk (store sv) with
          | (Returns out, s) =>
              map (pair r) out ++ serve (mkServer s (streams sv)) rest
          | (Throws, s) =>
              serve (mkServer s (set_stream (streams sv) r Errored)) rest
          end
      | _ => serve sv rest
      end
  end.

(** ** The literature fetcher (agent/hackathon-scout/utils.ts) *)

(** How a promise settles. *)
Inductive outcome (A : Type) : Type :=
  | Resolved (a : A)
  | Rejected.
Arguments Resolved {A} a.
Arguments Rejected {A}.

(** What [fetchArxiv] reads of a [Response]: [ok] is true for the
    statuses 200 to 299, and [text()] settles with the body. *)
Module Response.
Record t : Type := mk {
  status : N;
  text : outcome jsstring
}.
Definition ok (r : t) : bool := (200 <=? status r) && (status r <=? 299).
End Response.

Definition arxiv_url (encoded_query : jsstring) (maxResults : Z) : jsstring :=
  str "http://export.arxiv.org/api/query?search_query=all:" ++ encoded_query
    ++ str "&max_results=" ++ Z_to_string maxResults ++ str "&sortBy=relevance".

Definition status_placeholder (status : N) : jsstring :=
  str "Error: ArXiv API returned status " ++ N_to_string status.

Section Fetcher.

(** The platform: [encodeURIComponent], which throws on a lone surrogate,
    and [fetch], which rejects when the request cannot be made. *)
Variable encodeURIComponent : jsstring -> outcome jsstring.
Variable fetch : jsstring -> outcome Response.t.

(** [maxResults] is [None] when the argument is left out. *)
Definition fetchArxiv (query : jsstring) (maxResults : option Z)
  : outcome jsstring :=
  let maxResults := match maxResults with Some n => n | None => 5%Z end in
  match encodeURIComponent query with
  | Rejected => Rejected
  | Resolved q =>
      match fetch (arxiv_url q maxResults) with
      | Rejected => Rejected
      | Resolved response =>
          if negb (Response.ok response)
          then Resolved (status_placeholder (Response.status response))
          else Response.text response
      end
  end.

End Fetcher.

(** ** The client reducer (web/App.tsx) *)

Module Status.
Inductive t : Type := idle | loading | complete | error.
End Status.

(** An entry of the activity log.  [id] and [timestamp] come from the
    clock; both readings of one call are taken to be the same instant. *)
Module ActivityItem.
Record t : Type := mk {
  id : jsstring;
  type : jsstring;
  message : JsValue;
  timestamp : Z
}.
End ActivityItem.

(** The display state: the three pieces of React state the reducer sets. *)
Record DisplayState : Type := mkDisplay {
  status : Status.t;
  activity : list ActivityItem.t;
  response : jsstring
}.

(** [v.k]: a TypeError on [undefined] and [null]; a primitive or an array
    has none of the properties the reducer reads. *)
Definition get_property (v : JsValue) (k : string) : completion JsValue :=
  match v with
  | JUndefined | JNull => Throws
  | JObj props => Returns (field props k)
  | _ => Returns JUndefined
  end.

Definition log_activity (now : Z) (st : DisplayState) (ty : jsstring)
    (message : JsValue) : DisplayState :=
  mkDisplay (status st)
    (activity st ++ [ActivityItem.mk (ty ++ [45] ++ Z_to_string now) ty message now])
    (response st).

(** [handleChunk(chunk)] at the instant [now], as a change of the display
    state.  A string is parsed first and dropped when it does not parse. *)
Definition handleChunk (now : Z) (st : DisplayState) (chunk : JsValue)
  : completion DisplayState :=
  match (match chunk with JStr s => JSON_parse s | _ => Some chunk end) with
  | None => Returns st
  | Some event =>
      match get_property event "type" with
      | Throws => Throws
      | Returns (JStr ty) =>
          if (ty =s str "tool_call") || (ty =s str "tool_result")
             || (ty =s str "llm_start") then
            match get_property event "message" with
            | Returns m => Returns (log_activity now st ty m)
            | Throws => Throws
            end
          else if ty =s str "token" then
            match get_property event "content" with
            | Returns content =>
                Returns (mkDisplay (status st) (activity st)
                           (response st ++ js_String content))
            | Throws => Throws
            end
          else if ty =s str "complete" then
            match get_property event "message" with
            | Returns m =>
                let st' := log_activity now st (str "complete") m in
                Returns (mkDisplay Status.complete (activity st') (response st'))
            | Throws => Throws
            end
          else if ty =s str "error" then
            match get_property event "message" with
            | Returns m =>
                let st' := log_activity now st (str "error") m in
                Returns (mkDisplay Status.error (activity st') (response st'))
            | Throws => Throws
            end
          else Returns st
      | Returns _ => Returns st
      end
  end.

(** The chunks of a stream, each with the instant of its delivery. *)
Fixpoint consume (st : DisplayState) (deliveries : list (Z * JsValue))
  : completion DisplayState :=
  match deliveries with
  | [] => Returns st
  | (now, chunk) :: rest =>
      match handleChunk now st chunk with
      | Returns st' => consume st' rest
      | Throws => Throws
      end
  end.

(** The state [handleSearch] sets before the request. *)
Definition search_started : DisplayState := mkDisplay Status.loading [] [].

(** The earlier frontend ([SearchStream]): the text accumulated in
    [textRef] on a [token] message, [data.content || '']. *)
Definition SearchStream_text (text : jsstring) (data : JsValue) : jsstring :=
  match data with
  | JObj props =>
      match field props "type" with
      | JStr ty =>
          if ty =s str "token" then
            text ++ (if truthy (field props "content")
                     then js_String (field props "content") else [])
          else text
      | _ => text
      end
  | _ => text
  end.

(** * The statements

    What the properties below are stated with. *)

(** ** Observations on event sequences *)

Definition is_llm_start (e : StreamEvent) : bool :=
  match e with llm_start _ _ => true | _ => false end.

Definition is_token (e : StreamEvent) : bool :=
  match e with token _ => true | _ => false end.

Definition is_error (e : StreamEvent) : bool :=
  match e with error _ => true | _ => false end.

(** [complete] and [error] are the terminal events. *)
Definition is_terminal (e : StreamEvent) : bool :=
  match e with complete _ | error _ => true | _ => false end.

Definition event_message (e : StreamEvent) : option jsstring :=
  match e with
  | tool_call _ m _ _ | tool_result _ m _ _ _ | llm_start _ m
  | complete m | error m => Some m
  | token _ => None
  end.

(** Every [llm_start] of the sequence has only non-token events before it. *)
Definition llm_start_precedes_tokens (out : list StreamEvent) : Prop :=
  forall l1 e l2, out = l1 ++ e :: l2 -> is_llm_start e = true ->
    forall t, In t l1 -> is_token t = false.

(** The sequence ends with a terminal event, and holds no other one. *)
Definition terminates_once (out : list StreamEvent) : Prop :=
  exists pre e, out = pre ++ [e] /\ is_terminal e = true
                /\ forallb (fun x => negb (is_terminal x)) pre = true.

(** The chunk types the [switch] of [transform] has a case for. *)
Definition handled_types : list jsstring :=
  [str "start"; str "start-step"; str "text-start"; str "tool-call";
   str "tool-result"; str "text-delta"; str "finish"; str "tool-error";
   str "error"].

Definition is_text_delta (c : Chunk.t) : bool := Chunk.type c =s str "text-delta".

(** The chunk ends the generation: [finish], [tool-error] or [error]. *)
Definition is_final_chunk (c : Chunk.t) : bool :=
  (Chunk.type c =s str "finish") || is_failure (Chunk.type c).

(** No [text-delta] chunk arrives before the first of the start signals
    ([start], [start-step], [text-start]); [seen] tells whether one has
    arrived already. *)
Fixpoint starts_before_text (seen : bool) (chunks : list Chunk.t) : bool :=
  match chunks with
  | [] => true
  | c :: cs =>
      if is_start (Chunk.type c) then starts_before_text true cs
      else if is_text_delta c then seen && starts_before_text seen cs
      else starts_before_text seen cs
  end.


(** The chunks on which a call of [transform] throws. *)
Definition raises (chunk : Chunk.t) : bool :=
  let ty := Chunk.type chunk in
  (((ty =s str "tool-call") || (ty =s str "tool-result"))
   && String_throws (nullish (Chunk.toolName chunk) (JStr (str "tool"))))
  || (is_failure ty && String_throws (Chunk.error chunk)).

(** What concerns one request in a schedule, in order: the calls of the
    handler for it ([None]) and the chunks of its stream. *)
Definition own (r : nat) (schedule : list arrival) : list (option Chunk.t) :=
  flat_map (fun a => match a with
                     | Invoke r' => if Nat.eqb r' r then [None] else []
                     | Upstream r' chunk =>
                         if Nat.eqb r' r then [Some chunk] else []
                     end) schedule.

(** What one request is sent. *)
Definition events_of (r : nat) (sent : list (nat * StreamEvent)) : list StreamEvent :=
  map snd (filter (fun p => Nat.eqb (fst p) r) sent).

(** What a request can tell of the server: whether its handler has been
    called, whether its stream is errored, and its own [llmStarted]. *)
Definition view (r : nat) (sv : Server) : option (option bool) :=
  match streams sv r with
  | None => None
  | Some Errored => Some None
  | Some (Open env) => Some (Some (lookup env (store sv)))
  end.

(** A request served alone, from what it can tell of the server. *)
Fixpoint alone (v : option (option bool)) (inputs : list (option Chunk.t))
  : list StreamEvent :=
  match inputs with
  | [] => []
  | None :: rest => alone (Some (Some false)) rest
  | Some chunk :: rest =>
      match v with
      | Some (Some llmStarted) =>
          match transform_call 0 chunk [llmStarted] with
          | (Returns out, s) => out ++ alone (Some (Some (lookup 0 s))) rest
          | (Throws, _) => alone (Some None) rest
          end
      | _ => alone v rest
      end
  end.

(** The bindings of the open transformers exist, and no two requests
    share one. *)
Definition separate (sv : Server) : Prop :=
  (forall r env, streams sv r = Some (Open env) ->
     (env < length (store sv))%nat)
  /\ (forall r r' env, streams sv r = Some (Open env) ->
        streams sv r' = Some (Open env) -> r = r').

(** ** The summary, position by position

    What the scans of the source find, said without a scan: the count is
    the number of positions at which the entry delimiter occurs, and a
    title is found at a position where [<title>], a text that is not
    empty and holds no ['<'], and [</title>] follow one another. *)

(** The number of positions of [s] at which [p] occurs. *)
Fixpoint occurrences (p s : jsstring) : nat :=
  match s with
  | [] => 0%nat
  | _ :: s' =>
      match strip_prefix p s with
      | Some _ => S (occurrences p s')
      | None => occurrences p s'
      end
  end.

(** The text between [<title>] and [</title>] when a title element starts
    at the head of [s]: a non-empty text without ['<']. *)
Definition title_at (s : jsstring) : option jsstring :=
  match strip_prefix TITLE_OPEN s with
  | None => None
  | Some r =>
      match fst (span not_lt r), strip_prefix TITLE_CLOSE (snd (span not_lt r)) with
      | _ :: _, Some _ => Some (fst (span not_lt r))
      | _, _ => None
      end
  end.

(** The title-delimited substrings of [s], in order of position. *)
Fixpoint delimited_titles (s : jsstring) : list jsstring :=
  match s with
  | [] => []
  | _ :: s' =>
      match title_at s with
      | Some body => body :: delimited_titles s'
      | None => delimited_titles s'
      end
  end.

(** Every run of whitespace becomes one space; [in_run] tells whether the
    previous code unit was whitespace. *)
Fixpoint collapse_runs (in_run : bool) (s : jsstring) : jsstring :=
  match s with
  | [] => []
  | c :: s' =>
      if is_ws c then
        if in_run then collapse_runs true s' else 32 :: collapse_runs true s'
      else c :: collapse_runs false s'
  end.

Definition summary_of_matches (S : jsstring) : jsstring :=
  let M := occurrences ENTRY_TAG S in
  let T := map (fun t => collapse_runs false (trim t))
             (firstn 3 (skipn 1 (delimited_titles S))) in
  match T with
  | [] => str "Found " ++ nat_to_string M ++ str " papers"
  | _ :: _ =>
      str "Found " ++ nat_to_string M ++ str " papers. Top: "
        ++ join BULLET_SEP T
  end.

(** ** The summary, as the design document words it

    The count is the number of occurrences of the entry delimiter.  The
    titles are the substrings delimited by [<title>] and [</title>]: at
    every position where [<title>] occurs, the text up to the next
    [</title>], whatever it is.  The first is dropped, at most the next
    three are kept, each trimmed and its runs of whitespace collapsed
    to one space, and they are joined by a bullet between two spaces.
    None of this is written with the operations of the source. *)

(** The text before the first [</title>] of [s], if there is one. *)
Fixpoint before_close (s : jsstring) : option jsstring :=
  match s with
  | [] => None
  | c :: s' =>
      match strip_prefix TITLE_CLOSE s with
      | Some _ => Some []
      | None =>
          match before_close s' with
          | Some body => Some (c :: body)
          | None => None
          end
      end
  end.

Fixpoint title_substrings (s : jsstring) : list jsstring :=
  match s with
  | [] => []
  | _ :: s' =>
      match strip_prefix TITLE_OPEN s with
      | Some r =>
          match before_close r with
          | Some body => body :: title_substrings s'
          | None => title_substrings s'
          end
      | None => title_substrings s'
      end
  end.

(** Trimming: the whitespace at the start goes, then the whitespace at
    the end. *)
Fixpoint strip_start (s : jsstring) : jsstring :=
  match s with
  | [] => []
  | c :: s' => if is_ws c then strip_start s' else s
  end.

Fixpoint strip_end (s : jsstring) : jsstring :=
  match s with
  | [] => []
  | c :: s' =>
      match strip_end s' with
      | [] => if is_ws c then [] else [c]
      | kept => c :: kept
      end
  end.

Definition trimmed_and_collapsed (t : jsstring) : jsstring :=
  collapse_runs false (strip_end (strip_start t)).

(** The message for a count and a list of titles. *)
Definition summary_text (M : nat) (titles : list jsstring) : jsstring :=
  let T := map trimmed_and_collapsed (firstn 3 (skipn 1 titles)) in
  match T with
  | [] => str "Found " ++ nat_to_string M ++ str " papers"
  | _ :: _ =>
      str "Found " ++ nat_to_string M ++ str " papers. Top: "
        ++ join [32; 0x2022; 32] T
  end.

Definition claimed_summary (S : jsstring) : jsstring :=
  summary_text (occurrences ENTRY_TAG S) (title_substrings S).

(** A title that is not empty and holds no ['<']. *)
Definition plain_title (t : jsstring) : bool :=
  match t with
  | [] => false
  | _ :: _ => forallb not_lt t
  end.

(** ** The events that JSON represents *)

Fixpoint distinct (keys : list jsstring) : bool :=
  match keys with
  | [] => true
  | k :: ks => negb (existsb (eqb_str k) ks) && distinct ks
  end.

(** The values that JSON represents as they are: nothing [undefined]
    inside, no key twice in an object, integers that a double holds
    exactly. *)
Fixpoint json_safe (v : JsValue) : bool :=
  match v with
  | JUndefined => false
  | JNum z => (Z.abs z <=? 2 ^ 53)%Z
  | JArr elems => forallb json_safe elems
  | JObj props =>
      forallb (fun kv => json_safe (snd kv)) props && distinct (map fst props)
  | _ => true
  end.

Definition payload_ok (v : JsValue) : bool := is_undefined v || json_safe v.

(** The events whose payloads JSON represents as they are. *)
Definition representable (e : StreamEvent) : bool :=
  match e with
  | tool_call _ _ _ input => payload_ok input
  | tool_result _ _ _ input output => payload_ok input && payload_ok output
  | _ => true
  end.

(** The record as the client holds it: the properties that are present. *)
Definition wire_object (e : StreamEvent) : JsValue :=
  JObj (filter (fun kv => negb (is_undefined (snd kv))) (event_props e)).

(** ** The delivery of events to the reducer *)

(** The hook hands an event to [handleChunk] as the parsed record, or as
    its line, with or without the delimiter. *)
Definition delivers (e : StreamEvent) (chunk : JsValue) : Prop :=
  chunk = event_object e \/ chunk = JStr (encodeEvent e)
  \/ (exists line, encodeEvent e = line ++ [10] /\ chunk = JStr line).

(** The texts of the [token] events, in order. *)
Fixpoint token_text (events : list StreamEvent) : jsstring :=
  match events with
  | [] => []
  | token content :: rest => content ++ token_text rest
  | _ :: rest => token_text rest
  end.

(** * Notions of the proofs *)

(** The matches of a pattern at every position of the subject, whether or
    not they overlap. *)
Fixpoint matches_everywhere (re : matcher) (s : jsstring) : list jsstring :=
  match s with
  | [] => []
  | _ :: s' =>
      match re s with
      | Some (S len) => firstn (S len) s :: matches_everywhere re s'
      | _ => matches_everywhere re s'
      end
  end.

(** No match of the pattern starts inside another one. *)
Definition no_overlap (re : matcher) : Prop :=
  forall s len, re s = Some len ->
    forall k, (0 < k < len)%nat -> re (skipn k s) = None.

Definition starts_with_digit (s : jsstring) : bool :=
  match s with c :: _ => is_digit c | [] => false end.

(** The code units a JSON value can start with. *)
Definition value_start (c : N) : bool :=
  (c =? 110) || (c =? 116) || (c =? 102) || (c =? 34) || (c =? 91)
  || (c =? 123) || (c =? 45) || is_digit c.

(** A reader that leaves no more than it was given. *)
Definition shrinking (value : jsstring -> option (JsValue * jsstring)) : Prop :=
  forall s v r, value s = Some (v, r) -> (length r <= length s)%nat.

(** [JSON.parse(JSON.stringify(v))] for a value other than [undefined]: an
    [undefined] element of an array becomes [null], a property whose value
    is [undefined] is left out, and of two properties with one key the
    second value takes the place of the first. *)
Fixpoint json_image (v : JsValue) : JsValue :=
  match v with
  | JArr elems =>
      JArr (map (fun e => match e with
                          | JUndefined => JNull
                          | _ => json_image e
                          end) elems)
  | JObj props =>
      JObj (fold_left (fun acc kv => match snd kv with
                                     | JUndefined => acc
                                     | _ => obj_set acc (fst kv) (json_image (snd kv))
                                     end) props [])
  | _ => v
  end.

(** The text of an element of an array. *)
Definition elem_text (e : JsValue) : jsstring :=
  match stringify e with Some s => s | None => str "null" end.

Definition elem_image (e : JsValue) : JsValue :=
  match e with JUndefined => JNull | _ => json_image e end.

(** The text of an array after its first element. *)
Fixpoint arr_tail (elems : list JsValue) : jsstring :=
  match elems with
  | [] => [93]
  | e :: es => 44 :: elem_text e ++ arr_tail es
  end.

(** The text of an object after its brace; [first] tells that no member
    has been written yet. *)
Fixpoint obj_body (first : bool) (props : list (jsstring * JsValue)) : jsstring :=
  match props with
  | [] => [125]
  | (k, v) :: ps =>
      match stringify v with
      | Some s =>
          (if first then [] else [44]) ++ QuoteJSONString k ++ 58 :: s
            ++ obj_body false ps
      | None => obj_body first ps
      end
  end.

Definition image_step (acc : list (jsstring * JsValue)) (kv : jsstring * JsValue)
  : list (jsstring * JsValue) :=
  match snd kv with
  | JUndefined => acc
  | _ => obj_set acc (fst kv) (json_image (snd kv))
  end.

(** The texts of the members of an object that are written. *)
Definition member_texts (props : list (jsstring * JsValue)) : list jsstring :=
  flat_map (fun kv => match stringify (snd kv) with
                      | Some s => [QuoteJSONString (fst kv) ++ 58 :: s]
                      | None => []
                      end) props.

(** What reading with a given fuel achieves on written values. *)
Definition reads_values (f : nat) : Prop :=
  forall v s rest, stringify v = Some s -> (length s < f)%nat ->
    delimited rest = true ->
    parse_value f (s ++ rest) = Some (json_image v, rest).

Definition reads_elems (f : nat) : Prop :=
  forall es acc rest, (length (arr_tail es) <= f)%nat ->
    parse_elems f acc (arr_tail es ++ rest)
    = Some (JArr (acc ++ map elem_image es), rest).

Definition reads_members (f : nat) : Prop :=
  forall ps acc rest, (length (obj_body false ps) <= f)%nat ->
    parse_members f acc (obj_body false ps ++ rest)
    = Some (JObj (fold_left image_step ps acc), rest).

(** [k in obj] *)
Definition has_key (k : jsstring) (props : list (jsstring * JsValue)) : bool :=
  existsb (eqb_str k) (map fst props).

(** The properties that are written, and what their values become. *)
Definition defined_prop (kv : jsstring * JsValue) : bool :=
  negb (is_undefined (snd kv)).

Definition image_prop (kv : jsstring * JsValue) : jsstring * JsValue :=
  (fst kv, json_image (snd kv)).

(** * Samples *)

Definition chunk_of_type (ty : string) : Chunk.t :=
  Chunk.mk (str ty) JUndefined JUndefined JUndefined JUndefined JUndefined
    JUndefined.

Definition text_delta (s : string) : Chunk.t :=
  Chunk.mk (str "text-delta") JUndefined JUndefined JUndefined JUndefined
    (JStr (str s)) JUndefined.

Definition sample_input : JsValue :=
  JObj [(str "query", JStr (str "diffusion models")); (str "maxResults", JNum 2)].

Definition tool_call_chunk (name : jsstring) : Chunk.t :=
  Chunk.mk (str "tool-call") (JStr name) (JStr (str "call_1")) sample_input
    JUndefined JUndefined JUndefined.

Definition tool_result_chunk (name : jsstring) (out : JsValue) : Chunk.t :=
  Chunk.mk (str "tool-result") (JStr name) (JStr (str "call_1")) sample_input
    out JUndefined JUndefined.

(** A feed of two entries, as the literature API answers. *)
Definition sample_feed : jsstring :=
  str "<feed><title>ArXiv Query: all:diffusion</title><entry><title>Denoising
  Diffusion  Models</title></entry><entry><title> Score Matching </title></entry></feed>".

(** A feed whose second title is empty. *)
Definition feed_with_empty_title : jsstring :=
  str "<title>F</title><title></title><title>A</title><title>B</title>".

(** An [error] chunk whose error is the object [{toString: 1}]. *)
Definition unprintable_error : Chunk.t :=
  Chunk.mk (str "error") JUndefined JUndefined JUndefined JUndefined JUndefined
    (JObj [(str "toString", JNum 1)]).

(** The chunks of a run that calls the search tool once and then answers. *)
Definition sample_run : list Chunk.t :=
  [chunk_of_type "start"; chunk_of_type "start-step";
   tool_call_chunk ARXIV_SEARCH;
   tool_result_chunk ARXIV_SEARCH (JStr sample_feed);
   chunk_of_type "finish-step"; chunk_of_type "start-step";
   chunk_of_type "text-start"; text_delta "Two papers ";
   text_delta "on diffusion."; chunk_of_type "text-end";
   chunk_of_type "finish-step"; chunk_of_type "finish"].

(** * More of the program, and what its properties are stated with *)

(** ** What the transformer forwards *)






(** ** The titles of a summary *)

(** Whitespace occurs only as single spaces; [after_space] tells that the
    previous code unit was a space. *)
Fixpoint single_spaced (after_space : bool) (s : jsstring) : bool :=
  match s with
  | [] => true
  | c :: s' =>
      if is_ws c then (c =? 32) && negb after_space && single_spaced true s'
      else single_spaced false s'
  end.

Definition starts_with_ws (s : jsstring) : bool :=
  match s with c :: _ => is_ws c | [] => false end.

(** The string starts or ends with whitespace. *)
Definition ws_at_edge (s : jsstring) : bool :=
  starts_with_ws s || starts_with_ws (rev s).

(** ** The wire format, for every event *)

(** The event the client reads back: the payloads become their JSON
    images, an absent payload stays absent. *)
Definition event_image (e : StreamEvent) : StreamEvent :=
  match e with
  | tool_call tool message id input =>
      tool_call tool message id (json_image input)
  | tool_result tool message id input output =>
      tool_result tool message id (json_image input) (json_image output)
  | _ => e
  end.

(** No code unit below the space: none of U+0000 to U+001F. *)
Definition no_C0 (s : jsstring) : bool := forallb (fun c => 32 <=? c) s.

(** ** The reducer on events *)

(** The change of the display state that an event stands for. *)
Definition reduce_event (now : Z) (st : DisplayState) (e : StreamEvent)
  : DisplayState :=
  match e with
  | tool_call _ m _ _ => log_activity now st (str "tool_call") (JStr m)
  | tool_result _ m _ _ _ => log_activity now st (str "tool_result") (JStr m)
  | llm_start _ m => log_activity now st (str "llm_start") (JStr m)
  | token content =>
      mkDisplay (status st) (activity st) (response st ++ content)
  | complete m =>
      mkDisplay Status.complete
        (activity (log_activity now st (str "complete") (JStr m)))
        (response st)
  | error m =>
      mkDisplay Status.error
        (activity (log_activity now st (str "error") (JStr m)))
        (response st)
  end.

(** What an event adds to the activity log: its type and its message. *)
Definition activity_of_event (e : StreamEvent) : list (jsstring * JsValue) :=
  match e with
  | tool_call _ m _ _ => [(str "tool_call", JStr m)]
  | tool_result _ m _ _ _ => [(str "tool_result", JStr m)]
  | llm_start _ m => [(str "llm_start", JStr m)]
  | token _ => []
  | complete m => [(str "complete", JStr m)]
  | error m => [(str "error", JStr m)]
  end.

(** The types and messages of the activity log, in order. *)
Definition activity_view (st : DisplayState) : list (jsstring * JsValue) :=
  map (fun a => (ActivityItem.type a, ActivityItem.message a)) (activity st).

(** The status after a sequence of events: the last terminal event
    decides. *)
Fixpoint status_after (s : Status.t) (events : list StreamEvent) : Status.t :=
  match events with
  | [] => s
  | complete _ :: rest => status_after Status.complete rest
  | error _ :: rest => status_after Status.error rest
  | _ :: rest => status_after s rest
  end.

(** The record that [handleChunk] routes: the chunk, or what it parses to. *)
Definition event_of_chunk (chunk : JsValue) : option JsValue :=
  match chunk with
  | JStr s => JSON_parse s
  | _ => Some chunk
  end.

(** The event types the [switch] of [handleChunk] has a case for. *)
Definition known_event_types : list jsstring :=
  [str "tool_call"; str "tool_result"; str "llm_start"; str "token";
   str "complete"; str "error"].


(** The records that [handleChunk] returns on without a change: the
    primitives, the arrays, and the objects whose type is no string or
    none of the known ones. *)
Definition ignored (event : JsValue) : bool :=
  match event with
  | JUndefined | JNull => false
  | JObj props =>
      match field props "type" with
      | JStr ty => negb (existsb (eqb_str ty) known_event_types)
      | _ => true
      end
  | _ => true
  end.


(** A stream of four events, two of them delivered as lines. *)
Definition sample_events : list StreamEvent :=
  [llm_start MODEL_NAME (str "Analyzing"); token (str "Hel");
   token (str "lo"); complete (str "Analysis complete")].

Definition sample_deliveries : list (Z * JsValue) :=
  [(1%Z, event_object (llm_start MODEL_NAME (str "Analyzing")));
   (2%Z, JStr (encodeEvent (token (str "Hel"))));
   (3%Z, event_object (token (str "lo")));
   (4%Z, JStr (encodeEvent (complete (str "Analysis complete"))))].

(** ** The request of the fetcher

    [encodeURIComponent] of the platform: a code unit of the unreserved
    set is kept; any other code point is written as the octets of its
    UTF-8 form, each as a percent sign and two upper-case hexadecimal
    digits; a surrogate without its pair is a URIError. *)

Definition uri_unreserved (c : N) : bool :=
  ((65 <=? c) && (c <=? 90)) || ((97 <=? c) && (c <=? 122)) || is_digit c
  || (c =? 45) || (c =? 95) || (c =? 46) || (c =? 33) || (c =? 126)
  || (c =? 42) || (c =? 39) || (c =? 40) || (c =? 41).

Definition HEX_digit (d : N) : N := if d <? 10 then 48 + d else 55 + d.

(** An octet is below 256. *)
Definition percent (octet : N) : jsstring :=
  [37; HEX_digit (octet / 16 mod 16); HEX_digit (octet mod 16)].

(** The octets of the UTF-8 form of a code point. *)
Definition utf8 (cp : N) : list N :=
  if cp <? 0x80 then [cp]
  else if cp <? 0x800 then [0xC0 + cp / 64; 0x80 + cp mod 64]
  else if cp <? 0x10000 then
    [0xE0 + cp / 4096; 0x80 + cp / 64 mod 64; 0x80 + cp mod 64]
  else
    [0xF0 + cp / 262144; 0x80 + cp / 4096 mod 64; 0x80 + cp / 64 mod 64;
     0x80 + cp mod 64].

Definition surrogate_pair (high low : N) : N :=
  (high - 0xD800) * 0x400 + (low - 0xDC00) + 0x10000.

Definition escaped (cp : N) (rest : outcome jsstring) : outcome jsstring :=
  match rest with
  | Resolved r => Resolved (flat_map percent (utf8 cp) ++ r)
  | Rejected => Rejected
  end.

Fixpoint encodeURIComponent (s : jsstring) : outcome jsstring :=
  match s with
  | [] => Resolved []
  | c :: s' =>
      if uri_unreserved c then
        match encodeURIComponent s' with
        | Resolved r => Resolved (c :: r)
        | Rejected => Rejected
        end
      else if is_low c then Rejected
      else if is_high c then
        match s' with
        | d :: s'' =>
            if is_low d
            then escaped (surrogate_pair c d) (encodeURIComponent s'')
            else Rejected
        | [] => Rejected
        end
      else escaped c (encodeURIComponent s')
  end.

(** Every surrogate of the string is half of a pair. *)
Fixpoint well_formed_utf16 (s : jsstring) : bool :=
  match s with
  | [] => true
  | c :: s' =>
      if is_low c then false
      else if is_high c then
        match s' with
        | d :: s'' => is_low d && well_formed_utf16 s''
        | [] => false
        end
      else well_formed_utf16 s'
  end.

(** The code units an encoded component is made of. *)
Definition uri_safe (c : N) : bool := uri_unreserved c || (c =? 37).

(** How often a code unit occurs in a string. *)
Definition count_unit (c : N) (s : jsstring) : nat :=
  length (filter (N.eqb c) s).

(** ** The earlier agent (src/agent/hackathon-scout/index.ts)

    The agent that answers with the whole analysis at once: it fetches
    the literature, asks the model, and collects the streamed text. *)

Definition SYSTEM_PROMPT : jsstring := Eval cbv in str "You are a research paper scout that helps hackathon students find project ideas.

Given ArXiv API data, provide:

## Papers
For each paper, list:
- **Title** (with PDF link)
- Authors (first 3)
- One sentence summary
- Category (ML, AI Agents, GenAI, CV, NLP, or Other)

## Hackathon Project Ideas
2-3 creative project ideas inspired by the papers. For each:
- Project name
- One sentence pitch
- Why it's good for a hackathon (doable in 24-48 hours)

Be direct and concise. Do not ask follow-up questions - this is a one-shot response.".

(** A chunk of the completion stream, as far as [streamAnalysis] reads
    it: the choices, the delta of a choice when it has one, and the
    content of a delta when it is a string ([None] for [null] and for an
    absent property). *)
Module Delta.
Record t : Type := mk { content : option jsstring }.
End Delta.

Module Choice.
Record t : Type := mk { delta : option Delta.t }.
End Choice.

Module ChatChunk.
Record t : Type := mk { choices : list Choice.t }.
End ChatChunk.

(** The stream of a completion: its chunks, and whether the iteration
    ends after them ([false] when it throws instead). *)
Record CompletionStream : Type := mkStream {
  chunks : list ChatChunk.t;
  ends : bool
}.

(** The request of [streamAnalysis]; [stream: true] is on every one. *)
Record ChatRequest : Type := mkRequest {
  model : jsstring;
  system : jsstring;
  user : jsstring
}.

(** What a run of an async generator gives its consumer: the values it
    yields, and whether it returns after them or throws. *)
Record generation : Type := mkGeneration {
  yields : list jsstring;
  returns : bool
}.

(** [chunk.choices[0]?.delta?.content] *)
Definition first_content (chunk : ChatChunk.t) : option jsstring :=
  match ChatChunk.choices chunk with
  | [] => None
  | choice :: _ =>
      match Choice.delta choice with
      | Some d => Delta.content d
      | None => None
      end
  end.

(** [if (content) yield content]: the empty string is not yielded. *)
Definition yielded (chunk : ChatChunk.t) : list jsstring :=
  match first_content chunk with
  | Some (c :: s) => [c :: s]
  | _ => []
  end.

(** The text a chunk carries for its reader. *)
Definition chunk_text (chunk : ChatChunk.t) : jsstring :=
  match first_content chunk with Some s => s | None => [] end.

(** A value of type number: an integer, or NaN.  (The integers are those
    a number holds exactly, as everywhere in this development.) *)
Inductive number : Type :=
  | Int (z : Z)
  | NaN.

Definition number_text (n : number) : jsstring :=
  match n with Int z => Z_to_string z | NaN => str "NaN" end.

(** [parseInt(s, 10)]: white space is skipped, then a sign, then the
    longest run of decimal digits is read; without a digit the result
    is NaN. *)
Definition parseInt (s : jsstring) : number :=
  let s := dropWhile is_ws s in
  let (negative, digits) :=
    match s with
    | c :: r =>
        if c =? 45 then (true, r) else if c =? 43 then (false, r) else (false, s)
    | [] => (false, s)
    end in
  match fst (parse_uint digits) with
  | Decimal.Nil => NaN
  | u => Int (if negative then (- Z.of_N (N.of_uint u))%Z else Z.of_N (N.of_uint u))
  end.

(** The messages of the route. *)
Definition searching_message (query : jsstring) : jsstring :=
  [0xD83D; 0xDD0D] ++ str " Searching ArXiv for " ++ [34] ++ query ++ [34]
    ++ str "...".

Definition found_message (paperCount : nat) : jsstring :=
  [0xD83D; 0xDCC4] ++ str " Found " ++ nat_to_string paperCount ++ str " papers".

Definition ANALYZING : jsstring :=
  Eval cbv in [0xD83E; 0xDD16] ++ str " Analyzing with GPT-5...".

Definition COMPLETE : jsstring := Eval cbv in [0x2705] ++ str " Complete".

Definition error_message (text : jsstring) : jsstring :=
  [0x274C] ++ str " Error: " ++ text.

Section Scout.

(** The platform: [fetch], the completion endpoint of the model, which
    settles with a stream or rejects, and the text [String(error)] of
    what the route catches (the outcomes of this model do not carry the
    thrown value). *)
Variable fetch : jsstring -> outcome Response.t.
Variable create : ChatRequest -> outcome CompletionStream.
Variable String_error : jsstring.

(** [fetchArxiv(query, maxResults)] on any number: the URL holds the
    text of the number. *)
Definition fetchArxiv_number (query : jsstring) (maxResults : number)
  : outcome jsstring :=
  match encodeURIComponent query with
  | Rejected => Rejected
  | Resolved q =>
      match fetch (str "http://export.arxiv.org/api/query?search_query=all:"
                     ++ q ++ str "&max_results=" ++ number_text maxResults
                     ++ str "&sortBy=relevance") with
      | Rejected => Rejected
      | Resolved response =>
          if negb (Response.ok response)
          then Resolved (status_placeholder (Response.status response))
          else Response.text response
      end
  end.

Definition analysis_request (query arxivData : jsstring) : ChatRequest :=
  mkRequest (str "gpt-5") SYSTEM_PROMPT
    (str "Search query: " ++ [34] ++ query ++ [34] ++ [10; 10]
       ++ str "ArXiv data:" ++ [10] ++ arxivData).

(** [streamAnalysis(query, arxivData)], run to its end. *)
Definition streamAnalysis (query arxivData : jsstring) : generation :=
  match create (analysis_request query arxivData) with
  | Rejected => mkGeneration [] false
  | Resolved stream =>
      mkGeneration (flat_map yielded (chunks stream)) (ends stream)
  end.

(** The handler of the agent: [maxResults] is [None] when the input
    leaves it out; the result is the [response] of the output. *)
Definition scout_handler (query : jsstring) (maxResults : option Z)
  : outcome jsstring :=
  let maxResults := match maxResults with Some n => n | None => 5%Z end in
  match fetchArxiv encodeURIComponent fetch query (Some maxResults) with
  | Rejected => Rejected
  | Resolved arxivData =>
      let analysis := streamAnalysis query arxivData in
      if returns analysis
      then Resolved (fold_left (fun response chunk => response ++ chunk)
                       (yields analysis) [])
      else Rejected
  end.

(** ** The event-stream route (src/api/index.ts, [GET /search])

    The events the route sends, in order, each as the JSON text of its
    record; [send] is taken to succeed.  The parameters are [None] when
    the request leaves them out. *)
Definition search_route (query maxResults : option jsstring)
  : list StreamEvent :=
  let query := match query with Some (c :: s) => c :: s | _ => str "AI agents" end in
  let maxResults :=
    parseInt (match maxResults with Some (c :: s) => c :: s | _ => str "5" end) in
  tool_call ARXIV_SEARCH (searching_message query) None JUndefined ::
  match fetchArxiv_number query maxResults with
  | Rejected => [error (error_message String_error)]
  | Resolved arxivData =>
      let analysis := streamAnalysis query arxivData in
      tool_result ARXIV_SEARCH (found_message (paperCount arxivData)) None
        JUndefined JUndefined
      :: llm_start (str "gpt-5") ANALYZING
      :: map token (yields analysis)
      ++ [if returns analysis then complete COMPLETE
          else error (error_message String_error)]
  end.

End Scout.

(** A platform to run the agent and the route on: a service that
    answers with one entry, and a model that streams two words around
    chunks without a content. *)
Definition sample_fetch (url : jsstring) : outcome Response.t :=
  Resolved (Response.mk 200 (Resolved (str "<feed><entry></entry></feed>"))).

Definition sample_stream : CompletionStream :=
  mkStream
    [ChatChunk.mk [Choice.mk (Some (Delta.mk (Some (str "Two "))))];
     ChatChunk.mk [Choice.mk (Some (Delta.mk None))];
     ChatChunk.mk [];
     ChatChunk.mk [Choice.mk None];
     ChatChunk.mk [Choice.mk (Some (Delta.mk (Some (str "ideas"))));
                   Choice.mk (Some (Delta.mk (Some (str "!"))))]]
    true.

Definition sample_create (request : ChatRequest) : outcome CompletionStream :=
  Resolved sample_stream.

(** ** The event-stream frontend (the earlier web/App.tsx)

    The state of [App] and of the [SearchStream] it mounts while a query
    is active.  Every handler is a change of the state; a state update
    is applied before the next handler runs. *)
Module ActivityEntry.
Record t : Type := mk {
  id : nat;
  type : jsstring;
  message : JsValue
}.
End ActivityEntry.

Module EventStreamApp.

(** [textRef] is the ref of the mounted [SearchStream]. *)
Record AppState : Type := mkApp {
  query : jsstring;
  activeQuery : option jsstring;
  response : jsstring;
  activities : list ActivityEntry.t;
  status : Status.t;
  activityIdRef : nat;
  textRef : jsstring
}.

Definition initial : AppState := mkApp [] None [] [] Status.idle 0 [].

(** [{activeQuery && <SearchStream ... />}] *)
Definition mounted (st : AppState) : bool :=
  match activeQuery st with Some (_ :: _) => true | _ => false end.

(** A [SearchStream] that mounts starts with an empty [textRef]; one
    that is mounted already keeps it. *)
Definition handleSearch (searchQuery : jsstring) (st : AppState) : AppState :=
  match trim searchQuery with
  | [] => st
  | _ =>
      mkApp searchQuery (Some searchQuery) [] [] Status.loading 0
        (if mounted st then textRef st else [])
  end.

Definition handleActivity (type : jsstring) (message : JsValue)
    (st : AppState) : AppState :=
  mkApp (query st) (activeQuery st) (response st)
    (activities st ++ [ActivityEntry.mk (S (activityIdRef st)) type message])
    (status st) (S (activityIdRef st)) (textRef st).

Definition handleStreamUpdate (text : jsstring) (st : AppState) : AppState :=
  mkApp (query st) (activeQuery st) text (activities st) (status st)
    (activityIdRef st) (textRef st).

Definition handleComplete (st : AppState) : AppState :=
  mkApp (query st) None (response st) (activities st) Status.complete
    (activityIdRef st) (textRef st).

Definition handleError (message : JsValue) (st : AppState) : AppState :=
  let st := handleActivity (str "error") message st in
  mkApp (query st) None (response st) (activities st) Status.error
    (activityIdRef st) (textRef st).

(** [v || d] *)
Definition or_else (v d : JsValue) : JsValue := if truthy v then v else d.

(** The text of the literal in the source file. *)
Definition DONE : jsstring := [0x201A; 0xFA; 0xD6; 32; 68; 111; 110; 101].

(** The effect of [SearchStream] on a message of the stream. *)
Definition onData (data : JsValue) (st : AppState) : AppState :=
  if negb (truthy data) then st
  else
    match data with
    | JObj props =>
        match field props "type" with
        | JStr ty =>
            if (ty =s str "tool_call") || (ty =s str "tool_result")
               || (ty =s str "llm_start") then
              handleActivity ty (or_else (field props "message") (JStr [])) st
            else if ty =s str "token" then
              let text :=
                textRef st ++ js_String (or_else (field props "content") (JStr [])) in
              handleStreamUpdate text
                (mkApp (query st) (activeQuery st) (response st) (activities st)
                   (status st) (activityIdRef st) text)
            else if ty =s str "complete" then
              handleComplete
                (handleActivity (str "complete")
                   (or_else (field props "message") (JStr DONE)) st)
            else if ty =s str "error" then
              handleError
                (or_else (field props "message") (JStr (str "An error occurred"))) st
            else st
        | _ => st
        end
    | _ => st
    end.

(** What happens to the page: a search is started, the stream delivers
    a message, or the connection fails with an error that has the given
    message.  Only a mounted [SearchStream] receives the last two. *)
Inductive action : Type :=
  | Search (searchQuery : jsstring)
  | Data (data : JsValue)
  | ConnectionError (message : jsstring).

Definition step (st : AppState) (a : action) : AppState :=
  match a with
  | Search searchQuery => handleSearch searchQuery st
  | Data data => if mounted st then onData data st else st
  | ConnectionError message =>
      if mounted st then handleError (JStr message) st else st
  end.

Definition run (actions : list action) (st : AppState) : AppState :=
  fold_left step actions st.

(** [isLoading && activity.id === activities.length]: the entry that
    shows the spinner. *)
Definition shows_spinner (st : AppState) (entry : ActivityEntry.t) : bool :=
  match status st with
  | Status.loading => Nat.eqb (ActivityEntry.id entry) (length (activities st))
  | _ => false
  end.

(** The messages of a stream of events, each delivered as the record
    its JSON text parses to. *)
Definition stream_actions (events : list StreamEvent) : list action :=
  map (fun e => Data (wire_object e)) events.

(** The messages of the events that have one, as the log shows them. *)
Definition logged_messages (events : list StreamEvent) : list JsValue :=
  flat_map (fun e => match event_message e with
                     | Some m => [JStr m]
                     | None => []
                     end) events.

End EventStreamApp.

(** * Properties *)

(** ** Strings *)

Lemma eqb_str_refl (a : jsstring) : (a =s a) = true.
Proof.
  induction a as [|x a IH]; simpl; [reflexivity|].
  now rewrite N.eqb_refl, IH.
Qed.

Lemma eqb_str_eq (a b : jsstring) : (a =s b) = true <-> a = b.
Proof.
  split.
  - revert b; induction a as [|x a IH]; intros [|y b] H; simpl in H;
      try discriminate; [reflexivity|].
    apply andb_true_iff in H as [Hx Hr].
    apply N.eqb_eq in Hx. now rewrite Hx, (IH b Hr).
  - intros ->. apply eqb_str_refl.
Qed.

Lemma eqb_str_neq (a b : jsstring) : a <> b -> (a =s b) = false.
Proof.
  intros H. destruct (a =s b) eqn:E; [|reflexivity].
  now apply eqb_str_eq in E.
Qed.

(** ** The transformer, chunk by chunk *)


(** The shapes a call of [transform] can take. *)
Lemma transform_cases (st : bool) (c : Chunk.t) :
  (is_start (Chunk.type c) = true /\ st = false /\
     exists m, transform st c = (true, [llm_start MODEL_NAME m]))
  \/ (is_start (Chunk.type c) = true /\ st = true /\ transform st c = (true, []))
  \/ (is_start (Chunk.type c) = false /\ is_text_delta c = true /\
        exists s, transform st c = (st, [token s]))
  \/ (is_start (Chunk.type c) = false /\ is_text_delta c = false /\
        is_final_chunk c = true /\
        exists e, transform st c = (st, [e]) /\ is_terminal e = true)
  \/ (is_start (Chunk.type c) = false /\ is_text_delta c = false /\
        is_final_chunk c = false /\
        exists out, transform st c = (st, out) /\
          forallb (fun e => negb (is_llm_start e) && negb (is_token e)
                            && negb (is_terminal e)) out = true).
Proof.
  unfold transform, is_text_delta, is_final_chunk.
  destruct (is_start (Chunk.type c)) eqn:Hs.
  - destruct st; [right; left | left]; repeat split; eauto.
  - right; right.
    destruct (Chunk.type c =s str "tool-call") eqn:H1.
    { right; right. apply eqb_str_eq in H1. rewrite H1.
      repeat split; try reflexivity. eexists; split; reflexivity. }
    destruct (Chunk.type c =s str "tool-result") eqn:H2.
    { right; right. apply eqb_str_eq in H2. rewrite H2.
      repeat split; try reflexivity. eexists; split; reflexivity. }
    destruct (Chunk.type c =s str "text-delta") eqn:H3.
    { left. repeat split; eauto. }
    destruct (Chunk.type c =s str "finish") eqn:H4.
    { right; left. repeat split; try reflexivity.
      eexists; split; reflexivity. }
    destruct (is_failure (Chunk.type c)) eqn:H5.
    { right; left. repeat split; try reflexivity.
      eexists; split; reflexivity. }
    right; right. repeat split; try reflexivity.
    eexists; split; reflexivity.
Qed.

Lemma app_split_at (P : StreamEvent -> bool) (o r l1 l2 : list StreamEvent)
    (e : StreamEvent) :
  o ++ r = l1 ++ e :: l2 ->
  forallb (fun x => negb (P x)) o = true -> P e = true ->
  exists l1', l1 = o ++ l1' /\ r = l1' ++ e :: l2.
Proof.
  revert l1; induction o as [|x o IH]; intros l1 Heq Ho He; simpl in *.
  - now exists l1.
  - apply andb_true_iff in Ho as [Hx Ho].
    destruct l1 as [|y l1]; simpl in Heq; injection Heq as Hxy Heq.
    + subst x. now rewrite He in Hx.
    + subst y. destruct (IH l1 Heq Ho He) as [l1' [-> ->]].
      now exists l1'.
Qed.

Lemma forallb_weaken (A : Type) (f g : A -> bool) (l : list A) :
  (forall x, f x = true -> g x = true) ->
  forallb f l = true -> forallb g l = true.
Proof.
  intros Hfg. rewrite !forallb_forall. auto.
Qed.

(** Once [llmStarted] is set, no [llm_start] is enqueued any more. *)
Lemma started_no_llm_start (chunks : list Chunk.t) :
  forallb (fun e => negb (is_llm_start e)) (snd (pipeThrough true chunks)) = true.
Proof.
  induction chunks as [|c cs IH]; simpl; [reflexivity|].
  destruct (transform_cases true c)
    as [(_ & Hst & _) | [(_ & _ & Ht) | [(_ & _ & s & Ht)
       | [(_ & _ & _ & e & Ht & He) | (_ & _ & _ & out & Ht & Hout)]]]];
    try discriminate; rewrite Ht;
    destruct (pipeThrough true cs) as [st' outs]; simpl in *;
    rewrite ?forallb_app, ?IH; auto.
  - destruct e; try discriminate; reflexivity.
  - rewrite andb_true_r.
    revert Hout. apply forallb_weaken. intros x.
    destruct (is_llm_start x); simpl; auto.
Qed.

Lemma llm_start_count (chunks : list Chunk.t) (st : bool) :
  (length (filter is_llm_start (snd (pipeThrough st chunks)))
   <= if st then 0 else 1)%nat.
Proof.
  destruct st.
  - pose proof (started_no_llm_start chunks) as H.
    induction (snd (pipeThrough true chunks)) as [|e l IH]; simpl in *; [lia|].
    apply andb_true_iff in H as [He Hl].
    destruct (is_llm_start e); [discriminate|]. auto.
  - induction chunks as [|c cs IH]; simpl; [lia|].
    destruct (transform_cases false c)
      as [(_ & _ & m & Ht) | [(_ & Hst & _) | [(_ & _ & s & Ht)
         | [(_ & _ & _ & e & Ht & He) | (_ & _ & _ & out & Ht & Hout)]]]];
      try discriminate; rewrite Ht.
    + pose proof (started_no_llm_start cs) as H.
      destruct (pipeThrough true cs) as [st' outs]; simpl in *.
      assert (filter is_llm_start outs = []) as ->; [|simpl; lia].
      induction outs as [|x l IHl]; simpl in *; [reflexivity|].
      apply andb_true_iff in H as [Hx Hl].
      destruct (is_llm_start x); [discriminate|]. auto.
    + destruct (pipeThrough false cs) as [st' outs]; simpl in *. exact IH.
    + destruct (pipeThrough false cs) as [st' outs]; simpl in *.
      destruct e; try discriminate; simpl; exact IH.
    + destruct (pipeThrough false cs) as [st' outs]; simpl in *.
      rewrite filter_app, length_app.
      assert (filter is_llm_start out = []) as ->; [|simpl; lia].
      clear Ht. induction out as [|x l IHl]; simpl in *; [reflexivity|].
      apply andb_true_iff in Hout as [Hx Hl].
      destruct (is_llm_start x); [discriminate|]. auto.
Qed.

Lemma llm_start_order (chunks : list Chunk.t) :
  starts_before_text false chunks = true ->
  llm_start_precedes_tokens (snd (pipeThrough false chunks)).
Proof.
  unfold llm_start_precedes_tokens.
  induction chunks as [|c cs IH]; simpl; intros H l1 e l2 Heq He t Ht.
  - now destruct l1.
  - destruct (transform_cases false c)
      as [(Hs & _ & m & Htr) | [(_ & Hst & _) | [(Hs & Hd & s & Htr)
         | [(Hs & Hd & _ & x & Htr & Hx) | (Hs & Hd & _ & out & Htr & Hout)]]]];
      try discriminate; rewrite Htr in Heq; rewrite Hs in H;
      rewrite ?Hd in H; try discriminate.
    + pose proof (started_no_llm_start cs) as Hno.
      destruct (pipeThrough true cs) as [st' outs]; simpl in *.
      destruct l1 as [|y l1]; [contradiction|].
      injection Heq as _ Heq. subst outs.
      rewrite forallb_app in Hno. apply andb_true_iff in Hno as [_ Hno].
      simpl in Hno. now rewrite He in Hno.
    + destruct (pipeThrough false cs) as [st' outs] eqn:Hp; simpl in *.
      destruct (app_split_at is_llm_start [x] outs l1 l2 e Heq)
        as [l1' [-> Hl]]; auto.
      { simpl. destruct x; try discriminate; reflexivity. }
      destruct Ht as [<- | Ht].
      * destruct x; try discriminate; reflexivity.
      * eapply IH; eauto.
    + destruct (pipeThrough false cs) as [st' outs] eqn:Hp; simpl in *.
      destruct (app_split_at is_llm_start out outs l1 l2 e Heq)
        as [l1' [-> Hl]]; auto.
      { revert Hout. apply forallb_weaken. intros y.
        destruct (is_llm_start y); simpl; auto. }
      apply in_app_or in Ht as [Ht | Ht].
      * rewrite forallb_forall in Hout. specialize (Hout t Ht).
        destruct (is_token t); [|reflexivity].
        now rewrite andb_false_r in Hout.
      * eapply IH; eauto.
Qed.

(** C1, as amended.  For every upstream chunk sequence the output of a
    request (which starts with [llmStarted = false]) holds at most one
    [llm_start] event; and when no [text-delta] chunk arrives before the
    first start signal ([start], [start-step] or [text-start]), every
    [llm_start] of the output comes before every [token]. *)
Theorem llm_start_once_and_first (chunks : list Chunk.t) :
  (length (filter is_llm_start (handler_stream chunks)) <= 1)%nat
  /\ (starts_before_text false chunks = true ->
      llm_start_precedes_tokens (handler_stream chunks)).
Proof.
  split.
  - apply (llm_start_count chunks false).
  - apply llm_start_order.
Qed.

Lemma llm_start_once_and_first_witness :
  starts_before_text false
    [chunk_of_type "start"; chunk_of_type "text-start"; text_delta "Hi";
     chunk_of_type "start-step"; text_delta "!"; chunk_of_type "finish"] = true
  /\ llm_start_precedes_tokens
       (handler_stream
          [chunk_of_type "start"; chunk_of_type "text-start"; text_delta "Hi";
           chunk_of_type "start-step"; text_delta "!"; chunk_of_type "finish"]).
Proof.
  split; [reflexivity|].
  apply (proj2 (llm_start_once_and_first _)). reflexivity.
Defined.

(** C1 as stated fails: the transformer forwards a [text-delta] that
    arrives before any start signal, so the [llm_start] of a later start
    signal follows a [token]. *)
Lemma llm_start_after_token_counterexample :
  ~ ((length (filter is_llm_start
        (handler_stream [text_delta "x"; chunk_of_type "start"])) <= 1)%nat
     /\ llm_start_precedes_tokens
          (handler_stream [text_delta "x"; chunk_of_type "start"])).
Proof.
  intros [_ H].
  specialize (H [token (str "x")]
                (llm_start MODEL_NAME (str "Analyzing with gpt-5..."))
                [] eq_refl eq_refl (token (str "x")) (or_introl eq_refl)).
  discriminate H.
Qed.








(** The run of the design document: a query answered with a feed of two
    papers. *)
Example two_papers_scenario :
  handler_stream sample_run
  = [llm_start MODEL_NAME (str "Analyzing with gpt-5...");
     tool_call ARXIV_SEARCH (str "Calling arxiv_search...")
       (Some (str "call_1")) sample_input;
     tool_result ARXIV_SEARCH
       (str "Found 2 papers. Top: Denoising Diffusion Models"
          ++ [32; 0x2022; 32] ++ str "Score Matching")
       (Some (str "call_1")) sample_input (JStr sample_feed);
     token (str "Two papers ");
     token (str "on diffusion.");
     complete (str "Analysis complete")].
Proof. reflexivity. Qed.

(** ** The calls and the store *)

Lemma lookup_assign_same (env : nat) (b : bool) (s : Store) :
  (env < length s)%nat -> lookup env (assign env b s) = b.
Proof.
  unfold lookup. revert env; induction s as [|x s IH]; intros env H;
    [simpl in H; lia|].
  destruct env as [|env]; [reflexivity|].
  cbn [assign nth]. apply IH. simpl in H. lia.
Qed.

Lemma lookup_assign_other (env env' : nat) (b : bool) (s : Store) :
  env <> env' -> lookup env (assign env' b s) = lookup env s.
Proof.
  unfold lookup. revert env env'; induction s as [|x s IH]; intros env env' H;
    [now destruct env'|].
  destruct env' as [|env'], env as [|env]; cbn [assign nth];
    try reflexivity; [congruence|].
  apply IH. congruence.
Qed.

Lemma assign_length (env : nat) (b : bool) (s : Store) :
  length (assign env b s) = length s.
Proof.
  revert env; induction s as [|x s IH]; intros [|env]; cbn [assign length];
    try reflexivity.
  now rewrite IH.
Qed.

Lemma assign_lookup (env : nat) (s : Store) : assign env (lookup env s) s = s.
Proof.
  unfold lookup. revert env; induction s as [|x s IH]; intros [|env];
    cbn [assign nth]; try reflexivity.
  now rewrite IH.
Qed.

Lemma start_type_cases (ty : jsstring) :
  is_start ty = true ->
  (ty =s str "tool-call") = false /\ (ty =s str "tool-result") = false
  /\ is_failure ty = false.
Proof.
  unfold is_start. intros H.
  repeat (apply orb_true_iff in H as [H | H]);
    apply eqb_str_eq in H; rewrite H; repeat split; reflexivity.
Qed.

(** A call reads and assigns its own binding only, and it throws on the
    chunks singled out by [raises]; when it returns, its events are those
    of [transform]. *)
Lemma transform_call_transform (env : nat) (c : Chunk.t) (s : Store) :
  transform_call env c s
  = (if raises c then Throws
     else Returns (snd (transform (lookup env s) c)),
     assign env (fst (transform (lookup env s) c)) s).
Proof.
  unfold transform_call, transform, raises.
  destruct (is_start (Chunk.type c)) eqn:Hs.
  { destruct (start_type_cases _ Hs) as (-> & -> & ->). cbn [orb andb].
    unfold bind, read, write, done.
    destruct (lookup env s) eqn:E; cbn [fst snd]; [|reflexivity].
    now rewrite <- E, assign_lookup. }
  destruct (Chunk.type c =s str "tool-call") eqn:H1.
  { apply eqb_str_eq in H1. rewrite H1.
    change (is_failure (str "tool-call")) with false.
    cbn [orb andb fst snd]. unfold bind, call, done, String_call.
    rewrite assign_lookup. now destruct (String_throws _). }
  destruct (Chunk.type c =s str "tool-result") eqn:H2.
  { apply eqb_str_eq in H2. rewrite H2.
    change (is_failure (str "tool-result")) with false.
    cbn [orb andb fst snd]. unfold bind, call, done, String_call.
    rewrite assign_lookup. now destruct (String_throws _). }
  cbn [orb andb].
  destruct (Chunk.type c =s str "text-delta") eqn:H3.
  { apply eqb_str_eq in H3. rewrite H3.
    change (is_failure (str "text-delta")) with false.
    cbn [andb fst snd]. unfold done. now rewrite assign_lookup. }
  destruct (Chunk.type c =s str "finish") eqn:H4.
  { apply eqb_str_eq in H4. rewrite H4.
    change (is_failure (str "finish")) with false.
    cbn [andb fst snd]. unfold done. now rewrite assign_lookup. }
  destruct (is_failure (Chunk.type c)) eqn:H5; cbn [andb fst snd].
  - unfold bind, call, done, String_call. rewrite assign_lookup.
    now destruct (String_throws _).
  - unfold done. now rewrite assign_lookup.
Qed.

(** ** Requests do not share state *)

Lemma events_of_app (r : nat) (a b : list (nat * StreamEvent)) :
  events_of r (a ++ b) = events_of r a ++ events_of r b.
Proof.
  unfold events_of. now rewrite filter_app, map_app.
Qed.

Lemma events_of_tagged (r r' : nat) (out : list StreamEvent) :
  events_of r (map (pair r') out) = if Nat.eqb r' r then out else [].
Proof.
  unfold events_of.
  induction out as [|e out IH]; simpl; [now destruct (Nat.eqb r' r)|].
  destruct (Nat.eqb r' r); simpl in *; now rewrite IH.
Qed.

Lemma idle_separate : separate idle.
Proof. split; intros; discriminate. Qed.

Lemma handler_call_separate (r : nat) (sv : Server) :
  separate sv -> separate (handler_call r sv).
Proof.
  intros [Hin Hinj]. unfold handler_call, set_stream. split; cbn [store streams].
  - intros r0 env. rewrite length_app, Nat.add_1_r.
    destruct (Nat.eqb r0 r); [intros [= <-]; lia|].
    intros H. apply Hin in H. lia.
  - intros r0 r1 env.
    destruct (Nat.eqb r0 r) eqn:E0, (Nat.eqb r1 r) eqn:E1.
    + apply Nat.eqb_eq in E0, E1. congruence.
    + intros [= <-] H. apply Hin in H. lia.
    + intros H [= <-]. apply Hin in H. lia.
    + apply Hinj.
Qed.

Lemma view_handler_call (r r' : nat) (sv : Server) :
  separate sv ->
  view r (handler_call r' sv)
  = if Nat.eqb r r' then Some (Some false) else view r sv.
Proof.
  intros [Hin _]. unfold view, handler_call, set_stream. cbn [store streams].
  destruct (Nat.eqb r r').
  - unfold lookup. now rewrite nth_middle.
  - destruct (streams sv r) as [[env|]|] eqn:E; try reflexivity.
    unfold lookup. rewrite app_nth1; [reflexivity|]. now apply (Hin r).
Qed.

Lemma assigned_separate (sv : Server) (env : nat) (b : bool) :
  separate sv -> separate (mkServer (assign env b (store sv)) (streams sv)).
Proof.
  intros [Hin Hinj]. split; cbn [store streams]; [|exact Hinj].
  intros r e H. rewrite assign_length. now apply (Hin r).
Qed.

Lemma errored_separate (sv : Server) (r env : nat) (b : bool) :
  separate sv ->
  separate (mkServer (assign env b (store sv))
              (set_stream (streams sv) r Errored)).
Proof.
  intros [Hin Hinj]. unfold set_stream. split; cbn [store streams].
  - intros r0 e. rewrite assign_length.
    destruct (Nat.eqb r0 r); [discriminate | apply Hin].
  - intros r0 r1 e.
    destruct (Nat.eqb r0 r); [discriminate|].
    destruct (Nat.eqb r1 r); [discriminate | apply Hinj].
Qed.

(** In any interleaving a request is sent what it is sent when it is
    served alone: the calls for the other requests leave its view of the
    server as it is. *)
Lemma serve_alone (schedule : list arrival) :
  forall (sv : Server) (r : nat), separate sv ->
    events_of r (serve sv schedule) = alone (view r sv) (own r schedule).
Proof.
  induction schedule as [|[r'|r' c] rest IH]; intros sv r Hsv;
    [reflexivity| |].
  - cbn [serve own flat_map].
    rewrite IH by now apply handler_call_separate.
    rewrite view_handler_call by exact Hsv. rewrite (Nat.eqb_sym r' r).
    now destruct (Nat.eqb r r').
  - cbn [serve own flat_map].
    destruct (streams sv r') as [[env'|]|] eqn:E'.
    + rewrite transform_call_transform.
      pose proof (proj1 Hsv r' env' E') as Henv'.
      set (b := fst (transform (lookup env' (store sv)) c)).
      assert (view r (mkServer (assign env' b (store sv)) (streams sv))
              = if Nat.eqb r' r then Some (Some b) else view r sv) as Hview.
      { unfold view. cbn [store streams].
        destruct (Nat.eqb r' r) eqn:Er.
        - apply Nat.eqb_eq in Er. subst r'. rewrite E'.
          now rewrite lookup_assign_same.
        - destruct (streams sv r) as [[env|]|] eqn:E; try reflexivity.
          rewrite lookup_assign_other; [reflexivity|].
          intros ->. apply Nat.eqb_neq in Er. apply Er.
          exact (proj2 Hsv r' r env' E' E). }
      destruct (raises c) eqn:Hr.
      * rewrite IH by now apply errored_separate.
        unfold view at 1, set_stream. cbn [store streams].
        rewrite (Nat.eqb_sym r r').
        destruct (Nat.eqb r' r) eqn:Er.
        -- apply Nat.eqb_eq in Er. subst r'. cbn [app alone].
           unfold view at 1. rewrite E'.
           now rewrite transform_call_transform, Hr.
        -- cbn [app]. f_equal. unfold view in Hview. cbn [store streams] in Hview.
           exact Hview.
      * rewrite events_of_app, events_of_tagged,
          IH by now apply assigned_separate.
        rewrite Hview.
        destruct (Nat.eqb r' r) eqn:Er; [|reflexivity].
        apply Nat.eqb_eq in Er. subst r'. cbn [app alone].
        unfold view at 1. rewrite E'.
        rewrite transform_call_transform, Hr.
        change (lookup 0 [lookup env' (store sv)]) with (lookup env' (store sv)).
        fold b. cbn [assign]. reflexivity.
    + rewrite IH by exact Hsv.
      destruct (Nat.eqb r' r) eqn:Er; [|reflexivity].
      apply Nat.eqb_eq in Er. subst r'. cbn [app alone].
      unfold view. now rewrite E'.
    + rewrite IH by exact Hsv.
      destruct (Nat.eqb r' r) eqn:Er; [|reflexivity].
      apply Nat.eqb_eq in Er. subst r'. cbn [app alone].
      unfold view. now rewrite E'.
Qed.

(** A request whose calls all return is sent the events of
    [pipeThrough]. *)
Lemma alone_pipeThrough (chunks : list Chunk.t) :
  forall llmStarted, forallb (fun c => negb (raises c)) chunks = true ->
    alone (Some (Some llmStarted)) (map Some chunks)
    = snd (pipeThrough llmStarted chunks).
Proof.
  induction chunks as [|c cs IH]; intros fl H; [reflexivity|].
  cbn [forallb] in H. apply andb_true_iff in H as [Hc Hcs].
  apply negb_true_iff in Hc.
  cbn [map alone pipeThrough]. rewrite transform_call_transform, Hc.
  change (lookup 0 [fl]) with fl. cbn [assign lookup nth].
  rewrite IH by exact Hcs.
  destruct (transform fl c) as [st out]. cbn [fst snd].
  now destruct (pipeThrough st cs).
Qed.

(** A request whose handler is called once, before its chunks, and
    whose calls of [transform] all return, is sent the events of
    [handler_stream], whatever else the server handles. *)
Lemma served_handler_stream (schedule : list arrival) (r : nat)
    (chunks : list Chunk.t) :
  own r schedule = None :: map Some chunks ->
  forallb (fun c => negb (raises c)) chunks = true ->
  events_of r (serve idle schedule) = handler_stream chunks.
Proof.
  intros Hown Hret. rewrite serve_alone by apply idle_separate.
  rewrite Hown. cbn [alone]. now apply alone_pipeThrough.
Qed.

(** C10.  Two runs of the transformer over the same upstream chunk
    sequence send the same events, whatever else the two servers handle
    in between and whatever the bindings of the other requests hold:
    every call of the handler declares its own [llmStarted], a call of
    [transform] reads and assigns that binding only, and so what a
    request is sent depends on its own chunks alone. *)
Theorem transformer_deterministic (s1 s2 : list arrival) (r1 r2 : nat) :
  own r1 s1 = own r2 s2 ->
  events_of r1 (serve idle s1) = events_of r2 (serve idle s2).
Proof.
  intros H. rewrite !serve_alone by apply idle_separate. now rewrite H.
Qed.

Lemma transformer_deterministic_witness :
  own 1 [Invoke 1; Invoke 2; Upstream 1 (chunk_of_type "start");
         Upstream 2 (chunk_of_type "start"); Upstream 2 (text_delta "a");
         Upstream 1 (text_delta "a")]
  = own 7 [Invoke 7; Upstream 7 (chunk_of_type "start");
           Upstream 7 (text_delta "a")]
  /\ events_of 1
       (serve idle
          [Invoke 1; Invoke 2; Upstream 1 (chunk_of_type "start");
           Upstream 2 (chunk_of_type "start"); Upstream 2 (text_delta "a");
           Upstream 1 (text_delta "a")])
     = events_of 7
         (serve idle
            [Invoke 7; Upstream 7 (chunk_of_type "start");
             Upstream 7 (text_delta "a")]).
Proof.
  split; [reflexivity|].
  apply (transformer_deterministic
           [Invoke 1; Invoke 2; Upstream 1 (chunk_of_type "start");
            Upstream 2 (chunk_of_type "start"); Upstream 2 (text_delta "a");
            Upstream 1 (text_delta "a")]
           [Invoke 7; Upstream 7 (chunk_of_type "start");
            Upstream 7 (text_delta "a")] 1 7).
  reflexivity.
Defined.

(** Each of two interleaved requests is sent its own [llm_start]. *)
Example two_requests_interleaved :
  serve idle
    [Invoke 1; Invoke 2; Upstream 1 (chunk_of_type "start");
     Upstream 2 (chunk_of_type "start"); Upstream 2 (text_delta "a");
     Upstream 1 (text_delta "b")]
  = [(1%nat, llm_start MODEL_NAME (str "Analyzing with gpt-5..."));
     (2%nat, llm_start MODEL_NAME (str "Analyzing with gpt-5..."));
     (2%nat, token (str "a")); (1%nat, token (str "b"))].
Proof. reflexivity. Qed.

(** ** The literature fetcher *)

(** C7.  Whatever the query and [maxResults], once the request has been
    answered: with a non-success status [fetchArxiv] resolves (it does not
    throw) with the placeholder text that holds the status; with a success
    status it settles with the body of the response. *)
Theorem fetchArxiv_status
    (encodeURIComponent : jsstring -> outcome jsstring)
    (fetch : jsstring -> outcome Response.t)
    (query q : jsstring) (maxResults : option Z) (response : Response.t) :
  encodeURIComponent query = Resolved q ->
  fetch (arxiv_url q (match maxResults with Some n => n | None => 5%Z end))
    = Resolved response ->
  fetchArxiv encodeURIComponent fetch query maxResults =
    if Response.ok response then Response.text response
    else Resolved (str "Error: ArXiv API returned status "
                     ++ N_to_string (Response.status response)).
Proof.
  intros Hq Hf. unfold fetchArxiv. rewrite Hq, Hf.
  now destruct (Response.ok response).
Qed.

Lemma fetchArxiv_status_witness :
  fetchArxiv (fun s => Resolved s)
    (fun _ => Resolved (Response.mk 503 (Resolved (str "Service Unavailable"))))
    (str "agents") (Some 2%Z)
  = Resolved (str "Error: ArXiv API returned status 503").
Proof.
  exact (fetchArxiv_status (fun s => Resolved s)
           (fun _ => Resolved (Response.mk 503 (Resolved (str "Service Unavailable"))))
           (str "agents") (str "agents") (Some 2%Z)
           (Response.mk 503 (Resolved (str "Service Unavailable")))
           eq_refl eq_refl).
Defined.

(** ** Scanning with a pattern *)

Lemma strip_prefix_Some (p s r : jsstring) :
  strip_prefix p s = Some r <-> s = p ++ r.
Proof.
  revert s; induction p as [|a p IH]; intros s; simpl.
  - split; [now intros [= ->] | now intros ->].
  - destruct s as [|b s]; [split; discriminate|].
    destruct (N.eqb_spec a b) as [-> | Hne].
    + rewrite IH. split; [now intros -> | now intros [= ->]].
    + split; [discriminate | intros [= E _]; congruence].
Qed.

Lemma span_app (f : N -> bool) (s : jsstring) :
  s = fst (span f s) ++ snd (span f s).
Proof.
  induction s as [|c s IH]; simpl; [reflexivity|].
  destruct (f c); [|reflexivity].
  destruct (span f s) as [a b]; simpl in *. now rewrite <- IH.
Qed.

Lemma span_fst_all (f : N -> bool) (s : jsstring) :
  forallb f (fst (span f s)) = true.
Proof.
  induction s as [|c s IH]; simpl; [reflexivity|].
  destruct (f c) eqn:E; [|reflexivity].
  destruct (span f s) as [a b]; simpl in *. now rewrite E, IH.
Qed.

(** Positions without a match can be passed over. *)
Lemma matches_everywhere_skip (re : matcher) (n : nat) (s : jsstring) :
  (forall j, (j < n)%nat -> re (skipn j s) = None) ->
  matches_everywhere re s = matches_everywhere re (skipn n s).
Proof.
  revert s; induction n as [|n IH]; intros s H; [reflexivity|].
  destruct s as [|c s]; [reflexivity|].
  pose proof (H 0%nat ltac:(lia)) as H0. simpl in H0.
  simpl. rewrite H0.
  apply IH. intros j Hj. apply (H (S j)). lia.
Qed.

(** For a pattern whose matches do not overlap, the scan that resumes
    after each match finds the matches of every position. *)
Lemma match_all_everywhere (re : matcher) :
  no_overlap re ->
  forall s k, match_all re k s = matches_everywhere re (skipn k s).
Proof.
  intros Hre s; induction s as [|c s IH]; intros k.
  - now destruct k.
  - destruct k as [|k]; simpl; [|apply IH].
    destruct (re (c :: s)) as [[|len]|] eqn:E; try apply (IH 0%nat).
    rewrite IH. f_equal. symmetry. apply matches_everywhere_skip.
    intros j Hj. apply (Hre (c :: s) (S len) E (S j)). lia.
Qed.

Lemma firstn_length_app (a b : jsstring) : firstn (length a) (a ++ b) = a.
Proof.
  induction a as [|x a IH]; simpl; [reflexivity | now rewrite IH].
Qed.

(** *** The entry delimiter *)

Lemma re_entry_no_overlap : no_overlap re_entry.
Proof.
  intros s len H k Hk. unfold re_entry in H.
  destruct (strip_prefix ENTRY_TAG s) as [r|] eqn:E; [|discriminate].
  injection H as <-. apply strip_prefix_Some in E. subst s.
  simpl in Hk.
  destruct k as [|[|[|[|[|[|[|k]]]]]]]; try lia; reflexivity.
Qed.

Lemma entry_count_everywhere (s : jsstring) :
  length (matches_everywhere re_entry s) = occurrences ENTRY_TAG s.
Proof.
  induction s as [|c s IH]; [reflexivity|].
  cbn [matches_everywhere occurrences]. unfold re_entry at 1.
  destruct (strip_prefix ENTRY_TAG (c :: s)); simpl; now rewrite IH.
Qed.

Lemma paperCount_occurrences (s : jsstring) :
  paperCount s = occurrences ENTRY_TAG s.
Proof.
  unfold paperCount.
  rewrite (match_all_everywhere re_entry re_entry_no_overlap).
  apply entry_count_everywhere.
Qed.

(** *** The title elements *)

Lemma re_title_title_at (s : jsstring) :
  re_title s =
  match title_at s with
  | Some body => Some (length TITLE_OPEN + length body + length TITLE_CLOSE)%nat
  | None => None
  end.
Proof.
  unfold re_title, title_at.
  destruct (strip_prefix TITLE_OPEN s) as [r|]; [|reflexivity].
  destruct (span not_lt r) as [body r']; cbn [fst snd].
  destruct body; [reflexivity|].
  now destruct (strip_prefix TITLE_CLOSE r').
Qed.

Lemma title_at_Some (s body : jsstring) :
  title_at s = Some body ->
  body <> [] /\ forallb not_lt body = true
  /\ exists r, s = TITLE_OPEN ++ body ++ TITLE_CLOSE ++ r.
Proof.
  unfold title_at.
  destruct (strip_prefix TITLE_OPEN s) as [r|] eqn:E; [|discriminate].
  pose proof (span_app not_lt r) as Hr.
  pose proof (span_fst_all not_lt r) as Hall.
  destruct (fst (span not_lt r)) as [|b bs] eqn:Eb; [discriminate|].
  destruct (strip_prefix TITLE_CLOSE (snd (span not_lt r))) as [r'|] eqn:Ec;
    [|discriminate].
  intros [= <-]. split; [discriminate|]. split; [exact Hall|].
  apply strip_prefix_Some in E, Ec. exists r'.
  rewrite E, Hr, Ec. reflexivity.
Qed.

Lemma re_title_head (c : N) (s : jsstring) :
  c <> LT -> re_title (c :: s) = None.
Proof.
  intros H. unfold re_title, TITLE_OPEN. cbn [strip_prefix].
  destruct (N.eqb_spec 60 c) as [E|_]; [|reflexivity].
  exfalso. apply H. now rewrite <- E.
Qed.

Lemma re_title_inside (body r : jsstring) :
  forallb not_lt body = true ->
  forall j, (j < length body + length TITLE_CLOSE)%nat ->
    re_title (skipn j (body ++ TITLE_CLOSE ++ r)) = None.
Proof.
  induction body as [|b body IH]; intros Hb j Hj.
  - simpl in Hj.
    destruct j as [|[|[|[|[|[|[|[|j]]]]]]]]; try lia; reflexivity.
  - simpl in Hb. apply andb_true_iff in Hb as [Hb Hbody].
    destruct j as [|j]; simpl.
    + apply re_title_head. unfold not_lt in Hb.
      intros ->. now rewrite N.eqb_refl in Hb.
    + apply IH; [exact Hbody | simpl in *; lia].
Qed.

Lemma re_title_no_overlap : no_overlap re_title.
Proof.
  intros s len H k Hk. rewrite re_title_title_at in H.
  destruct (title_at s) as [body|] eqn:E; [|discriminate].
  injection H as <-.
  destruct (title_at_Some s body E) as (_ & Hb & r & ->).
  destruct k as [|[|[|[|[|[|[|j]]]]]]]; try lia; try reflexivity.
  change (re_title (skipn j (body ++ TITLE_CLOSE ++ r)) = None).
  apply re_title_inside; [exact Hb|]. simpl in *. lia.
Qed.

(** Removing the tags from a matched title element leaves its text. *)
Lemma replace_tags_text (body rest : jsstring) :
  forallb not_lt body = true ->
  replace_all re_title_tag [] 0 (body ++ rest)
  = body ++ replace_all re_title_tag [] 0 rest.
Proof.
  induction body as [|b body IH]; intros Hb; [reflexivity|].
  simpl in Hb. apply andb_true_iff in Hb as [Hb Hbody].
  unfold not_lt in Hb. apply negb_true_iff in Hb.
  cbn [app replace_all]. unfold re_title_tag at 1. rewrite Hb.
  now rewrite IH.
Qed.

Lemma strip_title_tags (body : jsstring) :
  forallb not_lt body = true ->
  replace_all re_title_tag [] 0 (TITLE_OPEN ++ body ++ TITLE_CLOSE) = body.
Proof.
  intros Hb.
  change (replace_all re_title_tag [] 0 (TITLE_OPEN ++ body ++ TITLE_CLOSE))
    with (replace_all re_title_tag [] 0 (body ++ TITLE_CLOSE)).
  rewrite (replace_tags_text body TITLE_CLOSE Hb).
  change (replace_all re_title_tag [] 0 TITLE_CLOSE) with (@nil N).
  apply app_nil_r.
Qed.

Lemma titles_everywhere (s : jsstring) :
  map (replace_all re_title_tag [] 0) (matches_everywhere re_title s)
  = delimited_titles s.
Proof.
  induction s as [|c s IH]; [reflexivity|].
  cbn [matches_everywhere delimited_titles].
  rewrite re_title_title_at.
  destruct (title_at (c :: s)) as [body|] eqn:E; [|exact IH].
  destruct (title_at_Some _ _ E) as (_ & Hb & r & Hs).
  change (length TITLE_OPEN + length body + length TITLE_CLOSE)%nat
    with (S (6 + length body + length TITLE_CLOSE)).
  cbn [map]. rewrite IH. f_equal.
  rewrite Hs.
  replace (S (6 + length body + length TITLE_CLOSE))
    with (length (TITLE_OPEN ++ body ++ TITLE_CLOSE))
    by (rewrite !length_app; simpl; lia).
  replace (TITLE_OPEN ++ body ++ TITLE_CLOSE ++ r)
    with ((TITLE_OPEN ++ body ++ TITLE_CLOSE) ++ r)
    by (now rewrite <- !app_assoc).
  rewrite firstn_length_app. now apply strip_title_tags.
Qed.

(** *** Runs of whitespace *)

Lemma collapse_runs_replace (s : jsstring) :
  replace_all re_ws_run [32] 0 s = collapse_runs false s
  /\ replace_all re_ws_run [32] (length (fst (span is_ws s))) s
     = collapse_runs true s.
Proof.
  induction s as [|c s [IH0 IH1]]; [split; reflexivity|].
  cbn [replace_all collapse_runs span]. unfold re_ws_run.
  cbn [span]. destruct (is_ws c) eqn:Hc.
  - destruct (span is_ws s) as [a b] eqn:Es. cbn [fst length] in *.
    split; [|exact IH1]. cbn [app]. f_equal. exact IH1.
  - cbn [fst length]. split; (f_equal; exact IH0).
Qed.

(** ** The summary of a literature search result *)

Lemma paperTitles_delimited (S : jsstring) :
  paperTitles S
  = map (fun t => collapse_runs false (trim t))
      (firstn 3 (skipn 1 (delimited_titles S))).
Proof.
  unfold paperTitles, titleMatches.
  rewrite (match_all_everywhere re_title re_title_no_overlap S 0).
  change (skipn 0 S) with S.
  rewrite <- titles_everywhere.
  rewrite skipn_map, firstn_map, map_map.
  apply map_ext. intros t. unfold clean_title.
  apply (proj1 (collapse_runs_replace _)).
Qed.

Lemma result_message_summary (S : jsstring) :
  result_message ARXIV_SEARCH (JStr S) = summary_of_matches S.
Proof.
  unfold result_message, summary_of_matches.
  rewrite eqb_str_refl, paperTitles_delimited, paperCount_occurrences.
  now destruct (map _ _).
Qed.

(** *** The wording of the design document *)

Lemma strip_start_dropWhile (s : jsstring) : strip_start s = dropWhile is_ws s.
Proof.
  induction s as [|c s IH]; [reflexivity|].
  cbn [strip_start dropWhile]. now rewrite IH.
Qed.

Lemma dropWhile_snoc (f : N -> bool) (l : jsstring) (c : N) :
  dropWhile f (l ++ [c])
  = match dropWhile f l with
    | [] => if f c then [] else [c]
    | kept => kept ++ [c]
    end.
Proof.
  induction l as [|x l IH]; cbn [app dropWhile]; [reflexivity|].
  destruct (f x); [exact IH | reflexivity].
Qed.

Lemma strip_end_rev (s : jsstring) :
  strip_end s = rev (dropWhile is_ws (rev s)).
Proof.
  induction s as [|c s IH]; [reflexivity|].
  cbn [strip_end rev]. rewrite dropWhile_snoc, IH.
  destruct (dropWhile is_ws (rev s)) as [|x kept].
  - cbn [rev]. now destruct (is_ws c).
  - rewrite rev_app_distr. cbn [rev app].
    now destruct (rev kept ++ [x]) eqn:E; [apply app_eq_nil in E as [_ E]|].
Qed.

Lemma trim_strip (s : jsstring) : trim s = strip_end (strip_start s).
Proof.
  unfold trim. now rewrite strip_end_rev, strip_start_dropWhile.
Qed.

Lemma before_close_Some (r body : jsstring) :
  before_close r = Some body ->
  exists rest, r = body ++ TITLE_CLOSE ++ rest.
Proof.
  revert body; induction r as [|c r IH]; intros body; [discriminate|].
  cbn [before_close].
  destruct (strip_prefix TITLE_CLOSE (c :: r)) as [rest|] eqn:E.
  - intros [= <-]. apply strip_prefix_Some in E. now exists rest.
  - destruct (before_close r) as [b|]; [|discriminate].
    intros [= <-]. destruct (IH b eq_refl) as [rest ->]. now exists rest.
Qed.

Lemma before_close_found (body rest : jsstring) :
  before_close (body ++ TITLE_CLOSE ++ rest) <> None.
Proof.
  induction body as [|c body IH].
  - pose proof (proj2 (strip_prefix_Some TITLE_CLOSE _ rest) eq_refl) as H.
    cbn [app]. destruct (TITLE_CLOSE ++ rest) as [|c l]; [discriminate H|].
    cbn [before_close]. now rewrite H.
  - cbn [app before_close].
    destruct (strip_prefix TITLE_CLOSE _); [discriminate|].
    now destruct (before_close (body ++ TITLE_CLOSE ++ rest)).
Qed.

Lemma span_plain (body rest : jsstring) :
  forallb not_lt body = true ->
  span not_lt (body ++ TITLE_CLOSE ++ rest) = (body, TITLE_CLOSE ++ rest).
Proof.
  induction body as [|c body IH]; intros H; [reflexivity|].
  cbn [forallb] in H. apply andb_true_iff in H as [Hc Hb].
  cbn [app span]. now rewrite Hc, IH.
Qed.

Lemma before_close_plain (body rest : jsstring) :
  forallb not_lt body = true ->
  before_close (body ++ TITLE_CLOSE ++ rest) = Some body.
Proof.
  induction body as [|c body IH]; intros H.
  - pose proof (proj2 (strip_prefix_Some TITLE_CLOSE _ rest) eq_refl) as Hc.
    cbn [app]. destruct (TITLE_CLOSE ++ rest) as [|x l]; [discriminate Hc|].
    cbn [before_close]. now rewrite Hc.
  - cbn [forallb] in H. apply andb_true_iff in H as [Hc Hb].
    cbn [app before_close]. rewrite (IH Hb).
    unfold not_lt in Hc. apply negb_true_iff in Hc.
    cbn [strip_prefix TITLE_CLOSE]. rewrite N.eqb_sym.
    change LT with 60 in Hc. now rewrite Hc.
Qed.

(** At a position where [<title>] occurs, the pattern of the source
    finds the text up to the next [</title>] when that text is not empty
    and holds no ['<'], and finds nothing otherwise. *)
Lemma title_at_substring (s r : jsstring) :
  strip_prefix TITLE_OPEN s = Some r ->
  title_at s
  = match before_close r with
    | Some body => if plain_title body then Some body else None
    | None => None
    end.
Proof.
  intros Hs. destruct (before_close r) as [body|] eqn:E.
  - destruct (plain_title body) eqn:Hp.
    + apply before_close_Some in E as [rest ->].
      unfold title_at. rewrite Hs.
      destruct body as [|b body]; [discriminate|].
      rewrite (span_plain (b :: body) rest Hp). cbn [fst snd].
      now rewrite (proj2 (strip_prefix_Some TITLE_CLOSE _ rest) eq_refl).
    + destruct (title_at s) as [b|] eqn:Et; [|reflexivity].
      apply title_at_Some in Et as (Hne & Hall & rest & ->).
      apply strip_prefix_Some in Hs. apply app_inv_head in Hs. subst r.
      rewrite (before_close_plain b rest Hall) in E. injection E as <-.
      destruct b; [congruence|]. cbn [plain_title] in Hp. congruence.
  - destruct (title_at s) as [body|] eqn:Et; [|reflexivity].
    apply title_at_Some in Et as (_ & _ & rest & ->).
    apply strip_prefix_Some in Hs. apply app_inv_head in Hs. subst r.
    now apply before_close_found in E.
Qed.

(** The titles the scan of the source finds are the title-delimited
    substrings that are not empty and hold no ['<']. *)
Lemma delimited_titles_plain (s : jsstring) :
  delimited_titles s = filter plain_title (title_substrings s).
Proof.
  induction s as [|c s IH]; [reflexivity|].
  cbn [title_substrings delimited_titles].
  destruct (strip_prefix TITLE_OPEN (c :: s)) as [r|] eqn:E.
  - rewrite (title_at_substring (c :: s) r E).
    destruct (before_close r) as [body|]; [|exact IH].
    cbn [filter]. destruct (plain_title body); now rewrite IH.
  - unfold title_at. rewrite E. exact IH.
Qed.

Lemma filter_all_true (A : Type) (f : A -> bool) (l : list A) :
  forallb f l = true -> filter f l = l.
Proof.
  induction l as [|x l IH]; cbn [forallb filter]; [reflexivity|].
  intros H. apply andb_true_iff in H as [-> Hl]. now rewrite IH.
Qed.

Lemma result_message_titles (S : jsstring) :
  result_message ARXIV_SEARCH (JStr S)
  = summary_text (occurrences ENTRY_TAG S)
      (filter plain_title (title_substrings S)).
Proof.
  rewrite result_message_summary.
  unfold summary_of_matches, summary_text, trimmed_and_collapsed, BULLET_SEP.
  rewrite delimited_titles_plain.
  now rewrite (map_ext _ (fun t => collapse_runs false (strip_end (strip_start t)))
                 (fun t => f_equal (collapse_runs false) (trim_strip t))).
Qed.

(** Where every title-delimited substring is not empty and holds no
    ['<'], the message is the summary as the design document words it. *)
Lemma summary_as_claimed (S : jsstring) :
  forallb plain_title (title_substrings S) = true ->
  result_message ARXIV_SEARCH (JStr S) = claimed_summary S.
Proof.
  intros H. rewrite result_message_titles. unfold claimed_summary.
  now rewrite (filter_all_true _ _ _ H).
Qed.

(** C3.  For a [tool-result] chunk of the tool [arxiv_search] whose output
    is a string [S], the message of the [tool_result] event that is
    enqueued is the summary of the design document taken over the
    title-delimited substrings that are not empty and hold no ['<']: the
    number of occurrences of [<entry>], and those substrings after the
    first, at most three of them, trimmed and with their whitespace
    runs collapsed, joined by a bullet between two spaces; without such
    a title the count alone. *)
Theorem arxiv_summary_message (st : bool) (c : Chunk.t) (S : jsstring) :
  Chunk.type c = str "tool-result" ->
  Chunk.toolName c = JStr ARXIV_SEARCH ->
  Chunk.output c = JStr S ->
  transform st c
  = (st, [tool_result ARXIV_SEARCH
            (summary_text (occurrences ENTRY_TAG S)
               (filter plain_title (title_substrings S)))
            (string_or_undefined (Chunk.toolCallId c)) (Chunk.input c)
            (JStr S)]).
Proof.
  intros Hty Hname Hout. unfold transform.
  rewrite Hty, Hname, Hout.
  change (is_start (str "tool-result")) with false.
  change (str "tool-result" =s str "tool-call") with false.
  change (str "tool-result" =s str "tool-result") with true.
  cbn [nullish js_String]. cbv iota.
  now rewrite result_message_titles.
Qed.

Lemma arxiv_summary_message_witness :
  transform true (tool_result_chunk ARXIV_SEARCH (JStr sample_feed))
  = (true,
     [tool_result ARXIV_SEARCH
        (str "Found 2 papers. Top: Denoising Diffusion Models"
           ++ [32; 0x2022; 32] ++ str "Score Matching")
        (Some (str "call_1"))
        (JObj [(str "query", JStr (str "diffusion models"));
               (str "maxResults", JNum 2)])
        (JStr sample_feed)]).
Proof.
  exact (arxiv_summary_message true
           (tool_result_chunk ARXIV_SEARCH (JStr sample_feed)) sample_feed
           eq_refl eq_refl eq_refl).
Defined.

(** With an empty title in the output the two differ: the design
    document's wording lists the empty title, the pattern of the source
    passes it over. *)
Lemma empty_title_counterexample :
  snd (transform false
         (tool_result_chunk ARXIV_SEARCH (JStr feed_with_empty_title)))
  = [tool_result ARXIV_SEARCH
       (str "Found 0 papers. Top: A" ++ [32; 0x2022; 32] ++ str "B")
       (Some (str "call_1")) sample_input (JStr feed_with_empty_title)]
  /\ claimed_summary feed_with_empty_title
     = str "Found 0 papers. Top: " ++ [32; 0x2022; 32] ++ str "A"
         ++ [32; 0x2022; 32] ++ str "B"
  /\ result_message ARXIV_SEARCH (JStr feed_with_empty_title)
     <> claimed_summary feed_with_empty_title.
Proof.
  split; [reflexivity|]. split; [reflexivity|].
  intros H. vm_compute in H. discriminate H.
Qed.

Example summary_of_sample_feed :
  claimed_summary sample_feed
  = str "Found 2 papers. Top: Denoising Diffusion Models"
      ++ [32; 0x2022; 32] ++ str "Score Matching".
Proof. reflexivity. Qed.

(** *** The placeholder of a failed request *)

Lemma digits_no_lt (u : Decimal.uint) :
  forallb not_lt (digits_of_uint u) = true.
Proof.
  induction u; simpl; auto.
Qed.

Lemma status_placeholder_no_lt (status : N) :
  forallb not_lt (status_placeholder status) = true.
Proof.
  unfold status_placeholder. rewrite forallb_app.
  apply andb_true_iff. split; [reflexivity | apply digits_no_lt].
Qed.

Lemma re_entry_head (c : N) (s : jsstring) :
  c <> LT -> re_entry (c :: s) = None.
Proof.
  intros H. unfold re_entry, ENTRY_TAG. cbn [strip_prefix].
  destruct (N.eqb_spec 60 c) as [E|_]; [|reflexivity].
  exfalso. apply H. now rewrite <- E.
Qed.

(** A text without ['<'] holds no match of a pattern that starts with it. *)
Lemma match_all_no_lt (re : matcher) :
  (forall c s, c <> LT -> re (c :: s) = None) ->
  forall s k, forallb not_lt s = true -> match_all re k s = [].
Proof.
  intros Hre s; induction s as [|c s IH]; intros k Hs; [reflexivity|].
  simpl in Hs. apply andb_true_iff in Hs as [Hc Hs].
  destruct k as [|k]; cbn [match_all]; [|now apply IH].
  rewrite Hre; [now apply IH|].
  unfold not_lt in Hc. intros ->. now rewrite N.eqb_refl in Hc.
Qed.






(** ** JSON: strings *)

Lemma hex_value_digit (d : N) : d < 16 -> hex_value (hex_digit d) = Some d.
Proof.
  intros H. unfold hex_digit, hex_value, is_digit.
  destruct (N.ltb_spec d 10).
  - replace ((48 <=? 48 + d) && (48 + d <=? 57)) with true.
    + f_equal. lia.
    + symmetry. apply andb_true_iff. split; apply N.leb_le; lia.
  - replace ((48 <=? 87 + d) && (87 + d <=? 57)) with false.
    + replace ((97 <=? 87 + d) && (87 + d <=? 102)) with true.
      * f_equal. lia.
      * symmetry. apply andb_true_iff. split; apply N.leb_le; lia.
    + symmetry. apply andb_false_iff. right. apply N.leb_gt. lia.
Qed.

Lemma hex4_value_hex4 (c : N) :
  c < 65536 ->
  hex4_value (hex_digit (c / 4096 mod 16)) (hex_digit (c / 256 mod 16))
    (hex_digit (c / 16 mod 16)) (hex_digit (c mod 16)) = Some c.
Proof.
  intros H. unfold hex4_value.
  rewrite !hex_value_digit by (apply N.mod_lt; discriminate).
  f_equal.
  pose proof (N.div_mod c 16 ltac:(discriminate)) as E0.
  pose proof (N.div_mod (c / 16) 16 ltac:(discriminate)) as E1.
  pose proof (N.div_mod (c / 16 / 16) 16 ltac:(discriminate)) as E2.
  rewrite N.Div0.div_div in E1, E2.
  rewrite N.Div0.div_div in E2.
  change (16 * 16) with 256 in *. change (256 * 16) with 4096 in *.
  assert (c / 4096 < 16) as Hq
    by (apply N.Div0.div_lt_upper_bound; exact H).
  rewrite (N.mod_small (c / 4096) 16 Hq) in *.
  lia.
Qed.

Lemma parse_string_literal (c : N) (rest : jsstring) :
  c <> 34 -> c <> 92 -> 32 <= c ->
  parse_string_body (c :: rest) = prepend c (parse_string_body rest).
Proof.
  intros H1 H2 H3. cbn [parse_string_body].
  apply N.eqb_neq in H1, H2. rewrite H1, H2.
  apply N.ltb_ge in H3. now rewrite H3.
Qed.

Lemma parse_string_unicode (c : N) (rest : jsstring) :
  c < 65536 ->
  parse_string_body (92 :: 117 :: hex4 c ++ rest)
  = prepend c (parse_string_body rest).
Proof.
  intros H. unfold hex4. cbn [app parse_string_body].
  change (92 =? 34) with false. change (92 =? 92) with true.
  change (117 =? 34) with false. change (117 =? 92) with false.
  change (117 =? 47) with false. change (117 =? 98) with false.
  change (117 =? 102) with false. change (117 =? 110) with false.
  change (117 =? 114) with false. change (117 =? 116) with false.
  change (117 =? 117) with true. cbv iota.
  now rewrite hex4_value_hex4.
Qed.

Lemma parse_string_escape (c : N) (rest : jsstring) :
  parse_string_body (escape_unit c ++ rest)
  = prepend c (parse_string_body rest).
Proof.
  unfold escape_unit.
  destruct (N.eqb_spec c 8) as [-> | H8]; [reflexivity|].
  destruct (N.eqb_spec c 9) as [-> | H9]; [reflexivity|].
  destruct (N.eqb_spec c 10) as [-> | H10]; [reflexivity|].
  destruct (N.eqb_spec c 12) as [-> | H12]; [reflexivity|].
  destruct (N.eqb_spec c 13) as [-> | H13]; [reflexivity|].
  destruct (N.eqb_spec c 34) as [-> | H34]; [reflexivity|].
  destruct (N.eqb_spec c 92) as [-> | H92]; [reflexivity|].
  destruct ((c <? 32) || is_high c || is_low c) eqn:E.
  - apply parse_string_unicode.
    unfold is_high, is_low in E.
    repeat (apply orb_true_iff in E as [E | E]).
    + apply N.ltb_lt in E. lia.
    + apply andb_true_iff in E as [_ E]. apply N.leb_le in E. lia.
    + apply andb_true_iff in E as [_ E]. apply N.leb_le in E. lia.
  - apply orb_false_iff in E as [E _]. apply orb_false_iff in E as [E _].
    apply N.ltb_ge in E. now apply parse_string_literal.
Qed.

Lemma surrogate_literal (c : N) (rest : jsstring) :
  is_high c = true \/ is_low c = true ->
  parse_string_body (c :: rest) = prepend c (parse_string_body rest).
Proof.
  unfold is_high, is_low. intros H.
  assert (0xD800 <= c) as Hc.
  { destruct H as [H | H]; apply andb_true_iff in H as [H _];
      apply N.leb_le in H; lia. }
  apply parse_string_literal; lia.
Qed.

(** The text of a string between quotes is read back as the string. *)
Lemma parse_quote_units (s : jsstring) (paired : bool) (rest : jsstring) :
  parse_string_body (quote_units paired s ++ 34 :: rest) = Some (s, rest).
Proof.
  revert paired; induction s as [|c s IH]; intros paired; [reflexivity|].
  cbn [quote_units].
  destruct (is_high c && match s with d :: _ => is_low d | [] => false end)
    eqn:E1.
  - apply andb_true_iff in E1 as [E1 _].
    cbn [app]. rewrite surrogate_literal by (now left). now rewrite IH.
  - destruct (is_low c && paired) eqn:E2.
    + apply andb_true_iff in E2 as [E2 _].
      cbn [app]. rewrite surrogate_literal by (now right). now rewrite IH.
    + rewrite <- app_assoc, parse_string_escape. now rewrite IH.
Qed.

Lemma parse_QuoteJSONString (s rest : jsstring) :
  exists body, QuoteJSONString s ++ rest = 34 :: body
               /\ parse_string_body body = Some (s, rest).
Proof.
  exists (quote_units false s ++ 34 :: rest). split.
  - unfold QuoteJSONString. cbn [app]. now rewrite <- app_assoc.
  - apply parse_quote_units.
Qed.

(** ** JSON: numbers *)

Lemma parse_uint_digits (u : Decimal.uint) (rest : jsstring) :
  starts_with_digit rest = false ->
  parse_uint (digits_of_uint u ++ rest) = (u, rest).
Proof.
  intros H. induction u; cbn [digits_of_uint app];
    try (cbn [parse_uint]; rewrite IHu; reflexivity).
  destruct rest as [|c rest]; [reflexivity|].
  cbn [parse_uint]. simpl in H. now rewrite H.
Qed.

Lemma well_formed_to_uint (n : N) : well_formed_int (N.to_uint n) = true.
Proof.
  rewrite <- (DecimalN.Unsigned.of_to n) at 1.
  rewrite DecimalN.Unsigned.to_of.
  unfold Decimal.unorm.
  pose proof (DecimalFacts.nzhead_nonzero (N.to_uint n)) as H.
  destruct (Decimal.nzhead (N.to_uint n)) as [|u|u|u|u|u|u|u|u|u|u];
    try reflexivity.
  now destruct (H u).
Qed.

Lemma delimited_no_digit (rest : jsstring) :
  delimited rest = true -> starts_with_digit rest = false.
Proof.
  destruct rest as [|c rest]; [reflexivity|]. simpl.
  destruct (is_digit c); [discriminate | reflexivity].
Qed.

Lemma digits_head (u : Decimal.uint) (rest : jsstring) :
  u <> Decimal.Nil ->
  exists c s, digits_of_uint u ++ rest = c :: s /\ is_digit c = true.
Proof.
  destruct u; intros H; try contradiction; cbn [digits_of_uint app]; eauto.
Qed.

Lemma to_uint_nonnil (n : N) : N.to_uint n <> Decimal.Nil.
Proof.
  pose proof (well_formed_to_uint n) as H.
  intros E. rewrite E in H. discriminate.
Qed.

Lemma parse_number_of_N (n : N) (rest : jsstring) :
  delimited rest = true ->
  parse_number (N_to_string n ++ rest) = Some (Z.of_N n, rest).
Proof.
  intros H. unfold parse_number, N_to_string.
  destruct (digits_head (N.to_uint n) rest (to_uint_nonnil n))
    as (c & s & E & Hc).
  rewrite E.
  assert ((c =? 45) = false) as ->.
  { unfold is_digit in Hc. apply andb_true_iff in Hc as [Hc _].
    apply N.leb_le in Hc. apply N.eqb_neq. lia. }
  rewrite <- E, parse_uint_digits by now apply delimited_no_digit.
  now rewrite well_formed_to_uint, H, DecimalN.Unsigned.of_to.
Qed.

Lemma parse_number_Z (z : Z) (rest : jsstring) :
  delimited rest = true ->
  parse_number (Z_to_string z ++ rest) = Some (z, rest).
Proof.
  intros H. destruct z as [|p|p]; unfold Z_to_string.
  - apply (parse_number_of_N 0 rest H).
  - apply (parse_number_of_N (Npos p) rest H).
  - unfold parse_number. cbn [app]. change (45 =? 45) with true. cbv iota.
    unfold N_to_string.
    rewrite parse_uint_digits by now apply delimited_no_digit.
    now rewrite well_formed_to_uint, H, DecimalN.Unsigned.of_to.
Qed.

(** ** JSON: values *)

Lemma value_start_not_ws (c : N) :
  value_start c = true ->
  json_ws c = false /\ (c =? 93) = false /\ (c =? 125) = false
  /\ (c =? 44) = false.
Proof.
  unfold value_start, json_ws, is_digit. intros H.
  assert (c = 110 \/ c = 116 \/ c = 102 \/ c = 34 \/ c = 91 \/ c = 123
          \/ c = 45 \/ (48 <= c <= 57)) as Hc.
  { repeat (apply orb_true_iff in H as [H | H]);
      try (apply N.eqb_eq in H; tauto).
    apply andb_true_iff in H as [H1 H2].
    apply N.leb_le in H1, H2. tauto. }
  repeat split;
    repeat (apply orb_false_iff; split); apply N.eqb_neq; lia.
Qed.

Lemma skip_ws_head (c : N) (s : jsstring) :
  json_ws c = false -> skip_ws (c :: s) = c :: s.
Proof.
  intros H. unfold skip_ws. cbn [dropWhile]. now rewrite H.
Qed.

Lemma Z_to_string_head (z : Z) (rest : jsstring) :
  exists c s, Z_to_string z ++ rest = c :: s
              /\ (is_digit c || (c =? 45)) = true.
Proof.
  destruct z as [|p|p]; unfold Z_to_string.
  - exists 48, rest. split; reflexivity.
  - destruct (digits_head (N.to_uint (N.pos p)) rest (to_uint_nonnil _))
      as (c & s & E & Hc).
    exists c, s. split; [exact E | now rewrite Hc].
  - eexists 45, _. split; reflexivity.
Qed.

Lemma stringify_head (v : JsValue) (s rest : jsstring) :
  stringify v = Some s ->
  exists c s', s ++ rest = c :: s' /\ value_start c = true.
Proof.
  destruct v as [| |[|]|z|t|elems|props]; cbn [stringify]; intros [= <-];
    try (eexists _, _; split; reflexivity).
  destruct (Z_to_string_head z rest) as (c & s' & E & Hc).
  exists c, s'. split; [exact E|].
  unfold value_start.
  apply orb_true_iff in Hc as [Hc | Hc]; rewrite Hc;
    now rewrite ?orb_true_r.
Qed.

Lemma elem_text_head (e : JsValue) (rest : jsstring) :
  exists c s', elem_text e ++ rest = c :: s' /\ value_start c = true.
Proof.
  unfold elem_text. destruct (stringify e) as [s|] eqn:E.
  - now apply (stringify_head e).
  - eexists _, _; split; reflexivity.
Qed.

Lemma join_arr_tail (e : JsValue) (es : list JsValue) :
  join [44] (map elem_text (e :: es)) ++ [93] = elem_text e ++ arr_tail es.
Proof.
  revert e; induction es as [|e' es IH]; intros e.
  - reflexivity.
  - change (join [44] (map elem_text (e :: e' :: es)))
      with (elem_text e ++ [44] ++ join [44] (map elem_text (e' :: es))).
    rewrite <- !app_assoc, IH. reflexivity.
Qed.

Lemma stringify_JArr (elems : list JsValue) :
  stringify (JArr elems)
  = Some (91 :: match elems with
                | [] => [93]
                | e :: es => elem_text e ++ arr_tail es
                end).
Proof.
  cbn [stringify]. do 2 f_equal.
  destruct elems as [|e es]; [reflexivity|].
  apply (join_arr_tail e es).
Qed.

Lemma join_obj_body (props : list (jsstring * JsValue)) :
  obj_body true props = join [44] (member_texts props) ++ [125]
  /\ obj_body false props
     = match member_texts props with
       | [] => [125]
       | ms => 44 :: join [44] ms ++ [125]
       end.
Proof.
  induction props as [|[k v] ps [IHt IHf]]; [split; reflexivity|].
  unfold member_texts in *. cbn [obj_body flat_map fst snd].
  destruct (stringify v) as [s|]; [|split; assumption].
  cbn [app]. rewrite IHf.
  destruct (flat_map _ ps) as [|m ms]; cbn [join app];
    rewrite <- ?app_assoc; split; reflexivity.
Qed.

Lemma stringify_JObj (props : list (jsstring * JsValue)) :
  stringify (JObj props) = Some (123 :: obj_body true props).
Proof.
  cbn [stringify]. do 2 f_equal.
  symmetry. apply (proj1 (join_obj_body props)).
Qed.

Lemma arr_tail_delimited (es : list JsValue) (rest : jsstring) :
  delimited (arr_tail es ++ rest) = true.
Proof.
  destruct es; reflexivity.
Qed.

Lemma obj_body_delimited (ps : list (jsstring * JsValue)) (rest : jsstring) :
  delimited (obj_body false ps ++ rest) = true.
Proof.
  induction ps as [|[k v] ps IH]; [reflexivity|].
  cbn [obj_body]. destruct (stringify v); [reflexivity | exact IH].
Qed.

Lemma arr_tail_length (es : list JsValue) : (1 <= length (arr_tail es))%nat.
Proof.
  destruct es; simpl; lia.
Qed.

Lemma obj_body_length (first : bool) (ps : list (jsstring * JsValue)) :
  (1 <= length (obj_body first ps))%nat.
Proof.
  revert first; induction ps as [|[k v] ps IH]; intros first; [simpl; lia|].
  cbn [obj_body]. destruct (stringify v); [|apply IH].
  rewrite !length_app. cbn [length]. rewrite length_app.
  specialize (IH false). lia.
Qed.

Lemma image_step_defined (acc : list (jsstring * JsValue)) (k : jsstring)
    (v : JsValue) (s : jsstring) :
  stringify v = Some s ->
  image_step acc (k, v) = obj_set acc k (json_image v).
Proof.
  unfold image_step. cbn [fst snd]. now destruct v.
Qed.

Lemma parse_member_text (value : jsstring -> option (JsValue * jsstring))
    (k rest : jsstring) :
  parse_member value (QuoteJSONString k ++ 58 :: rest)
  = match value rest with
    | Some (v, r) => Some ((k, v), r)
    | None => None
    end.
Proof.
  destruct (parse_QuoteJSONString k (58 :: rest)) as (body & E & Hb).
  unfold parse_member. rewrite E, skip_ws_head by reflexivity.
  change (34 =? 34) with true. cbv iota. rewrite Hb.
  rewrite skip_ws_head by reflexivity.
  change (58 =? 58) with true. cbv iota. reflexivity.
Qed.

Lemma reads_elem (f : nat) (e : JsValue) (rest : jsstring) :
  reads_values f -> (length (elem_text e) < f)%nat ->
  delimited rest = true ->
  parse_value f (elem_text e ++ rest) = Some (elem_image e, rest).
Proof.
  intros Hv Hlen Hrest. unfold elem_text in *.
  destruct (stringify e) as [s|] eqn:E.
  - rewrite (Hv e s rest E Hlen Hrest).
    destruct e; [discriminate E | reflexivity..].
  - destruct e as [| |[|]| | | |]; try discriminate E.
    destruct f as [|f]; [simpl in Hlen; lia | reflexivity].
Qed.

Lemma reads_elems_step (f : nat) :
  reads_values f -> reads_elems f -> reads_elems (S f).
Proof.
  intros Hv He es acc rest Hlen.
  destruct es as [|e es]; cbn [arr_tail app parse_elems].
  - rewrite skip_ws_head by reflexivity.
    change (93 =? 93) with true. cbv iota.
    cbn [map]. now rewrite app_nil_r.
  - rewrite skip_ws_head by reflexivity.
    change (44 =? 93) with false. change (44 =? 44) with true. cbv iota.
    cbn [arr_tail length] in Hlen. rewrite length_app in Hlen.
    pose proof (arr_tail_length es) as H1.
    rewrite <- app_assoc.
    rewrite (reads_elem f e (arr_tail es ++ rest) Hv)
      by (try apply arr_tail_delimited; lia).
    rewrite He by lia. cbn [map]. now rewrite <- app_assoc.
Qed.

Lemma reads_members_step (f : nat) :
  reads_values f -> reads_members f -> reads_members (S f).
Proof.
  intros Hv Hm ps. induction ps as [|[k v] ps IH]; intros acc rest Hlen.
  - cbn [obj_body app parse_members].
    rewrite skip_ws_head by reflexivity.
    change (125 =? 125) with true. cbv iota. reflexivity.
  - cbn [obj_body fold_left] in *.
    destruct (stringify v) as [s|] eqn:E.
    + cbn [app parse_members]. rewrite skip_ws_head by reflexivity.
      change (44 =? 125) with false. change (44 =? 44) with true. cbv iota.
      rewrite (image_step_defined acc k v s E).
      cbn [app length] in Hlen. rewrite !length_app in Hlen.
      cbn [length] in Hlen. rewrite length_app in Hlen.
      pose proof (obj_body_length false ps) as H1.
      rewrite <- app_assoc. cbn [app]. rewrite <- app_assoc.
      rewrite parse_member_text.
      rewrite (Hv v s (obj_body false ps ++ rest) E)
        by (try apply obj_body_delimited; lia).
      apply Hm. lia.
    + replace (image_step acc (k, v)) with acc
        by (destruct v as [| |[|]| | | |]; try discriminate E; reflexivity).
      now apply IH.
Qed.

Lemma parse_value_number (f : nat) (c : N) (r : jsstring) :
  (is_digit c || (c =? 45)) = true ->
  parse_value (S f) (c :: r)
  = match parse_number (c :: r) with
    | Some (z, r') => Some (JNum z, r')
    | None => None
    end.
Proof.
  intros H.
  assert (c = 45 \/ 48 <= c <= 57) as Hc.
  { unfold is_digit in H. apply orb_true_iff in H as [H | H].
    - apply andb_true_iff in H as [H1 H2]. apply N.leb_le in H1, H2. lia.
    - apply N.eqb_eq in H. lia. }
  cbn [parse_value]. rewrite skip_ws_head.
  - replace (c =? 110) with false by (symmetry; apply N.eqb_neq; lia).
    replace (c =? 116) with false by (symmetry; apply N.eqb_neq; lia).
    replace (c =? 102) with false by (symmetry; apply N.eqb_neq; lia).
    replace (c =? 34) with false by (symmetry; apply N.eqb_neq; lia).
    replace (c =? 91) with false by (symmetry; apply N.eqb_neq; lia).
    replace (c =? 123) with false by (symmetry; apply N.eqb_neq; lia).
    reflexivity.
  - unfold json_ws.
    repeat (apply orb_false_iff; split); apply N.eqb_neq; lia.
Qed.

(** The members of an object, from its opening brace. *)
Lemma reads_object (f : nat) (ps : list (jsstring * JsValue)) (rest : jsstring) :
  reads_values f -> reads_members f ->
  (length (obj_body true ps) <= f)%nat ->
  parse_value (S f) (123 :: obj_body true ps ++ rest)
  = Some (JObj (fold_left image_step ps []), rest).
Proof.
  intros Hv Hm. induction ps as [|[k v] ps IH]; intros Hlen.
  - reflexivity.
  - cbn [obj_body fold_left] in *.
    destruct (stringify v) as [s|] eqn:E.
    + rewrite (image_step_defined [] k v s E).
      cbn [app length] in Hlen. rewrite !length_app in Hlen.
      cbn [length] in Hlen. rewrite length_app in Hlen.
      pose proof (obj_body_length false ps) as H1.
      destruct (parse_QuoteJSONString k
                  (58 :: s ++ obj_body false ps ++ rest)) as (body & Eb & _).
      cbn [parse_value]. rewrite skip_ws_head by reflexivity.
      change (123 =? 110) with false. change (123 =? 116) with false.
      change (123 =? 102) with false. change (123 =? 34) with false.
      change (123 =? 91) with false. change (123 =? 123) with true.
      cbv iota. cbn [app]. rewrite <- app_assoc. cbn [app].
      rewrite <- app_assoc.
      rewrite Eb at 1. rewrite skip_ws_head by reflexivity.
      change (34 =? 125) with false. cbv iota.
      rewrite parse_member_text.
      rewrite (Hv v s (obj_body false ps ++ rest) E)
        by (try apply obj_body_delimited; lia).
      apply Hm. lia.
    + replace (image_step [] (k, v)) with (@nil (jsstring * JsValue))
        by (destruct v as [| |[|]| | | |]; try discriminate E; reflexivity).
      now apply IH.
Qed.

Lemma reads_values_step (f : nat) :
  reads_values f -> reads_elems f -> reads_members f -> reads_values (S f).
Proof.
  intros Hv He Hm v s rest Hs Hlen Hrest.
  destruct v as [| |[|]|z|t|elems|props].
  - discriminate Hs.
  - injection Hs as <-. reflexivity.
  - injection Hs as <-. reflexivity.
  - injection Hs as <-. reflexivity.
  - cbn [stringify] in Hs. injection Hs as <-.
    destruct (Z_to_string_head z rest) as (c & r & E & Hc).
    rewrite E, (parse_value_number f c r Hc), <- E.
    now rewrite parse_number_Z.
  - cbn [stringify] in Hs. injection Hs as <-.
    unfold QuoteJSONString. cbn [app parse_value].
    rewrite skip_ws_head by reflexivity.
    change (34 =? 110) with false. change (34 =? 116) with false.
    change (34 =? 102) with false. change (34 =? 34) with true. cbv iota.
    rewrite <- app_assoc. cbn [app]. now rewrite parse_quote_units.
  - rewrite stringify_JArr in Hs. injection Hs as <-.
    cbn [app parse_value]. rewrite skip_ws_head by reflexivity.
    change (91 =? 110) with false. change (91 =? 116) with false.
    change (91 =? 102) with false. change (91 =? 34) with false.
    change (91 =? 91) with true. cbv iota.
    destruct elems as [|e es].
    + cbn [app]. rewrite skip_ws_head by reflexivity.
      change (93 =? 93) with true. reflexivity.
    + cbn [length] in Hlen. rewrite length_app in Hlen.
      pose proof (arr_tail_length es) as H1.
      rewrite <- app_assoc.
      destruct (elem_text_head e (arr_tail es ++ rest)) as (c & r & E & Hc).
      destruct (value_start_not_ws c Hc) as (Hws & H93 & _).
      rewrite E at 1. rewrite skip_ws_head by exact Hws.
      rewrite H93.
      rewrite (reads_elem f e (arr_tail es ++ rest) Hv)
        by (try apply arr_tail_delimited; lia).
      rewrite He by lia. reflexivity.
  - rewrite stringify_JObj in Hs. injection Hs as <-.
    cbn [length] in Hlen.
    apply reads_object; auto. lia.
Qed.

Lemma reads_all (f : nat) :
  reads_values f /\ reads_elems f /\ reads_members f.
Proof.
  induction f as [|f (Hv & He & Hm)].
  - repeat split.
    + intros v s rest _ H. lia.
    + intros es acc rest H. pose proof (arr_tail_length es). lia.
    + intros ps acc rest H. pose proof (obj_body_length false ps). lia.
  - repeat split.
    + now apply reads_values_step.
    + now apply reads_elems_step.
    + now apply reads_members_step.
Qed.

(** [JSON.parse] reads the text of a value, followed or not by a line
    feed, as the image of the value. *)
Lemma JSON_parse_stringify (v : JsValue) (s : jsstring) :
  stringify v = Some s ->
  JSON_parse s = Some (json_image v)
  /\ JSON_parse (s ++ [10]) = Some (json_image v).
Proof.
  intros Hs. unfold JSON_parse. split.
  - rewrite <- (app_nil_r s) at 2.
    rewrite (proj1 (reads_all (S (length s))) v s [] Hs) by (auto; lia).
    reflexivity.
  - rewrite (proj1 (reads_all (S (length (s ++ [10])))) v s [10] Hs).
    + reflexivity.
    + rewrite length_app. simpl. lia.
    + reflexivity.
Qed.

(** ** JSON: the fuel of [JSON_parse] is enough

    What is left after a value is no longer than the text, so a fuel
    above the length of the text is never used up: more fuel does not
    change the result. *)

Lemma skip_ws_length (s : jsstring) : (length (skip_ws s) <= length s)%nat.
Proof.
  unfold skip_ws. induction s as [|c s IH]; cbn [dropWhile]; [lia|].
  destruct (json_ws c); simpl; lia.
Qed.

Lemma strip_prefix_length (p s r : jsstring) :
  strip_prefix p s = Some r -> (length r <= length s)%nat.
Proof.
  intros H. apply strip_prefix_Some in H. subst s.
  rewrite length_app. lia.
Qed.

Lemma prepend_Some (c : N) (o : option (jsstring * jsstring))
    (t r : jsstring) :
  prepend c o = Some (t, r) -> exists t', o = Some (t', r).
Proof.
  destruct o as [[t' r']|]; [|discriminate]. intros [= _ <-]. eauto.
Qed.

Lemma parse_string_body_length (n : nat) :
  forall s t r, (length s <= n)%nat ->
    parse_string_body s = Some (t, r) -> (length r < length s)%nat.
Proof.
  induction n as [|n IH]; intros s t r Hn H.
  - destruct s; [discriminate H | simpl in Hn; lia].
  - destruct s as [|c s1]; [discriminate H|].
    cbn [parse_string_body] in H. cbn [length] in *.
    destruct (c =? 34); [injection H as _ <-; lia|].
    destruct (c =? 92).
    + destruct s1 as [|e s2]; [discriminate H|]. cbn [length] in *.
      repeat match type of H with
             | (if ?b then _ else _) = _ =>
                 destruct b;
                 [apply prepend_Some in H as [t' H];
                  apply IH in H; lia|]
             end.
      destruct (e =? 117); [|discriminate H].
      destruct s2 as [|a [|b [|c' [|d s3]]]]; try discriminate H.
      destruct (hex4_value a b c' d); [|discriminate H].
      apply prepend_Some in H as [t' H].
      apply IH in H; cbn [length] in *; lia.
    + destruct (c <? 32); [discriminate H|].
      apply prepend_Some in H as [t' H]. apply IH in H; lia.
Qed.

Lemma parse_uint_length (s : jsstring) :
  (length (snd (parse_uint s)) <= length s)%nat.
Proof.
  induction s as [|c s IH]; cbn [parse_uint]; [simpl; lia|].
  destruct (is_digit c); [|simpl; lia].
  destruct (parse_uint s) as [u r]. simpl in *. lia.
Qed.

Lemma parse_number_length (s : jsstring) (z : Z) (r : jsstring) :
  parse_number s = Some (z, r) -> (length r <= length s)%nat.
Proof.
  unfold parse_number.
  destruct s as [|c s]; [discriminate|].
  destruct (c =? 45).
  - pose proof (parse_uint_length s) as H.
    destruct (parse_uint s) as [u rest]. cbn [snd] in H.
    destruct (well_formed_int u && delimited rest); [|discriminate].
    intros [= _ <-]. simpl. lia.
  - pose proof (parse_uint_length (c :: s)) as H.
    destruct (parse_uint (c :: s)) as [u rest]. cbn [snd] in H.
    destruct (well_formed_int u && delimited rest); [|discriminate].
    now intros [= _ <-].
Qed.

Lemma parse_member_length (value : jsstring -> option (JsValue * jsstring))
    (s : jsstring) (kv : jsstring * JsValue) (r : jsstring) :
  shrinking value ->
  parse_member value s = Some (kv, r) -> (length r < length s)%nat.
Proof.
  intros Hv. unfold parse_member.
  pose proof (skip_ws_length s) as H0.
  destruct (skip_ws s) as [|c r0]; [discriminate|]. cbn [length] in H0.
  destruct (c =? 34); [|discriminate].
  destruct (parse_string_body r0) as [[k r1]|] eqn:E1; [|discriminate].
  apply (parse_string_body_length (length r0)) in E1; [|lia].
  pose proof (skip_ws_length r1) as H1.
  destruct (skip_ws r1) as [|d r2]; [discriminate|]. cbn [length] in H1.
  destruct (d =? 58); [|discriminate].
  destruct (value r2) as [[v r3]|] eqn:E2; [|discriminate].
  apply Hv in E2. intros [= _ <-]. lia.
Qed.

Lemma keyword_length (word : jsstring) (v w : JsValue) (s r : jsstring) :
  keyword word v s = Some (w, r) -> (length r <= length s)%nat.
Proof.
  unfold keyword. destruct (strip_prefix word s) as [r'|] eqn:E;
    [|discriminate].
  intros [= _ <-]. now apply strip_prefix_length in E.
Qed.

Lemma parse_length (f : nat) :
  shrinking (parse_value f)
  /\ (forall acc, shrinking (parse_elems f acc))
  /\ (forall acc, shrinking (parse_members f acc)).
Proof.
  induction f as [|f (Hv & He & Hm)]; [repeat split; discriminate|].
  repeat split.
  - intros s v r. cbn [parse_value].
    pose proof (skip_ws_length s) as H0.
    destruct (skip_ws s) as [|c r0]; [discriminate|]. cbn [length] in H0.
    destruct (c =? 110); [intros H; apply keyword_length in H; lia|].
    destruct (c =? 116); [intros H; apply keyword_length in H; lia|].
    destruct (c =? 102); [intros H; apply keyword_length in H; lia|].
    destruct (c =? 34).
    { destruct (parse_string_body r0) as [[t r1]|] eqn:E; [|discriminate].
      apply (parse_string_body_length (length r0)) in E; [|lia].
      intros [= _ <-]. lia. }
    destruct (c =? 91).
    { pose proof (skip_ws_length r0) as H1.
      destruct (skip_ws r0) as [|d r']; [discriminate|]. cbn [length] in H1.
      destruct (d =? 93); [intros [= _ <-]; lia|].
      destruct (parse_value f r0) as [[v1 r1]|] eqn:E1; [|discriminate].
      apply Hv in E1. intros H. apply He in H. lia. }
    destruct (c =? 123).
    { pose proof (skip_ws_length r0) as H1.
      destruct (skip_ws r0) as [|d r']; [discriminate|]. cbn [length] in H1.
      destruct (d =? 125); [intros [= _ <-]; lia|].
      destruct (parse_member (parse_value f) r0) as [[[k v1] r1]|] eqn:E1;
        [|discriminate].
      apply (parse_member_length _ _ _ _ Hv) in E1.
      intros H. apply Hm in H. lia. }
    destruct (parse_number (c :: r0)) as [[z r1]|] eqn:E; [|discriminate].
    apply parse_number_length in E. cbn [length] in E.
    intros [= _ <-]. lia.
  - intros acc s v r. cbn [parse_elems].
    pose proof (skip_ws_length s) as H0.
    destruct (skip_ws s) as [|c r0]; [discriminate|]. cbn [length] in H0.
    destruct (c =? 93); [intros [= _ <-]; lia|].
    destruct (c =? 44); [|discriminate].
    destruct (parse_value f r0) as [[v1 r1]|] eqn:E1; [|discriminate].
    apply Hv in E1. intros H. apply He in H. lia.
  - intros acc s v r. cbn [parse_members].
    pose proof (skip_ws_length s) as H0.
    destruct (skip_ws s) as [|c r0]; [discriminate|]. cbn [length] in H0.
    destruct (c =? 125); [intros [= _ <-]; lia|].
    destruct (c =? 44); [|discriminate].
    destruct (parse_member (parse_value f) r0) as [[[k v1] r1]|] eqn:E1;
      [|discriminate].
    apply (parse_member_length _ _ _ _ Hv) in E1.
    intros H. apply Hm in H. lia.
Qed.

Lemma parse_member_ext (value1 value2 : jsstring -> option (JsValue * jsstring))
    (s : jsstring) :
  (forall r, (length r < length s)%nat -> value1 r = value2 r) ->
  parse_member value1 s = parse_member value2 s.
Proof.
  intros H. unfold parse_member.
  pose proof (skip_ws_length s) as H0.
  destruct (skip_ws s) as [|c r0]; [reflexivity|]. cbn [length] in H0.
  destruct (c =? 34); [|reflexivity].
  destruct (parse_string_body r0) as [[k r1]|] eqn:E1; [|reflexivity].
  apply (parse_string_body_length (length r0)) in E1; [|lia].
  pose proof (skip_ws_length r1) as H1.
  destruct (skip_ws r1) as [|d r2]; [reflexivity|]. cbn [length] in H1.
  destruct (d =? 58); [|reflexivity].
  rewrite H by lia. reflexivity.
Qed.

Lemma parse_value_unfold (f : nat) (s : jsstring) :
  parse_value (S f) s =
  match skip_ws s with
  | [] => None
  | c :: r =>
      if c =? 110 then keyword (str "ull") JNull r
      else if c =? 116 then keyword (str "rue") (JBool true) r
      else if c =? 102 then keyword (str "alse") (JBool false) r
      else if c =? 34 then
        match parse_string_body r with
        | Some (t, r') => Some (JStr t, r')
        | None => None
        end
      else if c =? 91 then
        match skip_ws r with
        | [] => None
        | d :: r' =>
            if d =? 93 then Some (JArr [], r')
            else
              match parse_value f r with
              | Some (v, r1) => parse_elems f [v] r1
              | None => None
              end
        end
      else if c =? 123 then
        match skip_ws r with
        | [] => None
        | d :: r' =>
            if d =? 125 then Some (JObj [], r')
            else
              match parse_member (parse_value f) r with
              | Some ((k, v), r1) => parse_members f [(k, v)] r1
              | None => None
              end
        end
      else
        match parse_number (c :: r) with
        | Some (z, r') => Some (JNum z, r')
        | None => None
        end
  end.
Proof. reflexivity. Qed.

Lemma parse_elems_unfold (f : nat) (acc : list JsValue) (s : jsstring) :
  parse_elems (S f) acc s =
  match skip_ws s with
  | [] => None
  | c :: r =>
      if c =? 93 then Some (JArr acc, r)
      else if c =? 44 then
        match parse_value f r with
        | Some (v, r1) => parse_elems f (acc ++ [v]) r1
        | None => None
        end
      else None
  end.
Proof. reflexivity. Qed.

Lemma parse_members_unfold (f : nat) (acc : list (jsstring * JsValue))
    (s : jsstring) :
  parse_members (S f) acc s =
  match skip_ws s with
  | [] => None
  | c :: r =>
      if c =? 125 then Some (JObj acc, r)
      else if c =? 44 then
        match parse_member (parse_value f) r with
        | Some ((k, v), r1) => parse_members f (obj_set acc k v) r1
        | None => None
        end
      else None
  end.
Proof. reflexivity. Qed.

(** With a fuel above the length of the text, one more unit of fuel
    changes nothing. *)
Lemma parse_fuel_stable (f : nat) :
  (forall s, (length s < f)%nat -> parse_value (S f) s = parse_value f s)
  /\ (forall acc s, (length s < f)%nat ->
        parse_elems (S f) acc s = parse_elems f acc s)
  /\ (forall acc s, (length s < f)%nat ->
        parse_members (S f) acc s = parse_members f acc s).
Proof.
  induction f as [|f (Hv & He & Hm)]; [repeat split; intros; lia|].
  destruct (parse_length f) as (Lv & Le & Lm).
  repeat split.
  - intros s Hs.
    rewrite (parse_value_unfold (S f) s), (parse_value_unfold f s).
    pose proof (skip_ws_length s) as H0.
    destruct (skip_ws s) as [|c r0]; [reflexivity|]. cbn [length] in H0.
    destruct (c =? 110); [reflexivity|].
    destruct (c =? 116); [reflexivity|].
    destruct (c =? 102); [reflexivity|].
    destruct (c =? 34); [reflexivity|].
    destruct (c =? 91).
    { destruct (skip_ws r0) as [|d r']; [reflexivity|].
      destruct (d =? 93); [reflexivity|].
      rewrite Hv by lia.
      destruct (parse_value f r0) as [[v1 r1]|] eqn:E1; [|reflexivity].
      apply Lv in E1. apply He. lia. }
    destruct (c =? 123); [|reflexivity].
    destruct (skip_ws r0) as [|d r']; [reflexivity|].
    destruct (d =? 125); [reflexivity|].
    rewrite (parse_member_ext (parse_value (S f)) (parse_value f) r0)
      by (intros r Hr; apply Hv; lia).
    destruct (parse_member (parse_value f) r0) as [[[k v1] r1]|] eqn:E1;
      [|reflexivity].
    apply (parse_member_length _ _ _ _ Lv) in E1. apply Hm. lia.
  - intros acc s Hs.
    rewrite (parse_elems_unfold (S f) acc s), (parse_elems_unfold f acc s).
    pose proof (skip_ws_length s) as H0.
    destruct (skip_ws s) as [|c r0]; [reflexivity|]. cbn [length] in H0.
    destruct (c =? 93); [reflexivity|].
    destruct (c =? 44); [|reflexivity].
    rewrite Hv by lia.
    destruct (parse_value f r0) as [[v1 r1]|] eqn:E1; [|reflexivity].
    apply Lv in E1. apply He. lia.
  - intros acc s Hs.
    rewrite (parse_members_unfold (S f) acc s), (parse_members_unfold f acc s).
    pose proof (skip_ws_length s) as H0.
    destruct (skip_ws s) as [|c r0]; [reflexivity|]. cbn [length] in H0.
    destruct (c =? 125); [reflexivity|].
    destruct (c =? 44); [|reflexivity].
    rewrite (parse_member_ext (parse_value (S f)) (parse_value f) r0)
      by (intros r Hr; apply Hv; lia).
    destruct (parse_member (parse_value f) r0) as [[[k v1] r1]|] eqn:E1;
      [|reflexivity].
    apply (parse_member_length _ _ _ _ Lv) in E1. apply Hm. lia.
Qed.

(** No fuel reads more than the fuel of [JSON_parse] does. *)
Lemma parse_fuel_enough (s : jsstring) (f : nat) :
  (length s < f)%nat -> parse_value f s = parse_value (S (length s)) s.
Proof.
  intros H. induction f as [|f IH]; [lia|].
  destruct (Nat.eq_dec f (length s)) as [-> | Hne]; [reflexivity|].
  rewrite (proj1 (parse_fuel_stable f)) by lia. apply IH. lia.
Qed.

(** When [JSON_parse] finds no value, or finds text after it, no larger
    fuel would have read the text as a value. *)
Lemma JSON_parse_None (s : jsstring) (f : nat) :
  (length s < f)%nat -> JSON_parse s = None ->
  match parse_value f s with
  | Some (_, rest) => skip_ws rest <> []
  | None => True
  end.
Proof.
  intros Hf. unfold JSON_parse. rewrite (parse_fuel_enough s f Hf).
  destruct (parse_value (S (length s)) s) as [[v rest]|]; [|trivial].
  destruct (skip_ws rest); [discriminate | discriminate].
Qed.

(** ** JSON: the values that come back as they are *)

Lemma JsValue_nested_ind (P : JsValue -> Prop) :
  P JUndefined -> P JNull -> (forall b, P (JBool b)) -> (forall z, P (JNum z)) ->
  (forall s, P (JStr s)) ->
  (forall elems, Forall P elems -> P (JArr elems)) ->
  (forall props, Forall (fun kv => P (snd kv)) props -> P (JObj props)) ->
  forall v, P v.
Proof.
  intros Hu Hn Hb Hz Hs Ha Ho. fix IH 1.
  intros [| |b|z|s|elems|props];
    [exact Hu | exact Hn | apply Hb | apply Hz | apply Hs | |].
  - apply Ha. induction elems as [|e es IHes]; constructor;
      [apply IH | exact IHes].
  - apply Ho. induction props as [|[k v] ps IHps]; constructor;
      [apply IH | exact IHps].
Qed.

Lemma eqb_str_sym (a b : jsstring) : (a =s b) = (b =s a).
Proof.
  destruct (a =s b) eqn:E.
  - apply eqb_str_eq in E. subst. symmetry. apply eqb_str_refl.
  - destruct (b =s a) eqn:E'; [|reflexivity].
    apply eqb_str_eq in E'. subst. now rewrite eqb_str_refl in E.
Qed.

Lemma obj_set_fresh (props : list (jsstring * JsValue)) (k : jsstring)
    (v : JsValue) :
  has_key k props = false -> obj_set props k v = props ++ [(k, v)].
Proof.
  unfold has_key. induction props as [|[k' v'] ps IH]; intros H;
    [reflexivity|].
  cbn [map fst existsb] in H. apply orb_false_iff in H as [H1 H2].
  cbn [obj_set app]. rewrite eqb_str_sym, H1. now rewrite IH.
Qed.

Lemma obj_get_fresh (props : list (jsstring * JsValue)) (k : jsstring) :
  has_key k props = false -> obj_get props k = JUndefined.
Proof.
  unfold has_key. induction props as [|[k' v'] ps IH]; intros H;
    [reflexivity|].
  cbn [map fst existsb] in H. apply orb_false_iff in H as [H1 H2].
  cbn [obj_get]. rewrite eqb_str_sym, H1. now apply IH.
Qed.

Lemma has_key_app (k : jsstring) (a b : list (jsstring * JsValue)) :
  has_key k (a ++ b) = has_key k a || has_key k b.
Proof.
  unfold has_key. now rewrite map_app, existsb_app.
Qed.

(** With distinct keys the properties are written and read one by one. *)
Lemma fold_image_distinct (ps acc : list (jsstring * JsValue)) :
  distinct (map fst ps) = true ->
  (forall k, has_key k ps = true -> has_key k acc = false) ->
  fold_left image_step ps acc = acc ++ map image_prop (filter defined_prop ps).
Proof.
  revert acc; induction ps as [|[k v] ps IH]; intros acc Hd Hacc.
  - cbn. now rewrite app_nil_r.
  - cbn [map fst distinct] in Hd. apply andb_true_iff in Hd as [Hk Hd].
    apply negb_true_iff in Hk.
    assert (has_key k acc = false) as Hka.
    { apply Hacc. unfold has_key. cbn [map fst existsb].
      now rewrite eqb_str_refl. }
    assert (forall k', has_key k' ps = true -> has_key k' acc = false) as Hps.
    { intros k' H. apply Hacc. unfold has_key in *. cbn [map fst existsb].
      now rewrite H, orb_true_r. }
    cbn [fold_left filter]. unfold defined_prop at 1. cbn [snd].
    destruct (is_undefined v) eqn:Hv.
    + destruct v; try discriminate Hv. cbn [negb]. unfold image_step at 2.
      cbn [snd]. now apply IH.
    + assert (image_step acc (k, v) = acc ++ [(k, json_image v)]) as ->.
      { unfold image_step. cbn [fst snd].
        destruct v; try discriminate Hv; now apply obj_set_fresh. }
      cbn [negb map]. rewrite IH; [now rewrite <- app_assoc | exact Hd |].
      intros k' H. rewrite has_key_app, (Hps k' H).
      unfold has_key. cbn [map fst existsb]. rewrite orb_false_r.
      destruct (k' =s k) eqn:E; [|reflexivity].
      apply eqb_str_eq in E. subst k'. unfold has_key in H.
      now rewrite H in Hk.
Qed.

Lemma json_image_safe (v : JsValue) : json_safe v = true -> json_image v = v.
Proof.
  induction v as [| | b | z | s | elems IH | props IH]
    using JsValue_nested_ind; intros H; try reflexivity.
  - cbn [json_image json_safe] in *. f_equal.
    induction IH as [|e es He Hes IHes]; [reflexivity|].
    cbn [forallb] in H. apply andb_true_iff in H as [H1 H2].
    cbn [map]. rewrite IHes by assumption. f_equal.
    destruct e; try discriminate H1; now apply He.
  - cbn [json_safe] in H. apply andb_true_iff in H as [Hs Hd].
    change (json_image (JObj props))
      with (JObj (fold_left image_step props [])).
    rewrite fold_image_distinct by auto. cbn [app]. f_equal.
    clear Hd. induction IH as [|[k v] ps Hv Hps IHps]; [reflexivity|].
    cbn [forallb snd] in Hs. apply andb_true_iff in Hs as [H1 H2].
    cbn [filter]. unfold defined_prop at 1. cbn [snd] in *.
    destruct v; try discriminate H1; cbn [is_undefined negb map];
      rewrite IHps by assumption; unfold image_prop; cbn [fst snd];
      now rewrite Hv.
Qed.

(** ** The wire format of events *)

Lemma event_keys_distinct (e : StreamEvent) :
  distinct (map fst (event_props e)) = true.
Proof.
  destruct e; reflexivity.
Qed.

Lemma json_image_event_object (e : StreamEvent) :
  json_image (event_object e)
  = JObj (map image_prop (filter defined_prop (event_props e))).
Proof.
  change (json_image (event_object e))
    with (JObj (fold_left image_step (event_props e) [])).
  now rewrite fold_image_distinct by (auto using event_keys_distinct).
Qed.

Lemma stringify_event_object (e : StreamEvent) :
  stringify (event_object e) = Some (123 :: obj_body true (event_props e)).
Proof.
  apply stringify_JObj.
Qed.

Lemma encodeEvent_text (e : StreamEvent) :
  encodeEvent e = (123 :: obj_body true (event_props e)) ++ [10].
Proof.
  unfold encodeEvent. now rewrite stringify_event_object.
Qed.

(** Both forms of the line of an event are read as the same record. *)
Lemma JSON_parse_line (e : StreamEvent) (line : jsstring) :
  line = encodeEvent e \/ encodeEvent e = line ++ [10] ->
  JSON_parse line
  = Some (JObj (map image_prop (filter defined_prop (event_props e)))).
Proof.
  rewrite encodeEvent_text, <- json_image_event_object.
  destruct (JSON_parse_stringify _ _ (stringify_event_object e)) as [H1 H2].
  intros [-> | H]; [exact H2|].
  apply app_inj_tail in H as [<- _]. exact H1.
Qed.

Lemma payload_image (v : JsValue) :
  payload_ok v = true -> json_image v = v.
Proof.
  unfold payload_ok. destruct v; cbn [is_undefined orb]; intros H;
    try reflexivity; now apply json_image_safe.
Qed.

Lemma wire_object_image (e : StreamEvent) :
  representable e = true ->
  JObj (map image_prop (filter defined_prop (event_props e))) = wire_object e.
Proof.
  intros H. unfold wire_object. f_equal.
  change (fun kv : jsstring * JsValue => negb (is_undefined (snd kv)))
    with defined_prop.
  assert (Forall (fun kv => json_image (snd kv) = snd kv) (event_props e))
    as Hall.
  { destruct e as [tool m id inp | tool m id inp out | | | |];
      cbn [representable] in H; try apply andb_true_iff in H as [H H'];
      repeat constructor; cbn [snd]; auto using payload_image;
      now destruct id. }
  induction Hall as [|[k v] ps Hv Hps IH]; [reflexivity|].
  cbn [filter]. destruct (defined_prop (k, v)); [|exact IH].
  cbn [map]. rewrite IH. unfold image_prop. cbn [fst snd] in *.
  now rewrite Hv.
Qed.

Lemma event_of_wire_object (e : StreamEvent) :
  event_of_value (wire_object e) = Some e.
Proof.
  destruct e as [tool m [id|] inp | tool m [id|] inp out | | | |];
    try reflexivity.
  - destruct inp; reflexivity.
  - destruct inp; reflexivity.
  - destruct inp; destruct out; reflexivity.
  - destruct inp; destruct out; reflexivity.
Qed.

(** C5.  For every event whose payloads JSON represents, parsing the line
    that [encodeEvent] writes gives back the event; the record that is
    read holds the properties that are present and no others. *)
Theorem encode_decode_round_trip (e : StreamEvent) :
  representable e = true ->
  decodeEvent (encodeEvent e) = Some e
  /\ JSON_parse (encodeEvent e) = Some (wire_object e).
Proof.
  intros H.
  assert (JSON_parse (encodeEvent e) = Some (wire_object e)) as Hp.
  { rewrite (JSON_parse_line e (encodeEvent e)) by now left.
    now rewrite wire_object_image. }
  split; [|exact Hp].
  unfold decodeEvent. rewrite Hp. apply event_of_wire_object.
Qed.

Lemma encode_decode_round_trip_witness :
  decodeEvent
    (encodeEvent
       (tool_result ARXIV_SEARCH (str "Found 2 papers") None
          (JObj [(str "query", JStr (str "diffusion models"));
                 (str "maxResults", JNum 2)])
          (JStr sample_feed)))
  = Some (tool_result ARXIV_SEARCH (str "Found 2 papers") None
            (JObj [(str "query", JStr (str "diffusion models"));
                   (str "maxResults", JNum 2)])
            (JStr sample_feed)).
Proof.
  apply (proj1 (encode_decode_round_trip
                  (tool_result ARXIV_SEARCH (str "Found 2 papers") None
                     (JObj [(str "query", JStr (str "diffusion models"));
                            (str "maxResults", JNum 2)])
                     (JStr sample_feed))
                  eq_refl)).
Defined.

(** The line of an event without [toolCallId] and without [input]. *)
Example encode_absent_fields :
  encodeEvent (tool_call (str "t") (str "m") None JUndefined)
  = [123; 34] ++ str "type" ++ [34; 58; 34] ++ str "tool_call"
    ++ [34; 44; 34] ++ str "tool" ++ [34; 58; 34; 116; 34; 44; 34]
    ++ str "message" ++ [34; 58; 34; 109; 34; 125; 10].
Proof. reflexivity. Qed.

(** A payload that JSON does not represent comes back changed: an
    [undefined] element of an array is read as [null]. *)
Example decode_unrepresentable :
  decodeEvent (encodeEvent (tool_call (str "t") (str "m") None
                              (JArr [JUndefined])))
  = Some (tool_call (str "t") (str "m") None (JArr [JNull])).
Proof. reflexivity. Qed.

(** ** The client reducer *)

(** C9.  A chunk that is a string and does not parse as JSON makes
    [handleChunk] return without throwing, with the display state
    (status, activity log, response text) as it was; the chunks that
    follow are handled from that same state. *)
Theorem malformed_chunk_dropped (now : Z) (st : DisplayState) (s : jsstring) :
  JSON_parse s = None ->
  handleChunk now st (JStr s) = Returns st
  /\ forall rest, consume st ((now, JStr s) :: rest) = consume st rest.
Proof.
  intros H.
  assert (handleChunk now st (JStr s) = Returns st) as Hh
    by (unfold handleChunk; now rewrite H).
  split; [exact Hh|]. intros rest. cbn [consume]. now rewrite Hh.
Qed.

Lemma malformed_chunk_dropped_witness :
  JSON_parse (str "{oops") = None
  /\ handleChunk 1700000000000 search_started (JStr (str "{oops"))
     = Returns search_started.
Proof.
  split; [reflexivity|].
  apply (proj1 (malformed_chunk_dropped 1700000000000 search_started
                  (str "{oops") eq_refl)).
Defined.

(** A string that parses to [null] is not dropped: reading [event.type]
    throws, outside the [try]. *)
Example null_chunk_throws :
  handleChunk 0 search_started (JStr (str "null")) = Throws.
Proof. reflexivity. Qed.

(** [handleChunk] reads three properties of the record only. *)
Lemma handleChunk_fields (now : Z) (st : DisplayState)
    (p q : list (jsstring * JsValue)) :
  field p "type" = field q "type" ->
  field p "message" = field q "message" ->
  field p "content" = field q "content" ->
  handleChunk now st (JObj p) = handleChunk now st (JObj q).
Proof.
  intros Ht Hm Hc. unfold handleChunk, get_property.
  now rewrite Ht, Hm, Hc.
Qed.

Lemma obj_get_image (ps : list (jsstring * JsValue)) (k : jsstring) :
  distinct (map fst ps) = true ->
  obj_get (map image_prop (filter defined_prop ps)) k
  = json_image (obj_get ps k).
Proof.
  induction ps as [|[k' v] ps IH]; intros Hd; [reflexivity|].
  cbn [map fst distinct] in Hd. apply andb_true_iff in Hd as [Hk Hd].
  apply negb_true_iff in Hk.
  cbn [filter obj_get]. unfold defined_prop at 1. cbn [snd].
  destruct (is_undefined v) eqn:Hv; cbn [negb].
  - rewrite IH by exact Hd. destruct (k' =s k) eqn:E; [|reflexivity].
    apply eqb_str_eq in E. subst k'.
    rewrite (obj_get_fresh ps k Hk). now destruct v.
  - cbn [map obj_get image_prop fst snd].
    destruct (k' =s k); [reflexivity | now apply IH].
Qed.

(** The record read from the line of an event is handled as the event
    object is. *)
Lemma handleChunk_line (now : Z) (st : DisplayState) (e : StreamEvent)
    (line : jsstring) :
  line = encodeEvent e \/ encodeEvent e = line ++ [10] ->
  handleChunk now st (JStr line) = handleChunk now st (event_object e).
Proof.
  intros H.
  assert (handleChunk now st (JStr line)
          = handleChunk now st
              (JObj (map image_prop (filter defined_prop (event_props e)))))
    as ->.
  { unfold handleChunk at 1. rewrite (JSON_parse_line e line H).
    reflexivity. }
  apply handleChunk_fields; unfold field;
    rewrite obj_get_image by apply event_keys_distinct;
    destruct e; reflexivity.
Qed.

Lemma handleChunk_event (now : Z) (st : DisplayState) (e : StreamEvent) :
  exists st', handleChunk now st (event_object e) = Returns st'
              /\ response st' = response st ++ token_text [e].
Proof.
  destruct e; eexists; (split; [reflexivity|]); cbn;
    now rewrite ?app_nil_r.
Qed.

Lemma handleChunk_delivered (now : Z) (st : DisplayState) (e : StreamEvent)
    (chunk : JsValue) :
  delivers e chunk ->
  exists st', handleChunk now st chunk = Returns st'
              /\ response st' = response st ++ token_text [e].
Proof.
  intros [-> | [-> | (line & H & ->)]].
  - apply handleChunk_event.
  - rewrite (handleChunk_line now st e (encodeEvent e)) by now left.
    apply handleChunk_event.
  - rewrite (handleChunk_line now st e line) by now right.
    apply handleChunk_event.
Qed.

Lemma token_text_cons (e : StreamEvent) (events : list StreamEvent) :
  token_text (e :: events) = token_text [e] ++ token_text events.
Proof.
  destruct e; cbn [token_text app]; now rewrite ?app_nil_r.
Qed.

(** Whatever the chunk, a call that returns has only appended. *)
Lemma handleChunk_appends (now : Z) (st st' : DisplayState) (chunk : JsValue) :
  handleChunk now st chunk = Returns st' ->
  exists suffix, response st' = response st ++ suffix.
Proof.
  unfold handleChunk.
  repeat match goal with
         | |- context [match ?x with _ => _ end] => destruct x
         | |- context [if ?x then _ else _] => destruct x
         end;
    intros [= <-] || discriminate;
    solve [ exists []; cbn; now rewrite app_nil_r | eexists; reflexivity ].
Qed.

(** C6.  After the reducer has consumed the events 1..N, delivered as
    records or as lines, the response text is what it was at the start
    followed by the contents of the [token] events among them, in order
    of arrival; and every call of [handleChunk] that returns leaves the
    earlier text in place and appends to it. *)
Theorem response_accumulates_tokens (events : list StreamEvent)
    (deliveries : list (Z * JsValue)) (st : DisplayState) :
  Forall2 (fun e d => delivers e (snd d)) events deliveries ->
  (exists st', consume st deliveries = Returns st'
               /\ response st' = response st ++ token_text events)
  /\ (forall now st0 st1 chunk, handleChunk now st0 chunk = Returns st1 ->
        exists suffix, response st1 = response st0 ++ suffix).
Proof.
  intros H. split; [|intros now st0 st1 chunk; apply handleChunk_appends].
  revert st; induction H as [|e [now chunk] es ds Hd _ IH]; intros st.
  - exists st. split; [reflexivity | now rewrite app_nil_r].
  - cbn [snd] in Hd. cbn [consume].
    destruct (handleChunk_delivered now st e chunk Hd) as (st1 & -> & H1).
    destruct (IH st1) as (st' & -> & H').
    exists st'. split; [reflexivity|].
    now rewrite (token_text_cons e es), H', H1, app_assoc.
Qed.

Lemma response_accumulates_tokens_witness :
  exists st', consume search_started
                [(1%Z, event_object (llm_start MODEL_NAME (str "Analyzing")));
                 (2%Z, JStr (encodeEvent (token (str "Hel"))));
                 (3%Z, event_object (token (str "lo")));
                 (4%Z, JStr (encodeEvent (complete (str "Analysis complete"))))]
              = Returns st'
              /\ response st' = str "Hello".
Proof.
  apply (proj1 (response_accumulates_tokens
           [llm_start MODEL_NAME (str "Analyzing"); token (str "Hel");
            token (str "lo"); complete (str "Analysis complete")]
           [(1%Z, event_object (llm_start MODEL_NAME (str "Analyzing")));
            (2%Z, JStr (encodeEvent (token (str "Hel"))));
            (3%Z, event_object (token (str "lo")));
            (4%Z, JStr (encodeEvent (complete (str "Analysis complete"))))]
           search_started
           ltac:(constructor; [now left |
                 constructor; [right; now left |
                 constructor; [now left |
                 constructor; [right; now left | constructor]]]]))).
Defined.

(** The earlier frontend accumulates the same text. *)
Lemma SearchStream_accumulates (events : list StreamEvent) (text : jsstring) :
  fold_left SearchStream_text (map event_object events) text
  = text ++ token_text events.
Proof.
  revert text; induction events as [|e es IH]; intros text;
    [now rewrite app_nil_r|].
  cbn [map fold_left]. rewrite IH, (token_text_cons e es), app_assoc. f_equal.
  destruct e as [| | |content| |]; try (cbn; now rewrite app_nil_r).
  destruct content; cbn; now rewrite ?app_nil_r.
Qed.

(** ** The transformer does not fail *)

Ltac shape_of_output :=
  do 2 eexists; (split; [reflexivity|]); simpl;
  (split; [lia|]); (split; [try discriminate; eauto|]);
  let e := fresh "e" in let He := fresh "He" in
  intros e He; simpl in He; intuition (subst; try discriminate; auto).

(** A chunk whose type has no case in the [switch] gives no event and
    leaves [llmStarted] as it is; every chunk gives at most one event,
    an [error] event exactly for the [tool-error] and [error] chunks, and
    every event is encoded as a line that parses as JSON. *)
Lemma transform_shape (st : bool) (c : Chunk.t) :
  (~ In (Chunk.type c) handled_types -> transform st c = (st, []))
  /\ (exists st' out,
        transform st c = (st', out) /\ (length out <= 1)%nat
        /\ (is_failure (Chunk.type c) = true -> exists m, out = [error m])
        /\ (forall e, In e out -> is_error e = true ->
              is_failure (Chunk.type c) = true))
  /\ (forall e, In e (snd (transform st c)) ->
        exists record, JSON_parse (encodeEvent e) = Some record).
Proof.
  split; [|split; [|intros e _; eexists;
                    apply (JSON_parse_line e (encodeEvent e)); now left]].
  - intros H. unfold transform, is_start, is_failure.
    rewrite !eqb_str_neq; [reflexivity|..];
      intros E; apply H; rewrite E; simpl; tauto.
  - unfold transform.
    destruct (is_start (Chunk.type c)) eqn:Hs.
    { assert (is_failure (Chunk.type c) = false) as Hf.
      { unfold is_start in Hs. unfold is_failure.
        repeat (apply orb_true_iff in Hs as [Hs | Hs]);
          apply eqb_str_eq in Hs; rewrite Hs; reflexivity. }
      rewrite Hf.
      destruct st; shape_of_output. }
    destruct (Chunk.type c =s str "tool-call") eqn:H1.
    { apply eqb_str_eq in H1. rewrite H1.
      shape_of_output. }
    destruct (Chunk.type c =s str "tool-result") eqn:H2.
    { apply eqb_str_eq in H2. rewrite H2.
      shape_of_output. }
    destruct (Chunk.type c =s str "text-delta") eqn:H3.
    { apply eqb_str_eq in H3. rewrite H3.
      shape_of_output. }
    destruct (Chunk.type c =s str "finish") eqn:H4.
    { apply eqb_str_eq in H4. rewrite H4.
      shape_of_output. }
    destruct (is_failure (Chunk.type c)) eqn:H5.
    { shape_of_output. }
    shape_of_output.
Qed.

(** C8.  A chunk whose type has no case in the [switch] enqueues
    nothing, assigns nothing, and the call returns.  A call of
    [transform] throws exactly when [String] throws on what it converts:
    the tool name of a [tool-call] or [tool-result] chunk, or the error
    of a [tool-error] or [error] chunk.  A call that returns enqueues at
    most one event, an [error] event exactly for the [tool-error] and
    [error] chunks, and every event it enqueues is encoded as a line
    that parses as JSON. *)
Theorem unknown_chunk_dropped (env : nat) (s : Store) (c : Chunk.t) :
  (~ In (Chunk.type c) handled_types ->
   transform_call env c s = (Returns [], s))
  /\ (fst (transform_call env c s) = Throws
      <-> (((Chunk.type c =s str "tool-call")
            || (Chunk.type c =s str "tool-result")) = true
           /\ String_throws (nullish (Chunk.toolName c) (JStr (str "tool")))
              = true)
          \/ (is_failure (Chunk.type c) = true
              /\ String_throws (Chunk.error c) = true))
  /\ (forall out, fst (transform_call env c s) = Returns out ->
        (length out <= 1)%nat
        /\ (is_failure (Chunk.type c) = true -> exists m, out = [error m])
        /\ (forall e, In e out -> is_error e = true ->
              is_failure (Chunk.type c) = true)
        /\ (forall e, In e out ->
              exists record, JSON_parse (encodeEvent e) = Some record)).
Proof.
  rewrite transform_call_transform. cbn [fst].
  destruct (transform_shape (lookup env s) c) as (Hdrop & Hshape & Hjson).
  split; [|split].
  - intros H. rewrite (Hdrop H). cbn [fst snd]. rewrite assign_lookup.
    assert (raises c = false) as ->; [|reflexivity].
    unfold raises, is_failure.
    rewrite !eqb_str_neq; [reflexivity|..];
      intros E; apply H; rewrite E; simpl; tauto.
  - unfold raises.
    destruct ((Chunk.type c =s str "tool-call")
              || (Chunk.type c =s str "tool-result")),
      (is_failure (Chunk.type c)),
      (String_throws (nullish _ _)), (String_throws (Chunk.error c));
      cbn [orb andb]; split; intros H; try discriminate H; try reflexivity;
      try (destruct H as [[H1 H2] | [H1 H2]]; congruence);
      try (now left); now right.
  - intros out H. destruct (raises c); [discriminate|].
    injection H as <-.
    destruct Hshape as (st' & out & Ht & Hlen & Hfail & Herr).
    rewrite Ht in *. cbn [snd] in *. repeat split; assumption.
Qed.

Lemma unknown_chunk_dropped_witness :
  ~ In (Chunk.type (chunk_of_type "reasoning-delta")) handled_types
  /\ transform_call 3 (chunk_of_type "reasoning-delta") [false; true; false; true]
     = (Returns [], [false; true; false; true]).
Proof.
  assert (~ In (Chunk.type (chunk_of_type "reasoning-delta")) handled_types)
    as H.
  { intros H. vm_compute in H.
    repeat (destruct H as [H | H]; [discriminate H|]). exact H. }
  split; [exact H|].
  exact (proj1 (unknown_chunk_dropped 3 [false; true; false; true] _) H).
Defined.

(** On an [error] chunk whose error is the object [{toString: 1}] the
    call throws: [String] finds no primitive value, no event is
    enqueued, and the failure is not sent as an [error] event. *)
Lemma transform_throws_counterexample :
  transform_call 0 unprintable_error [false] = (Throws, [false])
  /\ ~ (exists out, fst (transform_call 0 unprintable_error [false])
                    = Returns out).
Proof.
  split; [reflexivity|]. intros [out H]. discriminate H.
Qed.


(** * Further properties *)

(** ** What the transformer forwards *)



Lemma filter_none (A : Type) (f : A -> bool) (l : list A) :
  forallb (fun x => negb (f x)) l = true -> filter f l = [].
Proof.
  induction l as [|x l IH]; cbn [forallb filter]; [reflexivity|].
  intros H. apply andb_true_iff in H as [Hx Hl].
  apply negb_true_iff in Hx. rewrite Hx. now apply IH.
Qed.












(** ** The titles of a summary *)

Lemma single_spaced_collapse (s : jsstring) (b : bool) :
  single_spaced b (collapse_runs b s) = true.
Proof.
  revert b; induction s as [|c s IH]; intros b; [reflexivity|].
  cbn [collapse_runs]. destruct (is_ws c) eqn:Hc.
  - destruct b; [apply IH|].
    cbn [single_spaced]. change (is_ws 32) with true. cbv iota.
    change (32 =? 32) with true. cbn [negb andb]. apply IH.
  - cbn [single_spaced]. rewrite Hc. apply IH.
Qed.

Lemma dropWhile_head (f : N -> bool) (s : jsstring) :
  match dropWhile f s with c :: _ => f c = false | [] => True end.
Proof.
  induction s as [|c s IH]; cbn [dropWhile]; [exact I|].
  destruct (f c) eqn:E; [exact IH | exact E].
Qed.

Lemma dropWhile_suffix (f : N -> bool) (s : jsstring) :
  exists pre, s = pre ++ dropWhile f s.
Proof.
  induction s as [|c s [pre IH]]; cbn [dropWhile]; [now exists []|].
  destruct (f c); [|now exists []].
  exists (c :: pre). cbn [app]. now rewrite <- IH.
Qed.

Lemma trim_edges (s : jsstring) : ws_at_edge (trim s) = false.
Proof.
  unfold ws_at_edge, trim. rewrite rev_involutive.
  set (u := dropWhile is_ws s).
  pose proof (dropWhile_head is_ws s) as Hu. fold u in Hu.
  pose proof (dropWhile_head is_ws (rev u)) as Hv.
  destruct (dropWhile_suffix is_ws (rev u)) as [pre Hpre].
  set (v := dropWhile is_ws (rev u)) in *.
  apply orb_false_iff. split.
  - destruct v as [|c v'] eqn:Ev; [reflexivity|].
    assert (u = rev (c :: v') ++ rev pre) as Eu.
    { rewrite <- rev_app_distr, <- Hpre. now rewrite rev_involutive. }
    destruct (rev (c :: v')) as [|d w] eqn:Er.
    + apply (f_equal (@length N)) in Er. rewrite length_rev in Er.
      discriminate Er.
    + cbn [app] in Eu. rewrite Eu in Hu. cbn [starts_with_ws]. exact Hu.
  - destruct v as [|c v']; [reflexivity | exact Hv].
Qed.

Lemma collapse_runs_snoc (s : jsstring) (b : bool) (c : N) :
  is_ws c = false ->
  collapse_runs b (s ++ [c]) = collapse_runs b s ++ [c].
Proof.
  intros Hc. revert b; induction s as [|d s IH]; intros b.
  - cbn. now rewrite Hc.
  - cbn [app collapse_runs]. destruct (is_ws d); [destruct b|];
      cbn [app]; now rewrite IH.
Qed.

Lemma collapse_edges (s : jsstring) :
  ws_at_edge s = false -> ws_at_edge (collapse_runs false s) = false.
Proof.
  unfold ws_at_edge. intros H. apply orb_false_iff in H as [H1 H2].
  apply orb_false_iff. split.
  - destruct s as [|c s]; [reflexivity|]. cbn [starts_with_ws] in H1.
    cbn [collapse_runs]. rewrite H1. cbn [starts_with_ws]. exact H1.
  - destruct (rev s) as [|c r] eqn:Er.
    + apply (f_equal (@rev N)) in Er. rewrite rev_involutive in Er.
      subst s. reflexivity.
    + cbn [starts_with_ws] in H2.
      apply (f_equal (@rev N)) in Er. rewrite rev_involutive in Er.
      cbn [rev] in Er. subst s.
      rewrite collapse_runs_snoc by exact H2.
      rewrite rev_app_distr. cbn [rev app starts_with_ws]. exact H2.
Qed.

Lemma clean_title_collapse (t : jsstring) :
  clean_title t
  = collapse_runs false (trim (replace_all re_title_tag [] 0 t)).
Proof.
  apply (proj1 (collapse_runs_replace _)).
Qed.

(** X4.  Every title of a summary is on one line and single-spaced: its
    only whitespace is the space, never two in a row, and it neither
    starts nor ends with whitespace. *)
Theorem titles_normalized (output t : jsstring) :
  In t (paperTitles output) ->
  single_spaced false t = true /\ ws_at_edge t = false.
Proof.
  unfold paperTitles. intros H. apply in_map_iff in H as (m & <- & _).
  rewrite clean_title_collapse. split.
  - apply single_spaced_collapse.
  - apply collapse_edges, trim_edges.
Qed.

Lemma titles_normalized_witness :
  In (str "Denoising Diffusion Models") (paperTitles sample_feed)
  /\ single_spaced false (str "Denoising Diffusion Models") = true
  /\ ws_at_edge (str "Denoising Diffusion Models") = false.
Proof.
  assert (In (str "Denoising Diffusion Models") (paperTitles sample_feed))
    as H by (vm_compute; auto).
  split; [exact H|].
  exact (titles_normalized sample_feed _ H).
Defined.


(** X6.  An output with at most one title-delimited substring (a feed
    without entries, or a text that is no markup at all) is summarized by
    the count alone, without the list of titles. *)
Theorem summary_without_titles (output : jsstring) :
  (length (delimited_titles output) <= 1)%nat ->
  result_message ARXIV_SEARCH (JStr output)
  = str "Found " ++ nat_to_string (occurrences ENTRY_TAG output)
      ++ str " papers".
Proof.
  intros H. rewrite result_message_summary. unfold summary_of_matches.
  destruct (delimited_titles output) as [|t [|t' ts]]; try reflexivity.
  simpl in H. lia.
Qed.

Lemma summary_without_titles_witness :
  result_message ARXIV_SEARCH
    (JStr (str "<feed><title>ArXiv Query: all:zzz</title></feed>"))
  = str "Found 0 papers".
Proof.
  apply (summary_without_titles
           (str "<feed><title>ArXiv Query: all:zzz</title></feed>")).
  vm_compute. lia.
Defined.

(** ** The wire format, for every event *)

Lemma no_C0_app (a b : jsstring) :
  no_C0 (a ++ b) = no_C0 a && no_C0 b.
Proof.
  apply forallb_app.
Qed.

Lemma digits_no_C0 (u : Decimal.uint) : no_C0 (digits_of_uint u) = true.
Proof.
  induction u; cbn [digits_of_uint]; try reflexivity; exact IHu.
Qed.

Lemma Z_to_string_no_C0 (z : Z) : no_C0 (Z_to_string z) = true.
Proof.
  destruct z; [reflexivity | apply digits_no_C0 | apply digits_no_C0].
Qed.

Lemma hex_digit_no_C0 (d : N) : (32 <=? hex_digit d) = true.
Proof.
  unfold hex_digit. apply N.leb_le. destruct (d <? 10); lia.
Qed.

Lemma escape_unit_no_C0 (c : N) : no_C0 (escape_unit c) = true.
Proof.
  unfold escape_unit.
  repeat match goal with
         | |- context [if ?x =? ?y then _ else _] =>
             destruct (x =? y); [reflexivity|]
         end.
  destruct ((c <? 32) || is_high c || is_low c) eqn:E.
  - unfold hex4, no_C0. cbn [forallb].
    now rewrite !hex_digit_no_C0.
  - apply orb_false_iff in E as [E _]. apply orb_false_iff in E as [E _].
    apply N.ltb_ge in E. unfold no_C0. cbn [forallb].
    rewrite andb_true_r. now apply N.leb_le.
Qed.

Lemma surrogate_no_C0 (c : N) :
  is_high c = true \/ is_low c = true -> (32 <=? c) = true.
Proof.
  unfold is_high, is_low. intros [H | H];
    apply andb_true_iff in H as [H _]; apply N.leb_le in H;
    apply N.leb_le; lia.
Qed.

Lemma quote_units_no_C0 (s : jsstring) (paired : bool) :
  no_C0 (quote_units paired s) = true.
Proof.
  revert paired; induction s as [|c s IH]; intros paired; [reflexivity|].
  cbn [quote_units].
  destruct (is_high c && match s with d :: _ => is_low d | [] => false end)
    eqn:E1.
  - apply andb_true_iff in E1 as [E1 _].
    unfold no_C0. cbn [forallb].
    rewrite surrogate_no_C0 by now left. apply IH.
  - destruct (is_low c && paired) eqn:E2.
    + apply andb_true_iff in E2 as [E2 _].
      unfold no_C0. cbn [forallb].
      rewrite surrogate_no_C0 by now right. apply IH.
    + now rewrite no_C0_app, escape_unit_no_C0, IH.
Qed.

Lemma no_C0_wrap (l r : N) (body : jsstring) :
  (32 <=? l) = true -> (32 <=? r) = true -> no_C0 body = true ->
  no_C0 (l :: body ++ [r]) = true.
Proof.
  intros Hl Hr Hb. change (l :: body ++ [r]) with ([l] ++ body ++ [r]).
  rewrite !no_C0_app, Hb. unfold no_C0. cbn [forallb].
  now rewrite Hl, Hr.
Qed.

Lemma QuoteJSONString_no_C0 (s : jsstring) :
  no_C0 (QuoteJSONString s) = true.
Proof.
  apply no_C0_wrap; [reflexivity..|]. apply quote_units_no_C0.
Qed.

Lemma join_no_C0 (parts : list jsstring) :
  Forall (fun p => no_C0 p = true) parts ->
  no_C0 (join [44] parts) = true.
Proof.
  induction 1 as [|p ps Hp Hps IH]; [reflexivity|].
  destruct ps as [|q ps]; [exact Hp|].
  change (join [44] (p :: q :: ps)) with (p ++ [44] ++ join [44] (q :: ps)).
  now rewrite !no_C0_app, Hp, IH.
Qed.

(** The text of a value holds no control character. *)
Lemma stringify_no_C0 (v : JsValue) :
  forall s, stringify v = Some s -> no_C0 s = true.
Proof.
  induction v as [| | b | z | t | elems IH | props IH]
    using JsValue_nested_ind; intros s Hs.
  - discriminate Hs.
  - injection Hs as <-. reflexivity.
  - destruct b; injection Hs as <-; reflexivity.
  - injection Hs as <-. apply Z_to_string_no_C0.
  - injection Hs as <-. apply QuoteJSONString_no_C0.
  - cbn [stringify] in Hs. injection Hs as <-.
    apply no_C0_wrap; [reflexivity..|]. apply join_no_C0.
    induction IH as [|e es He Hes IHes]; constructor; [|exact IHes].
    destruct (stringify e) as [s|]; [now apply He | reflexivity].
  - cbn [stringify] in Hs. injection Hs as <-.
    apply no_C0_wrap; [reflexivity..|]. apply join_no_C0.
    induction IH as [|[k v] ps Hv Hps IHps]; cbn [flat_map];
      [constructor|].
    cbn [fst snd] in *. destruct (stringify v) as [s|]; [|exact IHps].
    cbn [app]. constructor; [|exact IHps]. cbv beta.
    change (no_C0 (QuoteJSONString k ++ [58] ++ s) = true).
    rewrite !no_C0_app, QuoteJSONString_no_C0.
    change (no_C0 [58]) with true. cbn [andb]. now apply Hv.
Qed.

(** X7.  The line of an event ends with a line feed and holds no other
    code unit below the space (U+0000 to U+001F), whatever the strings
    and payloads of the event: no second line feed and no carriage
    return, so a reader that splits at line feeds gets one record for
    one event. *)
Theorem encoded_line_framing (e : StreamEvent) :
  exists body, encodeEvent e = body ++ [10] /\ no_C0 body = true.
Proof.
  exists (123 :: obj_body true (event_props e)). split.
  - apply encodeEvent_text.
  - apply (stringify_no_C0 (event_object e)).
    apply stringify_event_object.
Qed.

Lemma event_of_image (e : StreamEvent) :
  event_of_value (JObj (map image_prop (filter defined_prop (event_props e))))
  = Some (event_image e).
Proof.
  unfold event_of_value, field.
  rewrite !obj_get_image by apply event_keys_distinct.
  destruct e as [tool m [id|] inp | tool m [id|] inp out | | | |];
    reflexivity.
Qed.

Lemma decode_encode_image (e : StreamEvent) :
  decodeEvent (encodeEvent e) = Some (event_image e).
Proof.
  unfold decodeEvent.
  rewrite (JSON_parse_line e (encodeEvent e)) by now left.
  apply event_of_image.
Qed.

(** X8.  For every event whose payloads are values of the model
    ([undefined], [null], booleans, integers, strings, arrays and plain
    objects, nested in any way), the line of the event is read back as
    an event of the same variant with the same tool, message, model,
    content and call identifier; only the payloads may differ, each
    being replaced by its image under JSON ([json_image]). *)
Theorem decode_encode_any_event (e : StreamEvent) :
  decodeEvent (encodeEvent e) = Some (event_image e).
Proof.
  exact (decode_encode_image e).
Qed.

Lemma event_image_representable (e : StreamEvent) :
  representable e = true -> event_image e = e.
Proof.
  destruct e as [tool m id inp | tool m id inp out | | | |];
    cbn [representable event_image]; intros H; try reflexivity.
  - now rewrite payload_image.
  - apply andb_true_iff in H as [H1 H2]. now rewrite !payload_image.
Qed.

(** X9.  Two representable events with the same line are the same event:
    the encoding loses nothing. *)
Theorem encodeEvent_injective (e1 e2 : StreamEvent) :
  representable e1 = true -> representable e2 = true ->
  encodeEvent e1 = encodeEvent e2 -> e1 = e2.
Proof.
  intros H1 H2 H.
  pose proof (decode_encode_image e1) as D1.
  pose proof (decode_encode_image e2) as D2.
  rewrite H, D2 in D1. injection D1 as D1.
  now rewrite (event_image_representable e1 H1),
              (event_image_representable e2 H2) in D1.
Qed.

Lemma encodeEvent_injective_witness :
  token (str "a") = token (str "a").
Proof.
  exact (encodeEvent_injective (token (str "a")) (token (str "a"))
           eq_refl eq_refl eq_refl).
Defined.

(** ** The reducer on events *)

Lemma handleChunk_reduce (now : Z) (st : DisplayState) (e : StreamEvent) :
  handleChunk now st (event_object e) = Returns (reduce_event now st e).
Proof.
  destruct e; reflexivity.
Qed.

(** A delivered event is handled without a throw, as the event it is. *)
Lemma handleChunk_delivers (now : Z) (st : DisplayState) (e : StreamEvent)
    (chunk : JsValue) :
  delivers e chunk ->
  handleChunk now st chunk = Returns (reduce_event now st e).
Proof.
  intros [-> | [-> | (line & H & ->)]].
  - apply handleChunk_reduce.
  - rewrite (handleChunk_line now st e (encodeEvent e)) by now left.
    apply handleChunk_reduce.
  - rewrite (handleChunk_line now st e line) by now right.
    apply handleChunk_reduce.
Qed.

Lemma reduce_event_view (now : Z) (st : DisplayState) (e : StreamEvent) :
  activity_view (reduce_event now st e)
  = activity_view st ++ activity_of_event e
  /\ status (reduce_event now st e) = status_after (status st) [e]
  /\ response (reduce_event now st e) = response st ++ token_text [e].
Proof.
  unfold activity_view.
  destruct e; cbn; rewrite ?map_app, ?app_nil_r; repeat split; reflexivity.
Qed.

Lemma status_after_app (s : Status.t) (a b : list StreamEvent) :
  status_after s (a ++ b) = status_after (status_after s a) b.
Proof.
  revert s; induction a as [|e a IH]; intros s; [reflexivity|].
  destruct e; cbn [app status_after]; apply IH.
Qed.

Lemma consume_delivered (events : list StreamEvent)
    (deliveries : list (Z * JsValue)) (st : DisplayState) :
  Forall2 (fun e d => delivers e (snd d)) events deliveries ->
  exists st', consume st deliveries = Returns st'
    /\ activity_view st' = activity_view st ++ flat_map activity_of_event events
    /\ status st' = status_after (status st) events
    /\ response st' = response st ++ token_text events.
Proof.
  intros H. revert st.
  induction H as [|e [now chunk] es ds Hd _ IH]; intros st.
  - exists st. cbn. now rewrite !app_nil_r.
  - cbn [snd] in Hd. cbn [consume].
    rewrite (handleChunk_delivers now st e chunk Hd).
    destruct (IH (reduce_event now st e)) as (st' & -> & Ha & Hs & Hr).
    destruct (reduce_event_view now st e) as (Ea & Es & Er).
    exists st'. split; [reflexivity|].
    rewrite Ha, Hs, Hr, Ea, Es, Er, (token_text_cons e es).
    change (status_after (status st) (e :: es))
      with (status_after (status st) ([e] ++ es)).
    rewrite status_after_app, <- !app_assoc.
    cbn [flat_map]. repeat split; reflexivity.
Qed.

Lemma sample_delivered :
  Forall2 (fun e d => delivers e (snd d)) sample_events sample_deliveries.
Proof.
  constructor; [now left |
  constructor; [right; now left |
  constructor; [now left |
  constructor; [right; now left | constructor]]]].
Defined.

(** X10.  After the reducer has consumed a sequence of delivered events,
    the activity log is what it was followed by one entry for each event
    that is not a [token], in order of arrival, with the type and the
    message of its event; tokens add no entry. *)
Theorem activity_log_records_events (events : list StreamEvent)
    (deliveries : list (Z * JsValue)) (st : DisplayState) :
  Forall2 (fun e d => delivers e (snd d)) events deliveries ->
  exists st', consume st deliveries = Returns st'
    /\ activity_view st' = activity_view st ++ flat_map activity_of_event events.
Proof.
  intros H. destruct (consume_delivered events deliveries st H)
    as (st' & Hc & Ha & _).
  eauto.
Qed.

Lemma activity_log_records_events_witness :
  exists st', consume search_started sample_deliveries = Returns st'
    /\ activity_view st'
       = [(str "llm_start", JStr (str "Analyzing"));
          (str "complete", JStr (str "Analysis complete"))].
Proof.
  exact (activity_log_records_events sample_events sample_deliveries
           search_started sample_delivered).
Defined.

(** X11.  After the reducer has consumed a sequence of delivered events,
    the status is the one of the last terminal event ([complete] or
    [error]) among them, and the earlier status when there is none: no
    other event changes the status. *)
Theorem status_follows_terminal_event (events : list StreamEvent)
    (deliveries : list (Z * JsValue)) (st : DisplayState) :
  Forall2 (fun e d => delivers e (snd d)) events deliveries ->
  exists st', consume st deliveries = Returns st'
    /\ status st' = status_after (status st) events.
Proof.
  intros H. destruct (consume_delivered events deliveries st H)
    as (st' & Hc & _ & Hs & _).
  eauto.
Qed.

Lemma status_follows_terminal_event_witness :
  exists st', consume search_started sample_deliveries = Returns st'
    /\ status st' = Status.complete.
Proof.
  exact (status_follows_terminal_event sample_events sample_deliveries
           search_started sample_delivered).
Defined.

(** *** Records that are no events *)

Lemma parse_defined (f : nat) :
  (forall s v r, parse_value f s = Some (v, r) -> v <> JUndefined)
  /\ (forall acc s v r, parse_elems f acc s = Some (v, r) -> v <> JUndefined)
  /\ (forall acc s v r, parse_members f acc s = Some (v, r) -> v <> JUndefined).
Proof.
  induction f as [|f (Hv & He & Hm)]; [repeat split; discriminate|].
  repeat split.
  - intros s v r. rewrite parse_value_unfold.
    destruct (skip_ws s) as [|c r0]; [discriminate|].
    unfold keyword.
    repeat match goal with
           | |- context [if ?b then _ else _] => destruct b
           | |- context [match strip_prefix ?p ?x with _ => _ end] =>
               destruct (strip_prefix p x)
           | |- context [match parse_string_body ?x with _ => _ end] =>
               destruct (parse_string_body x) as [[? ?]|]
           | |- context [match skip_ws ?x with _ => _ end] =>
               destruct (skip_ws x)
           | |- context [match parse_number ?x with _ => _ end] =>
               destruct (parse_number x) as [[? ?]|]
           | |- context [match parse_value ?g ?x with _ => _ end] =>
               destruct (parse_value g x) as [[? ?]|]
           | |- context [match parse_member ?g ?x with _ => _ end] =>
               destruct (parse_member g x) as [[[? ?] ?]|]
           end;
      try discriminate;
      try (intros [= <- _]; discriminate);
      eauto.
  - intros acc s v r. rewrite parse_elems_unfold.
    destruct (skip_ws s) as [|c r0]; [discriminate|].
    destruct (c =? 93); [intros [= <- _]; discriminate|].
    destruct (c =? 44); [|discriminate].
    destruct (parse_value f r0) as [[v1 r1]|]; [|discriminate]. eauto.
  - intros acc s v r. rewrite parse_members_unfold.
    destruct (skip_ws s) as [|c r0]; [discriminate|].
    destruct (c =? 125); [intros [= <- _]; discriminate|].
    destruct (c =? 44); [|discriminate].
    destruct (parse_member (parse_value f) r0) as [[[k v1] r1]|];
      [|discriminate].
    eauto.
Qed.

Lemma JSON_parse_defined (s : jsstring) : JSON_parse s <> Some JUndefined.
Proof.
  unfold JSON_parse.
  destruct (parse_value (S (length s)) s) as [[v r]|] eqn:E; [|discriminate].
  apply (proj1 (parse_defined _)) in E.
  destruct (skip_ws r); [|discriminate]. congruence.
Qed.

Lemma handleChunk_routes (now : Z) (st : DisplayState) (chunk : JsValue) :
  handleChunk now st chunk
  = match event_of_chunk chunk with
    | None => Returns st
    | Some event => handleChunk now st
                      (match event with JStr _ => JBool true | _ => event end)
    end.
Proof.
  unfold handleChunk, event_of_chunk.
  destruct chunk; try reflexivity.
  destruct (JSON_parse s) as [[]|]; reflexivity.
Qed.

Lemma record_throws (now : Z) (st : DisplayState) (event : JsValue) :
  (forall s, event <> JStr s) ->
  handleChunk now st event = Throws <-> event = JNull \/ event = JUndefined.
Proof.
  intros Hs. unfold handleChunk, get_property.
  destruct event as [| |b|z|s|elems|props];
    try (split; [discriminate | intros [H | H]; discriminate H]);
    try (split; auto; fail).
  - now destruct (Hs s).
  - destruct (field props "type");
      try (split; [discriminate | intros [H | H]; discriminate H]).
    repeat match goal with
           | |- context [if ?b then _ else _] => destruct b
           end;
      (split; [discriminate | intros [H | H]; discriminate H]).
Qed.

(** X12.  [handleChunk] throws exactly when the record is [null] (or
    [undefined]): a chunk that is one of them, or a string that parses
    to [null].  On every other chunk it returns. *)
Theorem handleChunk_throws_iff (now : Z) (st : DisplayState) (chunk : JsValue) :
  handleChunk now st chunk = Throws
  <-> chunk = JUndefined \/ chunk = JNull
      \/ exists s, chunk = JStr s /\ JSON_parse s = Some JNull.
Proof.
  destruct chunk as [| |b|z|s|elems|props];
    try (rewrite record_throws by discriminate; split;
         [intros [H | H]; discriminate H
         | intros [H | [H | (s' & H & _)]]; discriminate H]).
  - split; [auto | reflexivity].
  - split; [auto | reflexivity].
  - rewrite handleChunk_routes. cbn [event_of_chunk].
    destruct (JSON_parse s) as [event|] eqn:E.
    + destruct event as [| |b|z|t|elems|props];
        try (split;
             [discriminate
             | intros [H | [H | (s' & [= <-] & H')]];
               [discriminate H | discriminate H | congruence]]).
      * now destruct (JSON_parse_defined s).
      * split; [eauto | reflexivity].
      * rewrite record_throws by discriminate. split.
        { intros [H | H]; discriminate H. }
        { intros [H | [H | (s' & [= <-] & H')]];
            [discriminate H | discriminate H | congruence]. }
    + split; [discriminate|].
      intros [H | [H | (s' & [= <-] & H')]];
        [discriminate H | discriminate H | congruence].
Qed.

(** X13.  A record that is no event is ignored: on a primitive, an array,
    or an object whose type is not one of the six event types,
    [handleChunk] returns with the display state as it was. *)
Theorem unknown_record_ignored (now : Z) (st : DisplayState)
    (chunk event : JsValue) :
  event_of_chunk chunk = Some event -> ignored event = true ->
  handleChunk now st chunk = Returns st.
Proof.
  intros He Hi. rewrite handleChunk_routes, He.
  destruct event as [| |b|z|s|elems|props]; try discriminate Hi;
    try reflexivity.
  unfold handleChunk, get_property. cbn [ignored] in Hi.
  destruct (field props "type") as [| | | |ty| |]; try reflexivity.
  apply negb_true_iff in Hi. unfold known_event_types in Hi.
  cbn [existsb] in Hi.
  repeat (apply orb_false_iff in Hi as [? Hi]).
  repeat match goal with
         | H : (ty =s _) = false |- _ => rewrite H; clear H
         end.
  reflexivity.
Qed.

Lemma unknown_record_ignored_witness :
  handleChunk 5 search_started
    (JStr ([123; 34] ++ str "type" ++ [34; 58; 34] ++ str "heartbeat"
             ++ [34; 125]))
  = Returns search_started.
Proof.
  apply (unknown_record_ignored 5 search_started _
           (JObj [(str "type", JStr (str "heartbeat"))]));
    reflexivity.
Defined.

(** ** From the upstream chunks to the display *)










(** ** The request of the fetcher *)

Lemma HEX_digit_unreserved (d : N) :
  d < 16 -> uri_unreserved (HEX_digit d) = true.
Proof.
  intros H. unfold HEX_digit, uri_unreserved, is_digit.
  destruct (N.ltb_spec d 10).
  - replace ((48 <=? 48 + d) && (48 + d <=? 57)) with true;
      [now rewrite !orb_true_r|].
    symmetry. apply andb_true_iff. split; apply N.leb_le; lia.
  - replace ((65 <=? 55 + d) && (55 + d <=? 90)) with true; [reflexivity|].
    symmetry. apply andb_true_iff. split; apply N.leb_le; lia.
Qed.

Lemma percent_safe (octet : N) : forallb uri_safe (percent octet) = true.
Proof.
  unfold percent, uri_safe. cbn [forallb].
  rewrite !HEX_digit_unreserved by (apply N.mod_lt; discriminate).
  reflexivity.
Qed.

Lemma escaped_octets_safe (octets : list N) :
  forallb uri_safe (flat_map percent octets) = true.
Proof.
  induction octets as [|o os IH]; [reflexivity|].
  cbn [flat_map]. now rewrite forallb_app, percent_safe, IH.
Qed.

Lemma encodeURIComponent_safe_bounded (n : nat) :
  forall s r, (length s <= n)%nat -> encodeURIComponent s = Resolved r ->
    forallb uri_safe r = true.
Proof.
  induction n as [|n IH]; intros s r Hn H.
  - destruct s; [injection H as <-; reflexivity | simpl in Hn; lia].
  - destruct s as [|c s']; [injection H as <-; reflexivity|].
    cbn [length] in Hn. cbn [encodeURIComponent] in H.
    destruct (uri_unreserved c) eqn:Hc.
    + destruct (encodeURIComponent s') as [r'|] eqn:E; [|discriminate H].
      injection H as <-. cbn [forallb]. unfold uri_safe at 1.
      rewrite Hc. apply (IH s' r'); [lia | exact E].
    + destruct (is_low c); [discriminate H|].
      destruct (is_high c).
      * destruct s' as [|d s'']; [discriminate H|].
        destruct (is_low d); [|discriminate H].
        destruct (encodeURIComponent s'') as [r'|] eqn:E; [|discriminate H].
        injection H as <-. rewrite forallb_app, escaped_octets_safe.
        apply (IH s'' r'); [cbn [length] in Hn; lia | exact E].
      * destruct (encodeURIComponent s') as [r'|] eqn:E; [|discriminate H].
        injection H as <-. rewrite forallb_app, escaped_octets_safe.
        apply (IH s' r'); [lia | exact E].
Qed.

(** An encoded component is made of unreserved characters and percent
    signs. *)
Lemma encodeURIComponent_safe (s r : jsstring) :
  encodeURIComponent s = Resolved r -> forallb uri_safe r = true.
Proof.
  apply (encodeURIComponent_safe_bounded (length s)). lia.
Qed.

Lemma count_unit_app (c : N) (a b : jsstring) :
  count_unit c (a ++ b) = (count_unit c a + count_unit c b)%nat.
Proof.
  unfold count_unit. now rewrite filter_app, length_app.
Qed.

Lemma count_unit_none (c : N) (s : jsstring) (f : N -> bool) :
  forallb f s = true -> f c = false -> count_unit c s = 0%nat.
Proof.
  unfold count_unit. intros Hs Hc.
  induction s as [|d s IH]; [reflexivity|].
  cbn [forallb] in Hs. apply andb_true_iff in Hs as [Hd Hs].
  cbn [filter]. destruct (N.eqb_spec c d) as [<- | _]; [congruence|].
  now apply IH.
Qed.

Lemma digits_plain (u : Decimal.uint) :
  forallb is_digit (digits_of_uint u) = true.
Proof.
  induction u; cbn [digits_of_uint forallb]; try reflexivity; exact IHu.
Qed.

Lemma Z_to_string_plain (z : Z) :
  forallb (fun c => is_digit c || (c =? 45)) (Z_to_string z) = true.
Proof.
  assert (forall u, forallb (fun c => is_digit c || (c =? 45))
                      (digits_of_uint u) = true) as Hd.
  { intros u. eapply forallb_weaken; [|apply digits_plain].
    intros c Hc. now rewrite Hc. }
  destruct z; [reflexivity | apply Hd | cbn; apply Hd].
Qed.

(** X16.  Whatever the query, the URL of the request has its three
    parameters and no more: the encoded query holds none of the
    characters that structure a URL, so the URL has exactly two
    ampersands, three equals signs, one question mark and no fragment
    sign. *)
Theorem query_cannot_alter_url (query q : jsstring) (maxResults : Z) :
  encodeURIComponent query = Resolved q ->
  count_unit 38 (arxiv_url q maxResults) = 2%nat
  /\ count_unit 61 (arxiv_url q maxResults) = 3%nat
  /\ count_unit 63 (arxiv_url q maxResults) = 1%nat
  /\ count_unit 35 (arxiv_url q maxResults) = 0%nat.
Proof.
  intros H. apply encodeURIComponent_safe in H.
  pose proof (Z_to_string_plain maxResults) as Hn.
  unfold arxiv_url. rewrite !count_unit_app.
  repeat split;
    rewrite (count_unit_none _ q uri_safe H) by reflexivity;
    rewrite (count_unit_none _ (Z_to_string maxResults) _ Hn) by reflexivity;
    reflexivity.
Qed.

Lemma query_cannot_alter_url_witness :
  encodeURIComponent (str "x&max_results=1000#") = Resolved (str "x%26max_results%3D1000%23")
  /\ count_unit 38 (arxiv_url (str "x%26max_results%3D1000%23") 5) = 2%nat.
Proof.
  split; [reflexivity|].
  apply (query_cannot_alter_url (str "x&max_results=1000#")
           (str "x%26max_results%3D1000%23") 5 eq_refl).
Defined.

Lemma encodeURIComponent_rejects_bounded (n : nat) :
  forall s, (length s <= n)%nat ->
    (encodeURIComponent s = Rejected <-> well_formed_utf16 s = false).
Proof.
  induction n as [|n IH]; intros s Hn.
  - destruct s; [split; discriminate | simpl in Hn; lia].
  - destruct s as [|c s']; [split; discriminate|].
    cbn [length] in Hn. cbn [encodeURIComponent well_formed_utf16].
    destruct (uri_unreserved c) eqn:Hc.
    + assert (is_low c = false /\ is_high c = false) as [-> ->].
      { unfold uri_unreserved, is_digit in Hc. unfold is_low, is_high.
        assert (c <= 126) as Hle.
        { repeat (apply orb_true_iff in Hc as [Hc | Hc]);
            try (apply N.eqb_eq in Hc; lia);
            apply andb_true_iff in Hc as [_ Hc]; apply N.leb_le in Hc; lia. }
        split; apply andb_false_iff; left; apply N.leb_gt; lia. }
      rewrite <- (IH s') by lia.
      destruct (encodeURIComponent s'); split; congruence.
    + destruct (is_low c); [split; reflexivity|].
      destruct (is_high c).
      * destruct s' as [|d s'']; [split; reflexivity|].
        destruct (is_low d); [|split; reflexivity].
        cbn [andb]. rewrite <- (IH s'') by (cbn [length] in Hn; lia).
        unfold escaped. destruct (encodeURIComponent s''); split; congruence.
      * rewrite <- (IH s') by lia.
        unfold escaped. destruct (encodeURIComponent s'); split; congruence.
Qed.

(** X17.  A query with a surrogate that is not half of a pair makes
    [fetchArxiv] reject, whatever the platform would answer: the URIError
    of [encodeURIComponent] comes before any request.  Every other query
    is encoded. *)
Theorem lone_surrogate_rejected (fetch : jsstring -> outcome Response.t)
    (query : jsstring) (maxResults : option Z) :
  (well_formed_utf16 query = false ->
   fetchArxiv encodeURIComponent fetch query maxResults = Rejected)
  /\ (well_formed_utf16 query = true ->
      exists q, encodeURIComponent query = Resolved q).
Proof.
  pose proof (encodeURIComponent_rejects_bounded (length query) query
                (Nat.le_refl _)) as H.
  split.
  - intros Hw. apply H in Hw. unfold fetchArxiv. now rewrite Hw.
  - intros Hw. destruct (encodeURIComponent query) as [q|]; [eauto|].
    destruct H as [H _]. rewrite H in Hw by reflexivity. discriminate Hw.
Qed.

Lemma lone_surrogate_rejected_witness :
  fetchArxiv encodeURIComponent
    (fun _ => Resolved (Response.mk 200 (Resolved [])))
    (str "ai" ++ [0xD83D]) None
  = Rejected.
Proof.
  apply (proj1 (lone_surrogate_rejected
                  (fun _ => Resolved (Response.mk 200 (Resolved [])))
                  (str "ai" ++ [0xD83D]) None)).
  reflexivity.
Defined.


(** ** The earlier agent and the event-stream route *)

Lemma fold_left_append (l : list jsstring) (acc : jsstring) :
  fold_left (fun response chunk => response ++ chunk) l acc = acc ++ concat l.
Proof.
  revert acc; induction l as [|x l IH]; intros acc; cbn [fold_left concat].
  - now rewrite app_nil_r.
  - now rewrite IH, app_assoc.
Qed.

Lemma yielded_text (cs : list ChatChunk.t) :
  concat (flat_map yielded cs) = concat (map chunk_text cs).
Proof.
  induction cs as [|c cs IH]; [reflexivity|].
  cbn [flat_map map concat]. rewrite concat_app, IH. f_equal.
  unfold yielded, chunk_text.
  destruct (first_content c) as [[|x s]|]; cbn [concat app];
    now rewrite ?app_nil_r.
Qed.

Lemma parseInt_digits (u : Decimal.uint) :
  u <> Decimal.Nil ->
  parseInt (digits_of_uint u) = Int (Z.of_N (N.of_uint u)).
Proof.
  intros Hu.
  assert (parse_uint (digits_of_uint u) = (u, [])) as Hp.
  { rewrite <- (app_nil_r (digits_of_uint u)).
    now apply parse_uint_digits. }
  destruct u; try congruence; cbn [digits_of_uint] in *;
    lazymatch goal with
    | |- parseInt (?c :: ?s) = _ =>
        unfold parseInt;
        change (dropWhile is_ws (c :: s)) with (c :: s);
        cbv beta iota zeta;
        change (c =? 45) with false; change (c =? 43) with false;
        cbv iota; rewrite Hp; reflexivity
    end.
Qed.

Lemma parseInt_Z_to_string (z : Z) : parseInt (Z_to_string z) = Int z.
Proof.
  destruct z as [|p|p]; [reflexivity| |].
  - unfold Z_to_string, N_to_string. rewrite parseInt_digits.
    + now rewrite DecimalN.Unsigned.of_to.
    + apply DecimalPos.Unsigned.to_uint_nonnil.
  - unfold Z_to_string, N_to_string, parseInt.
    lazymatch goal with
    | |- context [dropWhile is_ws (45 :: ?s)] =>
        change (dropWhile is_ws (45 :: s)) with (45 :: s)
    end.
    cbv beta iota zeta. change (45 =? 45) with true. cbv iota.
    rewrite <- (app_nil_r (digits_of_uint _)),
      parse_uint_digits by reflexivity.
    cbn [fst].
    pose proof (DecimalN.Unsigned.of_to (N.pos p)) as Hof.
    destruct (N.to_uint (N.pos p)) eqn:E; try (now rewrite Hof).
    exfalso. revert E. apply DecimalPos.Unsigned.to_uint_nonnil.
Qed.

Lemma Z_to_string_nonempty (z : Z) : Z_to_string z <> [].
Proof.
  destruct z as [|p|p]; [discriminate| |discriminate].
  unfold Z_to_string, N_to_string.
  pose proof (DecimalPos.Unsigned.to_uint_nonnil p) as Hp.
  change (N.to_uint (N.pos p)) with (Pos.to_uint p).
  destruct (Pos.to_uint p); [congruence | discriminate ..].
Qed.

Lemma fetchArxiv_default (fetch : jsstring -> outcome Response.t)
    (query : jsstring) (maxResults : option Z) :
  fetchArxiv encodeURIComponent fetch query
    (Some (match maxResults with Some n => n | None => 5%Z end))
  = fetchArxiv encodeURIComponent fetch query maxResults.
Proof. now destruct maxResults. Qed.

Lemma fetchArxiv_number_Int (fetch : jsstring -> outcome Response.t)
    (query : jsstring) (n : Z) :
  fetchArxiv_number fetch query (Int n)
  = fetchArxiv encodeURIComponent fetch query (Some n).
Proof. reflexivity. Qed.

Lemma tokens_not_terminal (ys : list jsstring) :
  forallb (fun x => negb (is_terminal x)) (map token ys) = true.
Proof. induction ys as [|y ys IH]; [reflexivity | exact IH]. Qed.

Lemma tokens_no_llm_start (ys : list jsstring) :
  existsb is_llm_start (map token ys) = false.
Proof. induction ys as [|y ys IH]; [reflexivity | exact IH]. Qed.

Lemma token_text_tokens (ys : list jsstring) (t : StreamEvent) :
  is_token t = false -> token_text (map token ys ++ [t]) = concat ys.
Proof.
  intros Ht. induction ys as [|y ys IH].
  - destruct t; try reflexivity; discriminate.
  - cbn [map app token_text concat]. now rewrite IH.
Qed.

Lemma well_formed_encodes (s : jsstring) :
  well_formed_utf16 s = true -> exists q, encodeURIComponent s = Resolved q.
Proof.
  intros H.
  destruct (encodeURIComponent s) as [q|] eqn:E; [now exists q|].
  apply (encodeURIComponent_rejects_bounded (length s) s (le_n _)) in E.
  congruence.
Qed.

Lemma placeholder_paperCount (status : N) :
  paperCount (status_placeholder status) = 0%nat.
Proof.
  unfold paperCount.
  now rewrite (match_all_no_lt re_entry re_entry_head)
    by apply status_placeholder_no_lt.
Qed.

(** X19.  When the literature is fetched and the model's stream ends
    normally, the earlier agent answers with the contents of the first
    choices of the chunks, joined in order; a chunk without a choice, a
    delta or a content adds nothing. *)
Theorem scout_response_is_streamed_text
    (fetch : jsstring -> outcome Response.t)
    (create : ChatRequest -> outcome CompletionStream)
    (query : jsstring) (maxResults : option Z)
    (arxivData : jsstring) (stream : CompletionStream) :
  fetchArxiv encodeURIComponent fetch query maxResults = Resolved arxivData ->
  create (analysis_request query arxivData) = Resolved stream ->
  ends stream = true ->
  scout_handler fetch create query maxResults
  = Resolved (concat (map chunk_text (chunks stream))).
Proof.
  intros Hfetch Hcreate Hends. unfold scout_handler.
  rewrite fetchArxiv_default, Hfetch. unfold streamAnalysis.
  rewrite Hcreate. cbn [returns yields]. rewrite Hends.
  now rewrite fold_left_append, yielded_text.
Qed.

Lemma scout_response_is_streamed_text_witness :
  scout_handler sample_fetch sample_create (str "agents") None
  = Resolved (str "Two ideas").
Proof.
  exact (scout_response_is_streamed_text sample_fetch sample_create
           (str "agents") None (str "<feed><entry></entry></feed>")
           sample_stream eq_refl eq_refl eq_refl).
Defined.

(** X20.  Whatever the request, the literature service and the model
    do, the event-stream route sends exactly one terminal event, and
    sends it last. *)
Theorem search_route_terminates_once
    (fetch : jsstring -> outcome Response.t)
    (create : ChatRequest -> outcome CompletionStream)
    (String_error : jsstring) (query maxResults : option jsstring) :
  terminates_once (search_route fetch create String_error query maxResults).
Proof.
  unfold search_route, terminates_once.
  destruct (fetchArxiv_number fetch _ _) as [arxivData|].
  - eexists (_ :: _ :: _ :: map token _), _.
    split; [reflexivity|]. split.
    + now destruct (returns _).
    + cbn [forallb is_terminal negb andb]. apply tokens_not_terminal.
  - eexists [_], _. split; [reflexivity|]. now split.
Qed.

(** X21.  In the events of the route, a token comes after the
    [llm_start] event, and no [llm_start] event comes after a token. *)
Theorem search_route_token_after_llm_start
    (fetch : jsstring -> outcome Response.t)
    (create : ChatRequest -> outcome CompletionStream)
    (String_error : jsstring) (query maxResults : option jsstring)
    (l1 l2 : list StreamEvent) (content : jsstring) :
  search_route fetch create String_error query maxResults
  = l1 ++ token content :: l2 ->
  existsb is_llm_start l1 = true /\ existsb is_llm_start l2 = false.
Proof.
  unfold search_route.
  destruct (fetchArxiv_number fetch _ _) as [arxivData|]; intros H.
  - destruct l1 as [|a [|b [|c l1]]]; cbn [app] in H; try congruence.
    injection H as <- <- <- H. split; [reflexivity|].
    assert (existsb is_llm_start (l1 ++ token content :: l2) = false) as Hno.
    { rewrite <- H, existsb_app, tokens_no_llm_start.
      now destruct (returns _). }
    rewrite existsb_app in Hno. apply orb_false_iff in Hno as [_ Hno].
    exact Hno.
  - destruct l1 as [|a [|b l1]]; cbn [app] in H; try congruence.
    injection H as _ _ H. destruct l1; discriminate.
Qed.

Lemma search_route_token_after_llm_start_witness :
  existsb is_llm_start
    [tool_call ARXIV_SEARCH (searching_message (str "AI agents")) None JUndefined;
     tool_result ARXIV_SEARCH (found_message 1) None JUndefined JUndefined;
     llm_start (str "gpt-5") ANALYZING] = true
  /\ existsb is_llm_start [token (str "ideas"); complete COMPLETE] = false.
Proof.
  exact (search_route_token_after_llm_start sample_fetch sample_create
           (str "Error") None None
           [tool_call ARXIV_SEARCH (searching_message (str "AI agents")) None
              JUndefined;
            tool_result ARXIV_SEARCH (found_message 1) None JUndefined JUndefined;
            llm_start (str "gpt-5") ANALYZING]
           [token (str "ideas"); complete COMPLETE] (str "Two ") eq_refl).
Defined.

(** X22.  An error status of the literature service is no error of the
    route: when every request is answered with a status outside 200 to
    299, the route reports that it found 0 papers and goes on to the
    analysis. *)
Theorem search_route_error_status
    (fetch : jsstring -> outcome Response.t)
    (create : ChatRequest -> outcome CompletionStream)
    (String_error : jsstring) (query maxResults : option jsstring) :
  well_formed_utf16 (match query with Some s => s | None => [] end) = true ->
  (forall url, exists r, fetch url = Resolved r /\ Response.ok r = false) ->
  exists rest,
    tl (search_route fetch create String_error query maxResults)
    = tool_result ARXIV_SEARCH (found_message 0) None JUndefined JUndefined
      :: llm_start (str "gpt-5") ANALYZING :: rest.
Proof.
  intros Hwf Hfetch. unfold search_route.
  set (q := match query with Some (c :: s) => c :: s | _ => str "AI agents" end).
  assert (well_formed_utf16 q = true) as Hq.
  { subst q. destruct query as [[|c s]|]; [reflexivity | exact Hwf | reflexivity]. }
  destruct (well_formed_encodes q Hq) as [q' Hq'].
  unfold fetchArxiv_number. rewrite Hq'.
  match goal with
  | |- context [fetch ?u] => destruct (Hfetch u) as (r & -> & Hok)
  end.
  rewrite Hok. cbn [negb tl]. rewrite placeholder_paperCount.
  eexists. reflexivity.
Qed.

Lemma search_route_error_status_witness :
  exists rest,
    tl (search_route
          (fun _ => Resolved (Response.mk 503 (Resolved (str "<entry>"))))
          (fun _ => Rejected) (str "Error") (Some (str "agents")) None)
    = tool_result ARXIV_SEARCH (found_message 0) None JUndefined JUndefined
      :: llm_start (str "gpt-5") ANALYZING :: rest.
Proof.
  apply search_route_error_status; [reflexivity|].
  intros url. eexists. split; reflexivity.
Defined.

Lemma fetchArxiv_number_ext (f g : jsstring -> outcome Response.t)
    (query : jsstring) (n : number) :
  (forall url, f url = g url) ->
  fetchArxiv_number f query n = fetchArxiv_number g query n.
Proof.
  intros H. unfold fetchArxiv_number.
  destruct (encodeURIComponent query); [now rewrite H | reflexivity].
Qed.

Lemma streamAnalysis_ext (c d : ChatRequest -> outcome CompletionStream)
    (query arxivData : jsstring) :
  (forall request, c request = d request) ->
  streamAnalysis c query arxivData = streamAnalysis d query arxivData.
Proof. intros H. unfold streamAnalysis. now rewrite H. Qed.

Lemma search_route_ext (f g : jsstring -> outcome Response.t)
    (c d : ChatRequest -> outcome CompletionStream)
    (String_error : jsstring) (query maxResults : option jsstring) :
  (forall url, f url = g url) -> (forall request, c request = d request) ->
  search_route f c String_error query maxResults
  = search_route g d String_error query maxResults.
Proof.
  intros Hf Hc. unfold search_route.
  rewrite (fetchArxiv_number_ext f g _ _ Hf).
  destruct (fetchArxiv_number g _ _) as [arxivData|]; [|reflexivity].
  now rewrite (streamAnalysis_ext c d _ arxivData Hc).
Qed.

Lemma route_tokens_of_handler
    (fetch : jsstring -> outcome Response.t)
    (create : ChatRequest -> outcome CompletionStream)
    (String_error : jsstring) (query response : jsstring) (maxResults : Z) :
  query <> [] ->
  scout_handler fetch create query (Some maxResults) = Resolved response ->
  let events := search_route fetch create String_error (Some query)
                  (Some (Z_to_string maxResults)) in
  token_text events = response /\ last events (token []) = complete COMPLETE.
Proof.
  intros Hq Hh. unfold search_route.
  destruct query as [|c s]; [congruence|].
  destruct (Z_to_string maxResults) as [|d ds] eqn:Hz;
    [now apply Z_to_string_nonempty in Hz|].
  rewrite <- Hz, parseInt_Z_to_string, fetchArxiv_number_Int.
  unfold scout_handler in Hh.
  destruct (fetchArxiv encodeURIComponent fetch (c :: s) (Some maxResults))
    as [arxivData|]; [|discriminate].
  destruct (returns (streamAnalysis create (c :: s) arxivData));
    [|discriminate].
  injection Hh as <-. rewrite fold_left_append. cbv zeta. split.
  - cbn [token_text]. now rewrite token_text_tokens.
  - change (tool_call ?a ?b ?c ?d :: ?e :: ?f :: ?g ++ [?t])
      with ([tool_call a b c d; e; f] ++ g ++ [t]).
    now rewrite !app_assoc, last_last.
Qed.

(** X23.  The route asks what the agent asks and streams what the agent
    answers.  Take a run of the agent's handler that resolves for a
    query and a number of results, and a run of the route for the same
    query and the digits of that number; if the literature service and
    the model give the route's run the answers they gave the agent's run
    (the same answer to the same request), then the tokens of the route
    join to the agent's response, and the route ends with [complete]. *)
Theorem search_route_streams_response
    (fetch_agent fetch_route : jsstring -> outcome Response.t)
    (create_agent create_route : ChatRequest -> outcome CompletionStream)
    (String_error : jsstring) (query response : jsstring) (maxResults : Z) :
  query <> [] ->
  (forall url, fetch_route url = fetch_agent url) ->
  (forall request, create_route request = create_agent request) ->
  scout_handler fetch_agent create_agent query (Some maxResults)
  = Resolved response ->
  let events := search_route fetch_route create_route String_error
                  (Some query) (Some (Z_to_string maxResults)) in
  token_text events = response /\ last events (token []) = complete COMPLETE.
Proof.
  intros Hq Hf Hc Hh.
  rewrite (search_route_ext fetch_route fetch_agent create_route create_agent
             String_error _ _ Hf Hc).
  now apply route_tokens_of_handler.
Qed.

Lemma search_route_streams_response_witness :
  token_text
    (search_route sample_fetch sample_create (str "Error")
       (Some (str "agents")) (Some (str "5")))
  = str "Two ideas"
  /\ last (search_route sample_fetch sample_create (str "Error")
             (Some (str "agents")) (Some (str "5"))) (token [])
     = complete COMPLETE.
Proof.
  assert (str "agents" <> []) as Hq by discriminate.
  exact (search_route_streams_response sample_fetch sample_fetch
           sample_create sample_create (str "Error") (str "agents")
           (str "Two ideas") 5 Hq (fun _ => eq_refl) (fun _ => eq_refl)
           eq_refl).
Defined.

(** ** The event-stream frontend *)

Lemma app_invariant (P : EventStreamApp.AppState -> Prop) :
  (forall q st, P st -> P (EventStreamApp.handleSearch q st)) ->
  (forall ty m st, P st -> P (EventStreamApp.handleActivity ty m st)) ->
  (forall text st, P st ->
     P (EventStreamApp.handleStreamUpdate text
          (EventStreamApp.mkApp (EventStreamApp.query st)
             (EventStreamApp.activeQuery st) (EventStreamApp.response st)
             (EventStreamApp.activities st) (EventStreamApp.status st)
             (EventStreamApp.activityIdRef st) text))) ->
  (forall st, P st -> P (EventStreamApp.handleComplete st)) ->
  (forall m st, P st -> P (EventStreamApp.handleError m st)) ->
  forall actions st, P st -> P (EventStreamApp.run actions st).
Proof.
  intros Hsearch Hactivity Htoken Hcomplete Herror.
  induction actions as [|a actions IH]; intros st Hst; [exact Hst|].
  apply IH. destruct a as [q|data|message]; cbn [EventStreamApp.step].
  - now apply Hsearch.
  - destruct (EventStreamApp.mounted st); [|exact Hst].
    unfold EventStreamApp.onData.
    destruct (negb (truthy data)); [exact Hst|].
    destruct data as [| | | | | |props]; try exact Hst.
    destruct (field props "type") as [| | | |ty| |]; try exact Hst.
    destruct (_ || _); [now apply Hactivity|].
    destruct (ty =s str "token"); [now apply Htoken|].
    destruct (ty =s str "complete"); [now apply Hcomplete, Hactivity|].
    destruct (ty =s str "error"); [now apply Herror | exact Hst].
  - destruct (EventStreamApp.mounted st); [now apply Herror | exact Hst].
Qed.

Lemma run_ids (actions : list EventStreamApp.action) :
  let st := EventStreamApp.run actions EventStreamApp.initial in
  map ActivityEntry.id (EventStreamApp.activities st)
  = seq 1 (length (EventStreamApp.activities st))
  /\ EventStreamApp.activityIdRef st = length (EventStreamApp.activities st).
Proof.
  apply (app_invariant (fun st =>
    map ActivityEntry.id (EventStreamApp.activities st)
    = seq 1 (length (EventStreamApp.activities st))
    /\ EventStreamApp.activityIdRef st = length (EventStreamApp.activities st)));
    try (intros; assumption); [| | |now split].
  - intros q st H. unfold EventStreamApp.handleSearch.
    destruct (trim q); [exact H | now split].
  - intros ty m st [Hids Href].
    cbn [EventStreamApp.handleActivity EventStreamApp.activities
         EventStreamApp.activityIdRef].
    rewrite map_app, length_app, Hids, Href. cbn [map length ActivityEntry.id].
    rewrite Nat.add_1_r, seq_S. split; reflexivity.
  - intros m st [Hids Href].
    cbn [EventStreamApp.handleError EventStreamApp.handleActivity
         EventStreamApp.activities EventStreamApp.activityIdRef].
    rewrite map_app, length_app, Hids, Href. cbn [map length ActivityEntry.id].
    rewrite Nat.add_1_r, seq_S. split; reflexivity.
Qed.

Lemma run_loading (actions : list EventStreamApp.action) :
  let st := EventStreamApp.run actions EventStreamApp.initial in
  match EventStreamApp.status st with
  | Status.loading => exists c s, EventStreamApp.activeQuery st = Some (c :: s)
  | _ => EventStreamApp.activeQuery st = None
  end.
Proof.
  apply (app_invariant (fun st =>
    match EventStreamApp.status st with
    | Status.loading => exists c s, EventStreamApp.activeQuery st = Some (c :: s)
    | _ => EventStreamApp.activeQuery st = None
    end)); try (intros; assumption); try reflexivity.
  intros q st H. unfold EventStreamApp.handleSearch.
  destruct (trim q) as [|c s] eqn:E; [exact H|].
  cbn [EventStreamApp.status EventStreamApp.activeQuery].
  destruct q as [|c' s']; [discriminate E | now exists c', s'].
Qed.

Lemma last_of_count_up (l : list ActivityEntry.t) :
  map ActivityEntry.id l = seq 1 (length l) ->
  filter (fun entry => Nat.eqb (ActivityEntry.id entry) (length l)) l
  = skipn (length l - 1) l.
Proof.
  destruct l as [|e l _] using rev_ind; [reflexivity|].
  rewrite map_app, length_app, Nat.add_1_r, seq_S. cbn [map].
  intros H. apply app_inj_tail in H as [Hl He].
  rewrite filter_app. cbn [filter]. rewrite He, Nat.eqb_refl.
  replace (S (length l) - 1)%nat with (length l) by lia.
  rewrite skipn_app, skipn_all, Nat.sub_diag. cbn [skipn app].
  rewrite (filter_none _ (fun entry => Nat.eqb (ActivityEntry.id entry) (S (length l))));
    [reflexivity|].
  apply forallb_forall. intros x Hx. apply negb_true_iff, Nat.eqb_neq.
  apply (in_map ActivityEntry.id) in Hx. rewrite Hl in Hx.
  apply in_seq in Hx. lia.
Qed.

(** X24.  Whatever searches, messages and connection errors the page
    has seen, the entries of its activity log are numbered 1, 2, ... in
    order, so the spinner, which is shown by the entry whose number is
    the length of the log, is on the last entry only, and only while the
    status is loading. *)
Theorem spinner_on_last_entry (actions : list EventStreamApp.action) :
  let st := EventStreamApp.run actions EventStreamApp.initial in
  map ActivityEntry.id (EventStreamApp.activities st)
  = seq 1 (length (EventStreamApp.activities st))
  /\ filter (EventStreamApp.shows_spinner st) (EventStreamApp.activities st)
     = match EventStreamApp.status st with
       | Status.loading =>
           skipn (length (EventStreamApp.activities st) - 1)
             (EventStreamApp.activities st)
       | _ => []
       end.
Proof.
  intros st. pose proof (run_ids actions) as Hids. cbv zeta in Hids.
  destruct Hids as [Hids _]. fold st in Hids.
  split; [exact Hids|].
  unfold EventStreamApp.shows_spinner.
  destruct (EventStreamApp.status st);
    try (apply filter_none, forallb_forall; reflexivity).
  now apply last_of_count_up.
Qed.

(** X25.  The stream component is mounted exactly while the status is
    loading: a search mounts it, and the [complete] message, the [error]
    message and a connection error unmount it. *)
Theorem stream_mounted_while_loading (actions : list EventStreamApp.action) :
  let st := EventStreamApp.run actions EventStreamApp.initial in
  EventStreamApp.mounted st
  = match EventStreamApp.status st with Status.loading => true | _ => false end.
Proof.
  intros st. pose proof (run_loading actions) as H. cbv zeta in H.
  fold st in H.
  unfold EventStreamApp.mounted.
  destruct (EventStreamApp.status st); try (now rewrite H).
  destruct H as (c & s & ->). reflexivity.
Qed.

Lemma run_app (a b : list EventStreamApp.action) (st : EventStreamApp.AppState) :
  EventStreamApp.run (a ++ b) st = EventStreamApp.run b (EventStreamApp.run a st).
Proof. apply fold_left_app. Qed.

Lemma run_tokens (ys : list jsstring) :
  forall st, EventStreamApp.mounted st = true ->
    EventStreamApp.response st = EventStreamApp.textRef st ->
    EventStreamApp.run (EventStreamApp.stream_actions (map token ys)) st
    = EventStreamApp.mkApp (EventStreamApp.query st)
        (EventStreamApp.activeQuery st)
        (EventStreamApp.textRef st ++ concat ys)
        (EventStreamApp.activities st) (EventStreamApp.status st)
        (EventStreamApp.activityIdRef st)
        (EventStreamApp.textRef st ++ concat ys).
Proof.
  induction ys as [|y ys IH]; intros st Hm Hr.
  - cbn [map concat EventStreamApp.stream_actions EventStreamApp.run fold_left].
    rewrite app_nil_r. destruct st as [q a r l s n t].
    cbn [EventStreamApp.response EventStreamApp.textRef] in Hr. now subst r.
  - cbn [map EventStreamApp.stream_actions EventStreamApp.run fold_left
         EventStreamApp.step].
    rewrite Hm.
    assert (EventStreamApp.onData (wire_object (token y)) st
            = EventStreamApp.mkApp (EventStreamApp.query st)
                (EventStreamApp.activeQuery st)
                (EventStreamApp.textRef st ++ y)
                (EventStreamApp.activities st) (EventStreamApp.status st)
                (EventStreamApp.activityIdRef st)
                (EventStreamApp.textRef st ++ y)) as ->
      by (destruct y; reflexivity).
    change (fold_left EventStreamApp.step
              (map (fun e => EventStreamApp.Data (wire_object e)) (map token ys)))
      with (EventStreamApp.run (EventStreamApp.stream_actions (map token ys))).
    rewrite IH by (try exact Hm; reflexivity).
    cbn [EventStreamApp.query EventStreamApp.activeQuery EventStreamApp.textRef
         EventStreamApp.activities EventStreamApp.status
         EventStreamApp.activityIdRef concat].
    now rewrite <- !app_assoc.
Qed.

(** X26.  The route's stream on the page: after a search with a query
    that is not blank and the messages of the route for it, the page
    shows the joined tokens as the response and one log entry for every
    other event, the stream component is unmounted, and the status is
    error when the last event is one and complete otherwise. *)
Theorem page_shows_route_stream
    (fetch : jsstring -> outcome Response.t)
    (create : ChatRequest -> outcome CompletionStream)
    (String_error : jsstring) (searchQuery : jsstring) :
  trim searchQuery <> [] ->
  let events := search_route fetch create String_error (Some searchQuery)
                  (Some (str "5")) in
  let st := EventStreamApp.run
              (EventStreamApp.Search searchQuery
                 :: EventStreamApp.stream_actions events)
              EventStreamApp.initial in
  EventStreamApp.response st = token_text events
  /\ map ActivityEntry.message (EventStreamApp.activities st)
     = EventStreamApp.logged_messages events
  /\ EventStreamApp.activeQuery st = None
  /\ EventStreamApp.status st
     = if is_error (last events (token [])) then Status.error
       else Status.complete.
Proof.
  intros Hq.
  destruct searchQuery as [|c s]; [now elim Hq|].
  unfold search_route.
  cbn [EventStreamApp.run fold_left EventStreamApp.step].
  unfold EventStreamApp.handleSearch.
  destruct (trim (c :: s)) as [|c' s'] eqn:E; [now elim Hq|]. clear E Hq.
  change (EventStreamApp.mounted EventStreamApp.initial) with false. cbv iota.
  destruct (fetchArxiv_number fetch (c :: s) _) as [arxivData|].
  - set (ys := yields (streamAnalysis create (c :: s) arxivData)).
    set (t := if returns _ then complete COMPLETE
              else error (error_message String_error)).
    change (?a :: ?b :: ?d :: map token ys ++ [t])
      with ([a; b; d] ++ map token ys ++ [t]).
    unfold EventStreamApp.stream_actions. rewrite !map_app.
    change (fold_left EventStreamApp.step ?l ?st) with (EventStreamApp.run l st).
    rewrite !run_app.
    change (map (fun e => EventStreamApp.Data (wire_object e)) (map token ys))
      with (EventStreamApp.stream_actions (map token ys)).
    match goal with
    | |- context [EventStreamApp.run (map _ [_; _; _]) ?st0] =>
        set (st3 := EventStreamApp.run (map _ [_; _; _]) st0)
    end.
    rewrite (run_tokens ys st3) by reflexivity.
    rewrite !app_assoc, last_last, <- !app_assoc.
    cbn [app token_text]. rewrite token_text_tokens by (subst t; now destruct (returns _)).
    unfold EventStreamApp.logged_messages.
    cbn [flat_map event_message app]. rewrite flat_map_app.
    assert (flat_map (fun e => match event_message e with
                               | Some m => [JStr m]
                               | None => []
                               end) (map token ys) = []) as ->
      by (clear; induction ys as [|y ys IH]; [reflexivity | exact IH]).
    subst t. destruct (returns _); repeat split; reflexivity.
  - repeat split; reflexivity.
Qed.

Lemma page_shows_route_stream_witness :
  let events := search_route sample_fetch sample_create (str "Error")
                  (Some (str "agents")) (Some (str "5")) in
  let st := EventStreamApp.run
              (EventStreamApp.Search (str "agents")
                 :: EventStreamApp.stream_actions events)
              EventStreamApp.initial in
  EventStreamApp.response st = str "Two ideas"
  /\ map ActivityEntry.message (EventStreamApp.activities st)
     = [JStr (searching_message (str "agents")); JStr (found_message 1);
        JStr ANALYZING; JStr COMPLETE]
  /\ EventStreamApp.activeQuery st = None
  /\ EventStreamApp.status st = Status.complete.
Proof.
  assert (trim (str "agents") <> []) as Hq by discriminate.
  exact (page_shows_route_stream sample_fetch sample_create (str "Error")
           (str "agents") Hq).
Defined.

(** ** The error banner of the streaming frontend *)

Lemma handleChunk_error_logged (now : Z) (st st' : DisplayState)
    (chunk : JsValue) :
  handleChunk now st chunk = Returns st' ->
  (status st = Status.error -> activity st <> []) ->
  status st' = Status.error -> activity st' <> [].
Proof.
  unfold handleChunk, log_activity.
  destruct (match chunk with JStr s => JSON_parse s | _ => Some chunk end)
    as [event|]; [|now intros [= <-]].
  destruct (get_property event "type") as [[| | | |ty| |]|];
    try (now intros [= <-]); try discriminate.
  destruct (_ || _).
  { destruct (get_property event "message"); [|discriminate].
    intros [= <-] H Hs. cbn [status activity] in *.
    intros E. now apply app_eq_nil in E as [_ E]. }
  destruct (ty =s str "token").
  { destruct (get_property event "content"); [|discriminate].
    intros [= <-] H Hs. cbn [status activity] in *. now apply H. }
  destruct (ty =s str "complete").
  { destruct (get_property event "message"); [|discriminate].
    intros [= <-] H Hs. discriminate Hs. }
  destruct (ty =s str "error"); [|now intros [= <-]].
  destruct (get_property event "message"); [|discriminate].
  intros [= <-] H Hs. cbn [status activity] in *.
  intros E. now apply app_eq_nil in E as [_ E].
Qed.

(** X27.  The banner of the streaming frontend, shown when the status
    is error and the activity log is empty, is never the result of a
    message of the stream: whatever chunks the reducer receives after a
    search has started, a status of error comes with a log entry. *)
Theorem error_event_is_logged (deliveries : list (Z * JsValue))
    (st : DisplayState) :
  consume search_started deliveries = Returns st ->
  status st = Status.error -> activity st <> [].
Proof.
  assert (forall ds st0, (status st0 = Status.error -> activity st0 <> []) ->
            consume st0 ds = Returns st ->
            status st = Status.error -> activity st <> []) as H.
  { induction ds as [|[now chunk] ds IH]; intros st0 H0; cbn [consume].
    - now intros [= <-].
    - destruct (handleChunk now st0 chunk) as [st1|] eqn:E; [|discriminate].
      apply IH. now apply (handleChunk_error_logged now st0 st1 chunk). }
  apply H. discriminate.
Qed.

Lemma error_event_is_logged_witness :
  activity (reduce_event 7 search_started (error (str "Error: timeout"))) <> [].
Proof.
  exact (error_event_is_logged
           [(7%Z, JStr (encodeEvent (error (str "Error: timeout"))))]
           (reduce_event 7 search_started (error (str "Error: timeout")))
           eq_refl eq_refl).
Defined.
